(** * livedom: range, traversal and attribute algorithms

    A shallow embedding of the algorithm classes of the livedom sources
    ([RangeAlgorithmImpl], [ElementAlgorithmImpl], [TreeWalkerAlgorithmImpl])
    and the properties stated about them.

    Nodes are JavaScript objects compared by identity ([===]); they are
    modelled as indices into a store (an arena), so that aliasing and in-place
    mutation are explicit.  Methods that mutate and may throw return the state
    reached together with an [Outcome]. *)

From Stdlib Require Import Arith Lia Bool List String Ascii.
From stdpp Require Import base list.
Import ListNotations.

Open Scope nat_scope.

(** ** Errors *)

(** The members of [DOMException] that the algorithms throw. *)
Inductive DOMException : Type :=
| InvalidNodeTypeError
| IndexSizeError
| HierarchyRequestError
| InUseAttributeError
| SyntaxError
| NotFoundError.

(** How a call ends: [Return] is a normal return, [Throw] a thrown
    [DOMException], [Fault] a thrown plain [Error] (the "Parent node is null."
    guards, and a call of [position] with points of two trees), [OutOfFuel]
    marks a loop or recursion of the model cut short; it is no behaviour of the
    source. *)
Inductive Outcome (A : Type) : Type :=
| Return (a : A)
| Throw (e : DOMException)
| Fault
| OutOfFuel.
Arguments Return {A} a.
Arguments Throw {A} e.
Arguments Fault {A}.
Arguments OutOfFuel {A}.

(** ** Nodes and the store *)

Inductive NodeType : Type :=
| Element
| Attribute
| Text
| ProcessingInstruction
| Comment
| Document
| DocumentType
| DocumentFragment.

Definition NodeType_eqb (a b : NodeType) : bool :=
  match a, b with
  | Element, Element | Attribute, Attribute | Text, Text
  | ProcessingInstruction, ProcessingInstruction | Comment, Comment
  | Document, Document | DocumentType, DocumentType
  | DocumentFragment, DocumentFragment => true
  | _, _ => false
  end.

(** A node object: its kind, the back-reference to its parent, its child list
    and, for character data, its data (one character per code unit). *)
Record Node : Type := mkNode {
  nodeType : NodeType;
  _parent : option nat;
  childNodes : list nat;
  _data : string
}.

(** The heap of node objects; a node reference is an index into it. *)
Abbreviation Store := (list Node).

Definition emptyNode : Node := mkNode Element None [] EmptyString.

Definition getNode (st : Store) (n : nat) : Node :=
  default emptyNode (st !! n).

Definition parentOf (st : Store) (n : nat) : option nat := _parent (getNode st n).
Definition childrenOf (st : Store) (n : nat) : list nat := childNodes (getNode st n).
Definition kindOf (st : Store) (n : nat) : NodeType := nodeType (getNode st n).
Definition dataOf (st : Store) (n : nat) : string := _data (getNode st n).

(** Modelled from the spec: the type guards ([Guard], from the utilities) are
    not among the sources.  A guard answers whether its argument is a node
    object of the kind.  Given a node, as at every call site but two, it is a
    test of the kind [t] of the node; the text-like kinds are text, processing
    instruction and comment. *)
Module Guard.
Definition isDocumentTypeNode (t : NodeType) : bool := NodeType_eqb t DocumentType.

(** [setTheStart] and [setTheEnd] call [Guard.isDocumentTypeNode(node.nodeType)]:
    the guard is given the number [nodeType] and not the node.  A number is no
    node object, and the answer is false whatever the number. *)
Definition isDocumentTypeNodeOfNumber (nodeType : NodeType) : bool := false.
Definition isTextNode (t : NodeType) : bool := NodeType_eqb t Text.
Definition isProcessingInstructionNode (t : NodeType) : bool :=
  NodeType_eqb t ProcessingInstruction.
Definition isCommentNode (t : NodeType) : bool := NodeType_eqb t Comment.
Definition isDocumentFragmentNode (t : NodeType) : bool :=
  NodeType_eqb t DocumentFragment.
(** Text, ProcessingInstruction or Comment. *)
Definition isCharacterDataNode (t : NodeType) : bool :=
  isTextNode t || isProcessingInstructionNode t || isCommentNode t.
End Guard.

(** ** Tree index *)

Module Tree.

(** Modelled from the spec: the tree index ([this.dom.tree]) is not among the
    sources.  [ancestorsUp] lists the ancestors of [n] met by walking the
    parent links, nearest first; the walk is cut after [fuel] links. *)
Fixpoint ancestorsUp (st : Store) (fuel : nat) (n : nat) : list nat :=
  match fuel with
  | 0 => []
  | S fuel' =>
      match parentOf st n with
      | None => []
      | Some p => p :: ancestorsUp st fuel' p
      end
  end.

(** The inclusive ancestors of [n], topmost first, [n] itself last. *)
Definition chain (st : Store) (n : nat) : list nat :=
  rev (n :: ancestorsUp st (length st) n).

(** Modelled from the spec: [root(node)] walks parent links to the topmost
    ancestor. *)
Definition rootNode (st : Store) (n : nat) : nat :=
  hd n (chain st n).

(** Modelled from the spec: [isAncestorOf].  The argument order is the one of
    the call sites: [isAncestorOf node other self] holds when [other] is on
    the ancestor chain of [node], counting [other = node] when [self] is
    set. *)
Definition isAncestorOf (st : Store) (node other : nat) (self : bool) : bool :=
  (self && (node =? other)) || existsb (Nat.eqb other) (ancestorsUp st (length st) node).

Fixpoint findIndex (x : nat) (l : list nat) : option nat :=
  match l with
  | [] => None
  | y :: l' => if x =? y then Some 0 else option_map S (findIndex x l')
  end.

(** Modelled from the spec: [index(node)] is the zero-based position among
    the parent's children, and is undefined for a node without parent:
    [indexOpt] is [None] there. *)
Definition indexOpt (st : Store) (n : nat) : option nat :=
  match parentOf st n with
  | None => None
  | Some p => findIndex n (childrenOf st p)
  end.

(** The number a call of [index] gives: the count of the siblings before the
    node, which is 0 for a node without parent. *)
Definition index (st : Store) (n : nat) : nat := default 0 (indexOpt st n).

(** Modelled from the spec: [length(node)] is the child count for container
    nodes, the character count for text-like nodes and 0 otherwise. *)
Definition nodeLength (st : Store) (n : nat) : nat :=
  let t := kindOf st n in
  if Guard.isDocumentTypeNode t then 0
  else if Guard.isCharacterDataNode t then String.length (dataOf st n)
  else length (childrenOf st n).

End Tree.

(** ** Links between nodes *)

(** The links [_firstChild], [_lastChild], [_nextSibling] and
    [_previousSibling] of a node object, read off the child lists. *)
Module Links.

Definition firstChild (st : Store) (n : nat) : option nat := head (childrenOf st n).

Definition lastChild (st : Store) (n : nat) : option nat := last (childrenOf st n).

Definition nextSibling (st : Store) (n : nat) : option nat :=
  match parentOf st n with
  | None => None
  | Some p =>
      match Tree.findIndex n (childrenOf st p) with
      | None => None
      | Some i => nth_error (childrenOf st p) (S i)
      end
  end.

Definition previousSibling (st : Store) (n : nat) : option nat :=
  match parentOf st n with
  | None => None
  | Some p =>
      match Tree.findIndex n (childrenOf st p) with
      | Some (S i) => nth_error (childrenOf st p) i
      | _ => None
      end
  end.

End Links.

(** ** Boundary points *)

Definition BoundaryPoint : Type := (nat * nat)%type.

Inductive BoundaryPosition : Type := Before | Equal | After.

Definition BoundaryPosition_eqb (a b : BoundaryPosition) : bool :=
  match a, b with
  | Before, Before | Equal, Equal | After, After => true
  | _, _ => false
  end.

Module BoundaryPointAlg.

Definition ofCompare (c : comparison) : BoundaryPosition :=
  match c with Lt => Before | Eq => Equal | Gt => After end.

Definition flip (p : BoundaryPosition) : BoundaryPosition :=
  match p with Before => After | Equal => Equal | After => Before end.

(** Drops the common prefix of two chains. *)
Fixpoint diverge (ca cb : list nat) : list nat * list nat :=
  match ca, cb with
  | a :: ca', b :: cb' => if a =? b then diverge ca' cb' else (ca, cb)
  | _, _ => (ca, cb)
  end.

(** Modelled from the spec: [position(A, B)] (section 4.2); the boundary
    point algorithms are not among the sources.
    1. same node: the offsets are compared;
    2. one node is an ancestor of the other: with [c] the ancestor's child
       that is or contains the descendant, the ancestor's point is before
       when its offset is at most the index of [c], and after otherwise;
    3. otherwise the children of the nearest common ancestor that head the
       two paths are compared by index.
    The chains are taken topmost first; after the common prefix is dropped,
    an empty remainder on one side says that this side is the ancestor, and
    the head of the other remainder is [c].  The spec defines the relation
    for points of one tree only. *)
Definition position (st : Store) (a b : BoundaryPoint) : BoundaryPosition :=
  let '(na, oa) := a in
  let '(nb, ob) := b in
  if na =? nb then ofCompare (oa ?= ob)
  else
    match diverge (Tree.chain st na) (Tree.chain st nb) with
    | ([], c :: _) => if oa <=? Tree.index st c then Before else After
    | (c :: _, []) => if ob <=? Tree.index st c then After else Before
    | (ca :: _, cb :: _) => ofCompare (Tree.index st ca ?= Tree.index st cb)
    | ([], []) => Equal
    end.

(** Modelled from the spec: [position] as it is called.  The relation is
    defined for two points of one tree; a call with points of two trees is a
    contract error of the caller and ends with a plain [Error]. *)
Definition positionCall (st : Store) (a b : BoundaryPoint) : Outcome BoundaryPosition :=
  if Tree.rootNode st (fst a) =? Tree.rootNode st (fst b)
  then Return (position st a b) else Fault.

End BoundaryPointAlg.


(** [===] on references that may be null. *)
Definition option_nat_eqb (a b : option nat) : bool :=
  match a, b with
  | None, None => true
  | Some x, Some y => x =? y
  | _, _ => false
  end.

(** ** Store-passing computations *)

(** A method body that reads and writes the node store and may throw: the
    store reached is returned also when the call throws, so that partial
    effects are visible. *)
Definition M (A : Type) : Type := Store -> Store * Outcome A.

Definition ret {A : Type} (a : A) : M A := fun st => (st, Return a).

Definition raise {A : Type} (e : DOMException) : M A := fun st => (st, Throw e).

Definition fault {A : Type} : M A := fun st => (st, Fault).

Definition outOfFuel {A : Type} : M A := fun st => (st, OutOfFuel).

Definition bind {A B : Type} (m : M A) (k : A -> M B) : M B :=
  fun st =>
    match m st with
    | (st1, Return a) => k a st1
    | (st1, Throw e) => (st1, Throw e)
    | (st1, Fault) => (st1, Fault)
    | (st1, OutOfFuel) => (st1, OutOfFuel)
    end.

Definition getStore : M Store := fun st => (st, Return st).

Definition modifyStore (f : Store -> Store) : M unit := fun st => (f st, Return tt).

Declare Scope dom_scope.
Delimit Scope dom_scope with dom.
Notation "x <- m ;; k" := (bind m (fun x => k))
  (at level 100, m at next level, right associativity) : dom_scope.
Notation "m ;;; k" := (bind m (fun _ => k))
  (at level 100, right associativity) : dom_scope.
Open Scope dom_scope.

(** ** Node mutation primitives *)

(** The primitives of the mutation collaborator are given by what they do to
    the tree.  In the repository they also re-point the live ranges that are
    registered with a document; the methods modelled here do not read a range
    once a primitive has changed the tree of the range, and that part of the
    primitives is left out. *)
Module Mutation.

Definition updNode (n : nat) (f : Node -> Node) (st : Store) : Store :=
  <[n := f (getNode st n)]> st.

Definition setParent (p : option nat) (x : Node) : Node :=
  mkNode (nodeType x) p (childNodes x) (_data x).
Definition setChildren (c : list nat) (x : Node) : Node :=
  mkNode (nodeType x) (_parent x) c (_data x).
Definition setData (d : string) (x : Node) : Node :=
  mkNode (nodeType x) (_parent x) (childNodes x) d.

(** A new node object: it is put at the end of the store. *)
Definition alloc (x : Node) : M nat :=
  fun st => (st ++ [x], Return (length st)).

(** Modelled from the spec: [create.documentFragment] is not among the
    sources; it gives a new fragment without parent and children. *)
Definition documentFragment : M nat :=
  alloc (mkNode DocumentFragment None [] EmptyString).

(** Modelled from the spec: [cloneNode(node) -> detached clone]; the sources
    call it without the clone-children flag, so the clone has no children. *)
Definition clone (n : nat) : M nat :=
  st <- getStore ;;
  alloc (mkNode (kindOf st n) None [] (dataOf st n)).

(** Modelled from the spec: [substringCharacterData(node, offset, count)]. *)
Definition substringData (st : Store) (n offset count : nat) : string :=
  String.substring offset count (dataOf st n).

(** Modelled from the spec: [replaceCharacterData(node, offset, count,
    newData)]: [count] characters from [offset] on are replaced by [newData]. *)
Definition replaceData (n offset count : nat) (newData : string) : M unit :=
  modifyStore (fun st =>
    let d := dataOf st n in
    updNode n (setData (String.substring 0 offset d ++ newData
                        ++ String.substring (offset + count)
                             (String.length d - (offset + count)) d)%string) st).

Definition setDataOf (n : nat) (d : string) : M unit :=
  modifyStore (updNode n (setData d)).

Definition removeFrom (x : nat) (l : list nat) : list nat :=
  List.filter (fun y => negb (y =? x)) l.

(** Modelled from the spec: [remove(node, parent)]: the node leaves the child
    list of its parent and loses its parent. *)
Definition remove (node parent : nat) : M unit :=
  modifyStore (fun st =>
    updNode node (setParent None)
      (updNode parent (setChildren (removeFrom node (childrenOf st parent))) st)).

Definition detach (node : nat) : M unit :=
  st <- getStore ;;
  match parentOf st node with
  | Some p => remove node p
  | None => ret tt
  end.

Definition insertAt (i : nat) (x : nat) (l : list nat) : list nat :=
  firstn i l ++ x :: skipn i l.

(** The place of the reference child in the child list, the end for [null]. *)
Definition refIndex (st : Store) (parent : nat) (child : option nat) : nat :=
  match child with
  | None => length (childrenOf st parent)
  | Some c => default (length (childrenOf st parent)) (Tree.findIndex c (childrenOf st parent))
  end.

(** One node is put into [parent] before [child]. *)
Definition insertOne (node parent : nat) (child : option nat) : M unit :=
  detach node ;;;
  modifyStore (fun st =>
    updNode node (setParent (Some parent))
      (updNode parent
         (setChildren (insertAt (refIndex st parent child) node (childrenOf st parent)))
         st)).

Fixpoint insertAll (nodes : list nat) (parent : nat) (child : option nat) : M unit :=
  match nodes with
  | [] => ret tt
  | x :: rest => insertOne x parent child ;;; insertAll rest parent child
  end.

(** Modelled from the spec: [ensurePreInsertionValidity(node, parent,
    referenceOrNull)] fails with [HierarchyRequestError] or [NotFoundError]
    per the standard pre-insertion rules: the parent is a document, a fragment
    or an element; the node is no inclusive ancestor of the parent; a reference
    child is a child of the parent; the node is a fragment, a doctype, an
    element or character data; a text node does not go into a document and a
    doctype goes only into a document.  The standard's further rules on the
    children of a document are left out: they refuse more insertions into a
    document and change no insertion that passes. *)
Definition ensurePreInsertionValidity (node parent : nat) (child : option nat) : M unit :=
  st <- getStore ;;
  let pk := kindOf st parent in
  let nk := kindOf st node in
  if negb (NodeType_eqb pk Document || NodeType_eqb pk DocumentFragment
           || NodeType_eqb pk Element)
  then raise HierarchyRequestError
  else if Tree.isAncestorOf st parent node true then raise HierarchyRequestError
  else if match child with
          | Some c => negb (match parentOf st c with
                            | Some p => p =? parent
                            | None => false
                            end)
          | None => false
          end
  then raise NotFoundError
  else if negb (NodeType_eqb nk DocumentFragment || NodeType_eqb nk DocumentType
                || NodeType_eqb nk Element || Guard.isCharacterDataNode nk)
  then raise HierarchyRequestError
  else if (Guard.isTextNode nk && NodeType_eqb pk Document)
          || (NodeType_eqb nk DocumentType && negb (NodeType_eqb pk Document))
  then raise HierarchyRequestError
  else ret tt.

(** Modelled from the spec: [preInsert(node, parent, referenceOrNull) ->
    node]: after the validity check, a fragment gives its children, in order,
    to the parent and any other node moves there itself. *)
Definition preInsert (node parent : nat) (child : option nat) : M nat :=
  ensurePreInsertionValidity node parent child ;;;
  st <- getStore ;;
  let child' := match child with
                | Some c => if c =? node then
                              nth_error (childrenOf st parent)
                                (S (refIndex st parent child))
                            else child
                | None => None
                end in
  (if Guard.isDocumentFragmentNode (kindOf st node)
   then insertAll (childrenOf st node) parent child'
   else insertOne node parent child') ;;;
  ret node.

(** [parent.appendChild(node)] and [parent.append(node)] with one node. *)
Definition appendChild (parent node : nat) : M nat := preInsert node parent None.

End Mutation.

(** ** Ranges *)

(** A range object: [_start] and [_end]; [_startNode], [_startOffset],
    [_endNode], [_endOffset] read their components. *)
Record Range : Type := mkRange {
  _start : BoundaryPoint;
  _end : BoundaryPoint
}.

Definition _startNode (r : Range) : nat := fst (_start r).
Definition _startOffset (r : Range) : nat := snd (_start r).
Definition _endNode (r : Range) : nat := fst (_end r).
Definition _endOffset (r : Range) : nat := snd (_end r).

Definition set_start (bp : BoundaryPoint) (r : Range) : Range := mkRange bp (_end r).
Definition set_end (bp : BoundaryPoint) (r : Range) : Range := mkRange (_start r) bp.

Module RangeAlg.
Import BoundaryPointAlg.

Definition collapsed (r : Range) : bool :=
  (_startNode r =? _endNode r) && (_startOffset r =? _endOffset r).

Definition root (st : Store) (r : Range) : nat := Tree.rootNode st (_startNode r).

(** [isContained]: the first test puts [node] into the tree of the start
    node, and both calls of [position] are with points of one tree whenever
    the two ends of the range are in one tree. *)
Definition isContained (st : Store) (node : nat) (r : Range) : bool :=
  (Tree.rootNode st node =? root st r)
  && BoundaryPosition_eqb (position st (node, 0) (_start r)) After
  && BoundaryPosition_eqb (position st (node, Tree.nodeLength st node) (_end r)) Before.

Definition isPartiallyContained (st : Store) (node : nat) (r : Range) : bool :=
  let startCheck := Tree.isAncestorOf st (_startNode r) node true in
  let endCheck := Tree.isAncestorOf st (_endNode r) node true in
  (startCheck && negb endCheck) || (negb startCheck && endCheck).

(** [setTheStart]: the range after the call and how the call ended.  The
    doctype check is the guard on the number [node.nodeType]; [position] is
    called before the roots are compared, as the left operand of [||]. *)
Definition setTheStart (st : Store) (r : Range) (node offset : nat)
  : Range * Outcome unit :=
  if Guard.isDocumentTypeNodeOfNumber (kindOf st node)
  then (r, Throw InvalidNodeTypeError)
  else if Tree.nodeLength st node <? offset then (r, Throw IndexSizeError)
  else
    let bp : BoundaryPoint := (node, offset) in
    match positionCall st bp (_end r) with
    | Return pos =>
        let r1 :=
          if BoundaryPosition_eqb pos After
             || negb (root st r =? Tree.rootNode st node)
          then set_end bp r else r in
        (set_start bp r1, Return tt)
    | Throw e => (r, Throw e)
    | Fault => (r, Fault)
    | OutOfFuel => (r, OutOfFuel)
    end.

Definition setTheEnd (st : Store) (r : Range) (node offset : nat)
  : Range * Outcome unit :=
  if Guard.isDocumentTypeNodeOfNumber (kindOf st node)
  then (r, Throw InvalidNodeTypeError)
  else if Tree.nodeLength st node <? offset then (r, Throw IndexSizeError)
  else
    let bp : BoundaryPoint := (node, offset) in
    match positionCall st bp (_start r) with
    | Return pos =>
        let r1 :=
          if BoundaryPosition_eqb pos Before
             || negb (root st r =? Tree.rootNode st node)
          then set_start bp r else r in
        (set_end bp r1, Return tt)
    | Throw e => (r, Throw e)
    | Fault => (r, Fault)
    | OutOfFuel => (r, OutOfFuel)
    end.

Definition select (st : Store) (node : nat) (r : Range) : Range * Outcome unit :=
  match parentOf st node with
  | None => (r, Throw InvalidNodeTypeError)
  | Some parent =>
      let index := Tree.index st node in
      (mkRange (parent, index) (parent, index + 1), Return tt)
  end.

(** The loop of steps 5 and 6: the common ancestor is looked for upwards from
    [node]; a null parent on the way throws the plain [Error] of the source. *)
Fixpoint findCommonAncestor (fuel : nat) (st : Store) (endNode node : nat)
  : Outcome nat :=
  if Tree.isAncestorOf st endNode node true then Return node
  else match parentOf st node with
       | None => Fault
       | Some p =>
           match fuel with
           | 0 => OutOfFuel
           | S fuel' => findCommonAncestor fuel' st endNode p
           end
       end.

(** The [for ... of] loop of step 8 over the children. *)
Definition firstPartiallyContained (st : Store) (r : Range) (children : list nat)
  : option nat :=
  List.find (fun node => isPartiallyContained st node r) children.

(** The counting loop of step 10: [for (let i = ...; i > 0; i--)], entered
    with [i]; [item(i)] outside the list is null and throws the plain
    [Error]. *)
Fixpoint lastPartiallyContainedFrom (st : Store) (r : Range) (children : list nat)
  (i : nat) : Outcome (option nat) :=
  match i with
  | 0 => Return None
  | S i' =>
      match nth_error children i with
      | None => Fault
      | Some node =>
          if isPartiallyContained st node r then Return (Some node)
          else lastPartiallyContainedFrom st r children i'
      end
  end.

Definition lastPartiallyContained (st : Store) (r : Range) (children : list nat)
  : Outcome (option nat) :=
  lastPartiallyContainedFrom st r children (length children - 1).

(** The loop of steps 11 and 12 over the children. *)
Fixpoint containedChildrenOf (st : Store) (r : Range) (children : list nat)
  : Outcome (list nat) :=
  match children with
  | [] => Return []
  | child :: rest =>
      if isContained st child r then
        if Guard.isDocumentTypeNode (kindOf st child) then Throw HierarchyRequestError
        else match containedChildrenOf st r rest with
             | Return l => Return (child :: l)
             | o => o
             end
      else containedChildrenOf st r rest
  end.

(** The loop of step 14.2 of [extract]; the source calls [isAncestorOf]
    without the flag for an inclusive ancestor. *)
Fixpoint findReferenceNode (fuel : nat) (st : Store) (endNode referenceNode : nat)
  : Outcome nat :=
  match parentOf st referenceNode with
  | None => Return referenceNode
  | Some p =>
      if Tree.isAncestorOf st endNode p false then Return referenceNode
      else match fuel with
           | 0 => OutOfFuel
           | S fuel' => findReferenceNode fuel' st endNode p
           end
  end.

(** Lifts a result computed from the store at hand. *)
Definition liftO {A : Type} (f : Store -> Outcome A) : M A :=
  fun st => (st, f st).

(** Steps 13 and 14 of [extract]: new node and new offset.  New node is
    [referenceNode._parent], which the source casts to a node: it is null when
    the walk of step 14.2 has come to a node without parent, and the index of
    that node is taken as 0. *)
Definition newPoint (osn oso oen : nat) : M (option nat * nat) :=
  st <- getStore ;;
  if Tree.isAncestorOf st oen osn true then ret (Some osn, oso)
  else
    referenceNode <- liftO (fun st => findReferenceNode (length st) st oen osn) ;;
    ret (parentOf st referenceNode, 1 + Tree.index st referenceNode).

(** The range object as [extract] leaves it: a range with both ends at nodes,
    or, when step 20 has written a null new node, the range whose two ends are
    the pair [[null, offset]]. *)
Inductive RangeAfter : Type :=
| AtNodes (r : Range)
| AtNull (offset : nat).

(** Step 20: both ends are set to (new node, new offset). *)
Definition bothEndsAt (p : option nat * nat) : RangeAfter :=
  match fst p with
  | Some newNode => AtNodes (mkRange (newNode, snd p) (newNode, snd p))
  | None => AtNull (snd p)
  end.

Fixpoint appendEach (fragment : nat) (children : list nat) : M unit :=
  match children with
  | [] => ret tt
  | child :: rest => Mutation.appendChild fragment child ;;; appendEach fragment rest
  end.

Fixpoint appendClones (fragment : nat) (children : list nat) : M unit :=
  match children with
  | [] => ret tt
  | child :: rest =>
      clone <- Mutation.clone child ;;
      Mutation.appendChild fragment clone ;;;
      appendClones fragment rest
  end.

(** [extract]: the fragment, and what the method has made of the range
    object.  The method writes the range in step 20 only, where both ends are
    set; where it returns before (steps 2 and 4.5) the range is given as at
    entry.  The range is read for the last time in step 12, before the first
    change to the tree.  [fuel] bounds the depth of the recursion on
    subranges. *)
Fixpoint extract (fuel : nat) (range : Range) : M (nat * RangeAfter) :=
  match fuel with
  | 0 => outOfFuel
  | S fuel' =>
      fragment <- Mutation.documentFragment ;;
      if collapsed range then ret (fragment, AtNodes range)
      else
        let originalStartNode := _startNode range in
        let originalStartOffset := _startOffset range in
        let originalEndNode := _endNode range in
        let originalEndOffset := _endOffset range in
        st <- getStore ;;
        if (originalStartNode =? originalEndNode)
           && Guard.isCharacterDataNode (kindOf st originalStartNode)
        then
          clone <- Mutation.clone originalStartNode ;;
          Mutation.setDataOf clone
            (Mutation.substringData st originalStartNode originalStartOffset
               (originalEndOffset - originalStartOffset)) ;;;
          Mutation.appendChild fragment clone ;;;
          Mutation.replaceData originalStartNode originalStartOffset
            (originalEndOffset - originalStartOffset) EmptyString ;;;
          ret (fragment, AtNodes range)
        else
          commonAncestor <-
            liftO (fun s => findCommonAncestor (length s) s originalEndNode
                              originalStartNode) ;;
          let children := childrenOf st commonAncestor in
          let firstPartiallyContainedChild :=
            if negb (Tree.isAncestorOf st originalEndNode originalStartNode true)
            then firstPartiallyContained st range children else None in
          lastPartiallyContainedChild <-
            (if negb (Tree.isAncestorOf st originalStartNode originalEndNode true)
             then liftO (fun s => lastPartiallyContained s range children)
             else ret None) ;;
          containedChildren <- liftO (fun s => containedChildrenOf s range children) ;;
          newPt <- newPoint originalStartNode originalStartOffset originalEndNode ;;
          match firstPartiallyContainedChild with
          | Some first =>
              if Guard.isCharacterDataNode (kindOf st first) then
                clone <- Mutation.clone originalStartNode ;;
                s1 <- getStore ;;
                Mutation.setDataOf clone
                  (Mutation.substringData s1 originalStartNode originalStartOffset
                     (Tree.nodeLength s1 originalStartNode - originalStartOffset)) ;;;
                Mutation.appendChild fragment clone ;;;
                s2 <- getStore ;;
                Mutation.replaceData originalStartNode originalStartOffset
                  (Tree.nodeLength s2 originalStartNode - originalStartOffset)
                  EmptyString
              else
                clone <- Mutation.clone originalStartNode ;;
                Mutation.appendChild fragment clone ;;;
                s1 <- getStore ;;
                sub <- extract fuel'
                         (mkRange (originalStartNode, originalStartOffset)
                                  (first, Tree.nodeLength s1 first)) ;;
                Mutation.appendChild clone (fst sub) ;;;
                ret tt
          | None => ret tt
          end ;;;
          appendEach fragment containedChildren ;;;
          match lastPartiallyContainedChild with
          | Some last =>
              if Guard.isCharacterDataNode (kindOf st last) then
                clone <- Mutation.clone originalEndNode ;;
                s1 <- getStore ;;
                Mutation.setDataOf clone
                  (Mutation.substringData s1 originalEndNode 0 originalEndOffset) ;;;
                Mutation.appendChild fragment clone ;;;
                Mutation.replaceData originalEndNode 0 originalEndOffset EmptyString
              else
                clone <- Mutation.clone last ;;
                Mutation.appendChild fragment clone ;;;
                sub <- extract fuel'
                         (mkRange (last, 0) (originalEndNode, originalEndOffset)) ;;
                Mutation.appendChild clone (fst sub) ;;;
                ret tt
          | None => ret tt
          end ;;;
          ret (fragment, bothEndsAt newPt)
  end.

(** [cloneTheContents]: the fragment.  The range object is not written.  The
    branch of step 4 has no [return] in the source and goes on to step 5; the
    subrange of the last partially contained child is given to [extract]. *)
Fixpoint cloneTheContents (fuel : nat) (range : Range) : M nat :=
  match fuel with
  | 0 => outOfFuel
  | S fuel' =>
      fragment <- Mutation.documentFragment ;;
      if collapsed range then ret fragment
      else
        let originalStartNode := _startNode range in
        let originalStartOffset := _startOffset range in
        let originalEndNode := _endNode range in
        let originalEndOffset := _endOffset range in
        st <- getStore ;;
        (if (originalStartNode =? originalEndNode)
            && Guard.isCharacterDataNode (kindOf st originalStartNode)
         then
           clone <- Mutation.clone originalStartNode ;;
           Mutation.setDataOf clone
             (Mutation.substringData st originalStartNode originalStartOffset
                (originalEndOffset - originalStartOffset)) ;;;
           Mutation.appendChild fragment clone ;;;
           ret tt
         else ret tt) ;;;
        commonAncestor <-
          liftO (fun s => findCommonAncestor (length s) s originalEndNode
                            originalStartNode) ;;
        let children := childrenOf st commonAncestor in
        let firstPartiallyContainedChild :=
          if negb (Tree.isAncestorOf st originalEndNode originalStartNode true)
          then firstPartiallyContained st range children else None in
        lastPartiallyContainedChild <-
          (if negb (Tree.isAncestorOf st originalStartNode originalEndNode true)
           then liftO (fun s => lastPartiallyContained s range children)
           else ret None) ;;
        containedChildren <- liftO (fun s => containedChildrenOf s range children) ;;
        match firstPartiallyContainedChild with
        | Some first =>
            if Guard.isCharacterDataNode (kindOf st first) then
              clone <- Mutation.clone originalStartNode ;;
              s1 <- getStore ;;
              Mutation.setDataOf clone
                (Mutation.substringData s1 originalStartNode originalStartOffset
                   (Tree.nodeLength s1 originalStartNode - originalStartOffset)) ;;;
              Mutation.appendChild fragment clone ;;;
              ret tt
            else
              clone <- Mutation.clone originalStartNode ;;
              Mutation.appendChild fragment clone ;;;
              s1 <- getStore ;;
              subfragment <- cloneTheContents fuel'
                       (mkRange (originalStartNode, originalStartOffset)
                                (first, Tree.nodeLength s1 first)) ;;
              Mutation.appendChild clone subfragment ;;;
              ret tt
        | None => ret tt
        end ;;;
        appendClones fragment containedChildren ;;;
        match lastPartiallyContainedChild with
        | Some last =>
            if Guard.isCharacterDataNode (kindOf st last) then
              clone <- Mutation.clone originalEndNode ;;
              s1 <- getStore ;;
              Mutation.setDataOf clone
                (Mutation.substringData s1 originalEndNode 0 originalEndOffset) ;;;
              Mutation.appendChild fragment clone ;;;
              ret tt
            else
              clone <- Mutation.clone last ;;
              Mutation.appendChild fragment clone ;;;
              sub <- extract fuel'
                       (mkRange (last, 0) (originalEndNode, originalEndOffset)) ;;
              Mutation.appendChild clone (fst sub) ;;;
              ret tt
        | None => ret tt
        end ;;;
        ret fragment
  end.

End RangeAlg.

(** ** Attributes *)

(** An attribute object. *)
Record Attr : Type := mkAttr {
  _localName : string;
  _namespace : option string;
  _namespacePrefix : option string;
  _value : string;
  _element : option nat
}.

(** A call to a collaborator, with its arguments: the observer's
    [queueAttributeMutationRecord(element, localName, namespace, oldValue)]
    and [runAttributeChangeSteps(element, localName, oldValue, value,
    namespace)]. *)
Inductive Call : Type :=
| QueueAttributeMutationRecord (element : nat) (localName : string)
    (namespace : option string) (oldValue : option string)
| RunAttributeChangeSteps (element : nat) (localName : string)
    (oldValue value : option string) (namespace : option string).

(** An entry of the call log: the call and the attribute objects as they are
    when the call is made. *)
Record Entry : Type := mkEntry {
  call : Call;
  attrsAtCall : list Attr
}.

(** The state the attribute algorithms work on: the attribute objects (an
    attribute reference is an index), the attribute list of every element
    (by element reference) and the log of collaborator calls, oldest first. *)
Record AttrState : Type := mkAttrState {
  attrs : list Attr;
  attributeLists : list (list nat);
  log : list Entry
}.

Definition emptyAttr : Attr := mkAttr EmptyString None None EmptyString None.

Definition getAttr (s : AttrState) (a : nat) : Attr := default emptyAttr (attrs s !! a).

Definition _attributeList (s : AttrState) (element : nat) : list nat :=
  default [] (attributeLists s !! element).

Definition optionString_eqb (a b : option string) : bool :=
  match a, b with
  | None, None => true
  | Some x, Some y => String.eqb x y
  | _, _ => false
  end.

Module ElementAlg.

Definition AM (A : Type) : Type := AttrState -> AttrState * Outcome A.

Definition aret {A : Type} (a : A) : AM A := fun s => (s, Return a).

Definition abind {A B : Type} (m : AM A) (k : A -> AM B) : AM B :=
  fun s =>
    match m s with
    | (s1, Return a) => k a s1
    | (s1, Throw e) => (s1, Throw e)
    | (s1, Fault) => (s1, Fault)
    | (s1, OutOfFuel) => (s1, OutOfFuel)
    end.

Definition athen {A B : Type} (m : AM A) (k : AM B) : AM B := abind m (fun _ => k).

(** A collaborator call: it is put at the end of the log. *)
Definition callOut (c : Call) : AM unit :=
  fun s => (mkAttrState (attrs s) (attributeLists s) (log s ++ [mkEntry c (attrs s)]),
            Return tt).

Definition updAttr (a : nat) (f : Attr -> Attr) : AM unit :=
  fun s => (mkAttrState (<[a := f (getAttr s a)]> (attrs s)) (attributeLists s) (log s),
            Return tt).

Definition updList (element : nat) (f : list nat -> list nat) : AM unit :=
  fun s => (mkAttrState (attrs s)
              (<[element := f (_attributeList s element)]> (attributeLists s)) (log s),
            Return tt).

Definition withValue (v : string) (x : Attr) : Attr :=
  mkAttr (_localName x) (_namespace x) (_namespacePrefix x) v (_element x).

Definition withElement (e : option nat) (x : Attr) : Attr :=
  mkAttr (_localName x) (_namespace x) (_namespacePrefix x) (_value x) e.

Definition has (s : AttrState) (attribute element : nat) : bool :=
  existsb (Nat.eqb attribute) (_attributeList s element).

Definition change (attribute element : nat) (value : string) : AM unit :=
  fun s =>
    let a := getAttr s attribute in
    athen (callOut (QueueAttributeMutationRecord element (_localName a) (_namespace a)
                      (Some (_value a))))
      (fun s1 =>
         let a1 := getAttr s1 attribute in
         athen (callOut (RunAttributeChangeSteps element (_localName a1)
                           (Some (_value a1)) (Some value) (_namespace a1)))
           (updAttr attribute (withValue value)) s1) s.

(** [infra.list.append], [infra.list.remove] and [infra.list.replace] (not
    among the sources) put an item at the end of a list, take every occurrence
    of an item out of it, and put an item in the place of another. *)
Definition append (attribute element : nat) : AM unit :=
  fun s =>
    let a := getAttr s attribute in
    athen (callOut (QueueAttributeMutationRecord element (_localName a) (_namespace a) None))
      (athen (callOut (RunAttributeChangeSteps element (_localName a) None
                         (Some (_value a)) (_namespace a)))
         (athen (updList element (fun l => l ++ [attribute]))
            (updAttr attribute (withElement (Some element))))) s.

Definition remove (attribute element : nat) : AM unit :=
  fun s =>
    let a := getAttr s attribute in
    athen (callOut (QueueAttributeMutationRecord element (_localName a) (_namespace a)
                      (Some (_value a))))
      (athen (callOut (RunAttributeChangeSteps element (_localName a)
                         (Some (_value a)) None (_namespace a)))
         (athen (updList element (List.filter (fun x => negb (x =? attribute))))
            (updAttr attribute (withElement None)))) s.

Definition replace (oldAttr newAttr element : nat) : AM unit :=
  fun s =>
    let o := getAttr s oldAttr in
    let n := getAttr s newAttr in
    athen (callOut (QueueAttributeMutationRecord element (_localName o) (_namespace o)
                      (Some (_value o))))
      (athen (callOut (RunAttributeChangeSteps element (_localName o)
                         (Some (_value o)) (Some (_value n)) (_namespace o)))
         (athen (updList element
                   (List.map (fun x => if x =? oldAttr then newAttr else x)))
            (athen (updAttr oldAttr (withElement None))
               (updAttr newAttr (withElement (Some element)))))) s.

(** [namespace || null]: the empty string becomes null. *)
Definition orNull (namespace : string) : option string :=
  if String.eqb namespace EmptyString then None else Some namespace.

(** [attr._namespace || '']: null becomes the empty string. *)
Definition orEmpty (namespace : option string) : string :=
  match namespace with
  | Some x => x
  | None => EmptyString
  end.

Definition getAnAttributeByNamespaceAndLocalName (s : AttrState)
  (namespace localName : string) (element : nat) : option nat :=
  let ns := orNull namespace in
  List.find (fun attr =>
               optionString_eqb (_namespace (getAttr s attr)) ns
               && String.eqb (_localName (getAttr s attr)) localName)
    (_attributeList s element).

Definition getAnAttributeValue (s : AttrState) (element : nat) (localName : string)
  (namespace : string) : string :=
  match getAnAttributeByNamespaceAndLocalName s namespace localName element with
  | None => EmptyString
  | Some attr => _value (getAttr s attr)
  end.

Definition setAnAttribute (attr element : nat) : AM (option nat) :=
  fun s =>
    if negb (option_nat_eqb (_element (getAttr s attr)) None)
       && negb (option_nat_eqb (_element (getAttr s attr)) (Some element))
    then (s, Throw InUseAttributeError)
    else
      let oldAttr :=
        getAnAttributeByNamespaceAndLocalName s
          (orEmpty (_namespace (getAttr s attr))) (_localName (getAttr s attr))
          element in
      if option_nat_eqb oldAttr (Some attr) then (s, Return (Some attr))
      else
        athen (match oldAttr with
               | Some o => replace o attr element
               | None => append attr element
               end)
          (aret oldAttr) s.

End ElementAlg.

(** ** Adjacent insertion *)

Module Adjacent.

(** [toLowerCase] on one character of the ASCII range: [A]..[Z] go to
    [a]..[z].  Characters outside ASCII are kept; none of them lowers to a
    letter of the four position words. *)
Definition lowerAscii (c : ascii) : ascii :=
  let n := nat_of_ascii c in
  if (65 <=? n) && (n <=? 90) then ascii_of_nat (n + 32) else c.

Fixpoint toLowerCase (s : string) : string :=
  match s with
  | EmptyString => EmptyString
  | String c s' => String (lowerAscii c) (toLowerCase s')
  end.

(** [insertAdjacent]: the node returned by the pre-insertion, or null. *)
Definition insertAdjacent (element : nat) (where_ : string) (node : nat)
  : M (option nat) :=
  st <- getStore ;;
  let w := toLowerCase where_ in
  if String.eqb w "beforebegin" then
    match parentOf st element with
    | None => ret None
    | Some parent => r <- Mutation.preInsert node parent (Some element) ;; ret (Some r)
    end
  else if String.eqb w "afterbegin" then
    r <- Mutation.preInsert node element (Links.firstChild st element) ;; ret (Some r)
  else if String.eqb w "beforeend" then
    r <- Mutation.preInsert node element None ;; ret (Some r)
  else if String.eqb w "afterend" then
    match parentOf st element with
    | None => ret None
    | Some parent =>
        r <- Mutation.preInsert node parent (Links.nextSibling st element) ;; ret (Some r)
    end
  else raise SyntaxError.

End Adjacent.

(** ** Tree walker *)

Inductive FilterResult : Type := Accept | Reject | Skip.

Definition FilterResult_eqb (a b : FilterResult) : bool :=
  match a, b with
  | Accept, Accept | Reject, Reject | Skip, Skip => true
  | _, _ => false
  end.

(** A walker object.  [filter] stands for [this.dom.traversal.filter(walker,
    node)], the result of filtering a node within the walker. *)
Record TreeWalker : Type := mkWalker {
  _root : nat;
  _current : nat;
  filter : nat -> FilterResult
}.

Definition setCurrent (node : nat) (w : TreeWalker) : TreeWalker :=
  mkWalker (_root w) node (filter w).

Module TreeWalkerAlg.

Definition _firstChild := Links.firstChild.
Definition _lastChild := Links.lastChild.
Definition _nextSibling := Links.nextSibling.
Definition _previousSibling := Links.previousSibling.

(** What the inner loop of [traverseSiblings] (step 3.2) ends with: an
    accepted node, or no sibling left, with [node] as it then is. *)
Inductive Scan : Type :=
| Accepted (node : nat)
| Exhausted (node : nat).

(** The inner [while (sibling)] loop, entered with [node] and [sibling]. *)
Fixpoint scanSiblings (fuel : nat) (st : Store) (walker : TreeWalker) (next : bool)
  (node : nat) (sibling : option nat) : Outcome Scan :=
  match sibling with
  | None => Return (Exhausted node)
  | Some s =>
      match fuel with
      | 0 => OutOfFuel
      | S fuel' =>
          let node := s in
          let result := filter walker node in
          if FilterResult_eqb result Accept then Return (Accepted node)
          else
            let sibling := if next then _firstChild st node else _lastChild st node in
            let sibling :=
              if FilterResult_eqb result Reject
                 || match sibling with None => true | Some _ => false end
              then (if next then _nextSibling st node else _previousSibling st node)
              else sibling in
            scanSiblings fuel' st walker next node sibling
      end
  end.

(** The outer [while (true)] loop, entered with [node]: the walker after the
    call and the node returned, or null. *)
Fixpoint siblingLoop (fuel : nat) (st : Store) (walker : TreeWalker) (next : bool)
  (node : nat) : TreeWalker * Outcome (option nat) :=
  match fuel with
  | 0 => (walker, OutOfFuel)
  | S fuel' =>
      let sibling := if next then _nextSibling st node else _previousSibling st node in
      match scanSiblings fuel' st walker next node sibling with
      | Return (Accepted node) => (setCurrent node walker, Return (Some node))
      | Return (Exhausted node) =>
          match parentOf st node with
          | None => (walker, Return None)
          | Some node =>
              if node =? _root walker then (walker, Return None)
              else if FilterResult_eqb (filter walker node) Accept
              then (walker, Return None)
              else siblingLoop fuel' st walker next node
          end
      | Throw e => (walker, Throw e)
      | Fault => (walker, Fault)
      | OutOfFuel => (walker, OutOfFuel)
      end
  end.

Definition traverseSiblings (fuel : nat) (st : Store) (walker : TreeWalker)
  (next : bool) : TreeWalker * Outcome (option nat) :=
  let node := _current walker in
  if node =? _root walker then (walker, Return None)
  else siblingLoop fuel st walker next node.

End TreeWalkerAlg.

(** ** Stated properties and sample data *)

(** The ends of the range are in order: the start is not after the end. *)
Definition ordered (st : Store) (r : Range) : Prop :=
  BoundaryPointAlg.position st (_start r) (_end r) = Equal
  \/ BoundaryPointAlg.position st (_start r) (_end r) = Before.


(** A small document used where a property is shown on a concrete input:
    [<r><a>ab</a><b><e1/><e2/></b></r>], with the references
    0 = r, 1 = a, 2 = the text "ab", 3 = b, 4 = e1, 5 = e2. *)
Definition sampleTree : Store :=
  [ mkNode Element None [1; 3] EmptyString;
    mkNode Element (Some 0) [2] EmptyString;
    mkNode Text (Some 1) [] "ab";
    mkNode Element (Some 0) [4; 5] EmptyString;
    mkNode Element (Some 3) [] EmptyString;
    mkNode Element (Some 3) [] EmptyString ].

(** A document (reference 0) with a doctype (1) and the element r (2), which
    has the one child a (3). *)
Definition sampleDocument : Store :=
  [ mkNode Document None [1; 2] EmptyString;
    mkNode DocumentType (Some 0) [] EmptyString;
    mkNode Element (Some 0) [3] EmptyString;
    mkNode Element (Some 2) [] EmptyString ].

(** An element (reference 0) with the one attribute [id="old"]
    (attribute reference 0) and an empty call log. *)
Definition sampleAttrState : AttrState :=
  mkAttrState [mkAttr "id" None None "old" (Some 0)] [[0]] [].

(** A walker over the sample document, rooted at r and standing on the text
    node, whose filter accepts every node. *)
Definition sampleWalker : TreeWalker := mkWalker 0 2 (fun _ => Accept).

(** A walker over the sample document, rooted at r and standing on the text
    node, whose filter skips a and accepts every other node. *)
Definition climbingWalker : TreeWalker :=
  mkWalker 0 2 (fun n => if n =? 1 then Skip else Accept).

(** Follows the words of the spec (4.4, [stepToSibling]), not the code: the
    sibling search entered at the level of [node], with its result.  The scan
    of the siblings of [node] and of their descendants is the one of the
    source.  When the scan accepts a node, that node is the result.  When it
    finds none, ending on [lastNode], the walk climbs to the parent of
    [lastNode]: the result is null if there is no parent, if the parent is the
    root, and if the filter accepts the parent; otherwise the sibling search
    is repeated at the level of the parent. *)
Inductive stepToSibling (st : Store) (walker : TreeWalker) (next : bool)
  : nat -> option nat -> Prop :=
| sts_accepted (node fuel found : nat) :
    TreeWalkerAlg.scanSiblings fuel st walker next node
      (if next then TreeWalkerAlg._nextSibling st node
       else TreeWalkerAlg._previousSibling st node)
    = Return (TreeWalkerAlg.Accepted found) ->
    stepToSibling st walker next node (Some found)
| sts_no_parent (node fuel lastNode : nat) :
    TreeWalkerAlg.scanSiblings fuel st walker next node
      (if next then TreeWalkerAlg._nextSibling st node
       else TreeWalkerAlg._previousSibling st node)
    = Return (TreeWalkerAlg.Exhausted lastNode) ->
    parentOf st lastNode = None ->
    stepToSibling st walker next node None
| sts_parent_is_root (node fuel lastNode : nat) :
    TreeWalkerAlg.scanSiblings fuel st walker next node
      (if next then TreeWalkerAlg._nextSibling st node
       else TreeWalkerAlg._previousSibling st node)
    = Return (TreeWalkerAlg.Exhausted lastNode) ->
    parentOf st lastNode = Some (_root walker) ->
    stepToSibling st walker next node None
| sts_parent_accepted (node fuel lastNode parent : nat) :
    TreeWalkerAlg.scanSiblings fuel st walker next node
      (if next then TreeWalkerAlg._nextSibling st node
       else TreeWalkerAlg._previousSibling st node)
    = Return (TreeWalkerAlg.Exhausted lastNode) ->
    parentOf st lastNode = Some parent ->
    parent <> _root walker ->
    filter walker parent = Accept ->
    stepToSibling st walker next node None
| sts_repeat (node fuel lastNode parent : nat) (result : option nat) :
    TreeWalkerAlg.scanSiblings fuel st walker next node
      (if next then TreeWalkerAlg._nextSibling st node
       else TreeWalkerAlg._previousSibling st node)
    = Return (TreeWalkerAlg.Exhausted lastNode) ->
    parentOf st lastNode = Some parent ->
    parent <> _root walker ->
    filter walker parent <> Accept ->
    stepToSibling st walker next parent result ->
    stepToSibling st walker next node result.

(** The walker after a step that gives [result]: it stands on the node
    returned, and stays where it was when null is returned. *)
Definition walkerAfter (result : option nat) (walker : TreeWalker) : TreeWalker :=
  match result with
  | Some node => setCurrent node walker
  | None => walker
  end.

(** The nodes of [st] are as they were in [st0]: what a comparison of tree
    snapshots before and after a call looks at (links and data of every node
    that existed before). *)
Definition sourceUnchanged (st0 st : Store) : Prop :=
  firstn (length st0) st = st0.

(** ** Well-formed stores *)

(** The node graph is a forest: parent links and child lists agree, a child
    occurs once, the parent links have no cycle ([rank] falls along them),
    character data and doctypes have no children, and fragments and documents
    have no parent.  Every reference that occurs is inside the store. *)
Record wf (st : Store) : Prop := mkWf {
  wf_parent_child : forall n p, parentOf st n = Some p -> In n (childrenOf st p);
  wf_child_parent : forall p c, In c (childrenOf st p) -> parentOf st c = Some p;
  wf_nodup : forall p, List.NoDup (childrenOf st p);
  wf_rank : exists rank : nat -> nat,
      forall n p, parentOf st n = Some p -> rank p < rank n;
  wf_leaf : forall n,
      Guard.isCharacterDataNode (kindOf st n) = true
      \/ Guard.isDocumentTypeNode (kindOf st n) = true ->
      childrenOf st n = [];
  wf_top : forall n,
      Guard.isDocumentFragmentNode (kindOf st n) = true
      \/ kindOf st n = Document ->
      parentOf st n = None
}.


(** ** The range list of a document *)

Module RangeLists.

(** [Array.prototype.indexOf]: the place of the first item that is [===] the
    one looked for; [None] stands for the [-1] of a list without it. *)
Definition indexOf (rangeList : list nat) (range : nat) : option nat :=
  Tree.findIndex range rangeList.

(** [splice(index, 1)]: the item at [index] is taken out. *)
Definition splice1 (index : nat) (rangeList : list nat) : list nat :=
  firstn index rangeList ++ skipn (S index) rangeList.

(** [removeRange]: [doc._rangeList] after the call; ranges are objects and
    are given by reference. *)
Definition removeRange (range : nat) (_rangeList : list nat) : list nat :=
  match indexOf _rangeList range with
  | Some index => splice1 index _rangeList
  | None => _rangeList
  end.

End RangeLists.

(** ** Attributes: lookup by name, setting a value, removal *)

Module ElementAttrs.
Import ElementAlg.

(** Modelled from the spec: the HTML namespace, [infra.namespace.HTML]; the
    infra library is not among the sources. *)
Definition HTML : string := "http://www.w3.org/1999/xhtml".

Definition withNamespace (ns : option string) (x : Attr) : Attr :=
  mkAttr (_localName x) ns (_namespacePrefix x) (_value x) (_element x).

Definition withNamespacePrefix (p : option string) (x : Attr) : Attr :=
  mkAttr (_localName x) (_namespace x) p (_value x) (_element x).

(** [getAnAttributeByName].  What the method reads of the element besides its
    attribute list is given with the call: the element's [_namespace] and the
    [_type] of its node document.  [_qualifiedName] is the qualified name of
    an attribute object, a field these methods read and never write.
    [toLowerCase] is [String.prototype.toLowerCase], a built-in of the
    language that lowers every character with a lower-case form, not the
    ASCII letters only; it is given with the call too. *)
Definition getAnAttributeByName (toLowerCase : string -> string)
  (_qualifiedName : nat -> string) (s : AttrState)
  (elementNamespace : option string) (documentType : string)
  (qualifiedName : string) (element : nat) : option nat :=
  let qualifiedName :=
    if optionString_eqb elementNamespace (Some HTML) && String.eqb documentType "html"
    then toLowerCase qualifiedName else qualifiedName in
  List.find (fun attr => String.eqb (_qualifiedName attr) qualifiedName)
    (_attributeList s element).

(** Modelled from the spec: [create.attr(document, localName)] is not among
    the sources; it gives a new attribute object with that local name, without
    namespace, prefix and element, and with the empty value.  The new object
    is put at the end of the attribute objects. *)
Definition createAttr (localName : string) : AM nat :=
  fun s => (mkAttrState (attrs s ++ [mkAttr localName None None EmptyString None])
              (attributeLists s) (log s),
            Return (length (attrs s))).

Definition setAnAttributeValue (element : nat) (localName value : string)
  (prefix namespace : option string) : AM unit :=
  fun s =>
    match getAnAttributeByNamespaceAndLocalName s (orEmpty namespace) localName element with
    | None =>
        abind (createAttr localName) (fun newAttr =>
          athen (updAttr newAttr (withNamespace namespace))
            (athen (updAttr newAttr (withNamespacePrefix prefix))
               (athen (updAttr newAttr (withValue value))
                  (append newAttr element)))) s
    | Some attribute => change attribute element value s
    end.

Definition removeAnAttributeByName (toLowerCase : string -> string)
  (_qualifiedName : nat -> string)
  (elementNamespace : option string) (documentType : string)
  (qualifiedName : string) (element : nat) : AM (option nat) :=
  fun s =>
    match getAnAttributeByName toLowerCase _qualifiedName s elementNamespace
            documentType qualifiedName element with
    | Some attr => athen (remove attr element) (aret (Some attr)) s
    | None => (s, Return None)
    end.

Definition removeAnAttributeByNamespaceAndLocalName (namespace localName : string)
  (element : nat) : AM (option nat) :=
  fun s =>
    match getAnAttributeByNamespaceAndLocalName s namespace localName element with
    | Some attr => athen (remove attr element) (aret (Some attr)) s
    | None => (s, Return None)
    end.

End ElementAttrs.

(** ** Tree walker: the children *)

Module TreeWalkerChildren.
Import TreeWalkerAlg.

(** The inner [while (node)] loop of [traverseChildren] (step 3.4), entered
    with [node]: the sibling the loop breaks with, or null when the method
    returns null from inside the loop.  [node] is never null there. *)
Fixpoint climb (fuel : nat) (st : Store) (walker : TreeWalker) (first : bool)
  (node : nat) : Outcome (option nat) :=
  match (if first then _nextSibling st node else _previousSibling st node) with
  | Some sibling => Return (Some sibling)
  | None =>
      match parentOf st node with
      | None => Return None
      | Some parent =>
          if (parent =? _root walker) || (parent =? _current walker) then Return None
          else match fuel with
               | 0 => OutOfFuel
               | S fuel' => climb fuel' st walker first parent
               end
      end
  end.

(** The outer [while (node !== null)] loop, entered with [node]: the walker
    after the call and the node returned, or null. *)
Fixpoint childLoop (fuel : nat) (st : Store) (walker : TreeWalker) (first : bool)
  (node : option nat) : TreeWalker * Outcome (option nat) :=
  match node with
  | None => (walker, Return None)
  | Some node =>
      match fuel with
      | 0 => (walker, OutOfFuel)
      | S fuel' =>
          let result := filter walker node in
          if FilterResult_eqb result Accept
          then (setCurrent node walker, Return (Some node))
          else
            let child := if first then _firstChild st node else _lastChild st node in
            match (if FilterResult_eqb result Skip then child else None) with
            | Some child => childLoop fuel' st walker first (Some child)
            | None =>
                match climb fuel' st walker first node with
                | Return (Some sibling) => childLoop fuel' st walker first (Some sibling)
                | Return None => (walker, Return None)
                | Throw e => (walker, Throw e)
                | Fault => (walker, Fault)
                | OutOfFuel => (walker, OutOfFuel)
                end
            end
      end
  end.

Definition traverseChildren (fuel : nat) (st : Store) (walker : TreeWalker)
  (first : bool) : TreeWalker * Outcome (option nat) :=
  let node := if first then _firstChild st (_current walker)
              else _lastChild st (_current walker) in
  childLoop fuel st walker first node.

End TreeWalkerChildren.

(** ** The order of a walk *)

(** The siblings a walk has still before it at [n]: those behind [n] when the
    walk goes forward (first child, next sibling), those in front of it when
    the walk goes backward (last child, previous sibling). *)
Definition siblingsAhead (st : Store) (forward : bool) (n : nat) : nat :=
  match parentOf st n with
  | None => 0
  | Some p =>
      if forward then length (childrenOf st p) - S (Tree.index st n)
      else Tree.index st n
  end.

(** The place of [n] in a walk: the siblings ahead of each inclusive ancestor,
    topmost first. *)
Definition walkKey (st : Store) (forward : bool) (n : nat) : list nat :=
  List.map (siblingsAhead st forward) (Tree.chain st n).

(** The number written with the digits [l] to the base [W]. *)
Fixpoint digitsValue (W : nat) (l : list nat) : nat :=
  match l with
  | [] => 0
  | d :: l' => d * W ^ length l' + digitsValue W l'
  end.

(** What a walk has ahead of it, as a number that every step of the walk
    makes smaller: the key of [n], filled up to a fixed number of digits with
    [pad], to the base of one more than the size of the store.  With [pad] the
    size of the store this is the measure when the walk comes to [n]; with
    [pad] zero it is the measure when the walk has done with [n] and what is
    below it. *)
Definition walkAhead (st : Store) (forward : bool) (pad n : nat) : nat :=
  digitsValue (S (length st))
    (walkKey st forward n
     ++ repeat pad (S (length st) - length (walkKey st forward n))).

(** ** Further stated properties *)

(** The ends of the range are in one tree and the offsets are within the
    lengths of the nodes. *)
Definition soundRange (st : Store) (r : Range) : Prop :=
  Tree.rootNode st (_startNode r) = Tree.rootNode st (_endNode r)
  /\ _startOffset r <= Tree.nodeLength st (_startNode r)
  /\ _endOffset r <= Tree.nodeLength st (_endNode r).

(** Membership in attribute lists and the back-references agree: an attribute
    object is in the attribute list of an element exactly when its [_element]
    is that element. *)
Definition linked (s : AttrState) : Prop :=
  forall a e, a < length (attrs s) ->
    (In a (_attributeList s e) <-> _element (getAttr s a) = Some e).

(** The name an attribute is looked up by: namespace and local name. *)
Definition nameOf (s : AttrState) (a : nat) : option string * string :=
  (_namespace (getAttr s a), _localName (getAttr s a)).

(** The attribute list of [e] is unique by (namespace, local name), and no
    attribute in it has the empty string as namespace. *)
Definition uniqueNames (s : AttrState) (e : nat) : Prop :=
  List.NoDup (List.map (nameOf s) (_attributeList s e))
  /\ forall a, In a (_attributeList s e) -> _namespace (getAttr s a) <> Some EmptyString.

(** The test of the lookup loop of [getAnAttributeByNamespaceAndLocalName] on
    the attribute [x]. *)
Definition named (s : AttrState) (ns : option string) (ln : string) (x : nat) : bool :=
  optionString_eqb (_namespace (getAttr s x)) ns && String.eqb (_localName (getAttr s x)) ln.

(** The store after the steps 1 to 4.3 of [extract] and [cloneTheContents] on
    a range inside one character data node [n]: a new fragment, a clone of
    [n] with the data [mid], and the clone appended to the fragment. *)
Definition withTextClone (st : Store) (n : nat) (mid : string) : Store :=
  let f := length st in
  let c := S (length st) in
  Mutation.updNode c (Mutation.setParent (Some f))
    (Mutation.updNode f (Mutation.setChildren [c])
       (Mutation.updNode c (Mutation.setData mid)
          ((st ++ [mkNode DocumentFragment None [] EmptyString])
             ++ [mkNode (kindOf st n) None [] (dataOf st n)]))).

(** A walker over the sample document, rooted and standing at r, that skips
    a and accepts every other node. *)
Definition skipWalker : TreeWalker :=
  mkWalker 0 0 (fun n => if n =? 1 then Skip else Accept).

(** An element (reference 0) with the attributes [id="x"] and [class="y"]
    (attribute references 0 and 1), and a loose attribute [id="z"]
    (reference 2). *)
Definition twoAttrState : AttrState :=
  mkAttrState [ mkAttr "id" None None "x" (Some 0);
                mkAttr "class" None None "y" (Some 0);
                mkAttr "id" None None "z" None ]
              [[0; 1]] [].

(** An element (reference 0) without attributes, and no attribute object. *)
Definition bareElementState : AttrState := mkAttrState [] [[]] [].

(** The state after [setAnAttributeValue(element, "id", "x", null, '')] on
    that element: its list holds the new attribute [id] (reference 0), whose
    namespace is the empty string, as [newAttr._namespace = namespace] has
    stored it. *)
Definition emptyNamespaceState : AttrState :=
  fst (ElementAttrs.setAnAttributeValue 0 "id" "x" None (Some EmptyString)
         bareElementState).
(** * Properties *)

(** ** Boundary points *)

Section PositionFacts.
Import BoundaryPointAlg.

Lemma ofCompare_flip (x y : nat) : ofCompare (y ?= x) = flip (ofCompare (x ?= y)).
Proof.
  rewrite (Nat.compare_antisym x y).
  destruct (x ?= y); reflexivity.
Qed.

Lemma diverge_swap (ca cb : list nat) :
  diverge cb ca = (snd (diverge ca cb), fst (diverge ca cb)).
Proof.
  revert cb; induction ca as [|a ca IH]; intros [|b cb]; simpl; try reflexivity.
  rewrite (Nat.eqb_sym b a).
  destruct (a =? b); [apply IH | reflexivity].
Qed.

(** The relation read from the other side gives the mirrored answer. *)
Lemma position_flip (st : Store) (a b : BoundaryPoint) :
  position st b a = flip (position st a b).
Proof.
  destruct a as [na oa], b as [nb ob]; unfold position.
  rewrite (Nat.eqb_sym nb na).
  destruct (na =? nb); [apply ofCompare_flip|].
  rewrite diverge_swap.
  destruct (diverge (Tree.chain st na) (Tree.chain st nb)) as [[|x xs] [|y ys]]; simpl.
  - reflexivity.
  - destruct (oa <=? Tree.index st y); reflexivity.
  - destruct (ob <=? Tree.index st x); reflexivity.
  - apply ofCompare_flip.
Qed.

Lemma position_same_node (st : Store) (n oa ob : nat) :
  position st (n, oa) (n, ob) = ofCompare (oa ?= ob).
Proof. unfold position; rewrite Nat.eqb_refl; reflexivity. Qed.

Lemma position_refl (st : Store) (p : BoundaryPoint) : position st p p = Equal.
Proof.
  destruct p as [n o]; rewrite position_same_node, Nat.compare_refl; reflexivity.
Qed.

End PositionFacts.

(** ** Ranges: the ends *)

Section SetEnds.
Import BoundaryPointAlg RangeAlg.

Lemma BoundaryPosition_eqb_eq (a b : BoundaryPosition) :
  BoundaryPosition_eqb a b = true <-> a = b.
Proof. destruct a, b; simpl; split; congruence. Qed.

Lemma positionCall_Return (st : Store) (a b : BoundaryPoint) (pos : BoundaryPosition) :
  positionCall st a b = Return pos ->
  Tree.rootNode st (fst a) = Tree.rootNode st (fst b) /\ pos = position st a b.
Proof.
  unfold positionCall.
  destruct (Tree.rootNode st (fst a) =? Tree.rootNode st (fst b)) eqn:E; [|discriminate].
  apply Nat.eqb_eq in E; intros [= <-]; auto.
Qed.

Lemma positionCall_same_tree (st : Store) (a b : BoundaryPoint) :
  Tree.rootNode st (fst a) = Tree.rootNode st (fst b) ->
  positionCall st a b = Return (position st a b).
Proof. intros H; unfold positionCall; rewrite H, Nat.eqb_refl; reflexivity. Qed.

Lemma positionCall_two_trees (st : Store) (a b : BoundaryPoint) :
  Tree.rootNode st (fst a) <> Tree.rootNode st (fst b) ->
  positionCall st a b = Fault.
Proof. intros H; apply Nat.eqb_neq in H; unfold positionCall; rewrite H; reflexivity. Qed.



Lemma setTheStart_ordered (st : Store) (r r' : Range) (n k : nat) :
  setTheStart st r n k = (r', Return tt) -> ordered st r'.
Proof.
  unfold setTheStart.
  destruct (Guard.isDocumentTypeNodeOfNumber _); [congruence|].
  destruct (_ <? _); [congruence|].
  destruct (positionCall st (n, k) (_end r)) as [pos| | |] eqn:Hc; try congruence.
  apply positionCall_Return in Hc as [_ ->].
  destruct (BoundaryPosition_eqb (position st (n, k) (_end r)) After) eqn:Hp; simpl.
  - intros [= <-]; left; apply position_refl.
  - destruct (root st r =? Tree.rootNode st n); simpl; intros [= <-].
    + unfold ordered, set_start; cbn [_start _end].
      destruct (position st (n, k) (_end r)); simpl in Hp; auto; discriminate Hp.
    + left; apply position_refl.
Qed.

Lemma setTheEnd_ordered (st : Store) (r r' : Range) (n k : nat) :
  setTheEnd st r n k = (r', Return tt) -> ordered st r'.
Proof.
  unfold setTheEnd.
  destruct (Guard.isDocumentTypeNodeOfNumber _); [congruence|].
  destruct (_ <? _); [congruence|].
  destruct (positionCall st (n, k) (_start r)) as [pos| | |] eqn:Hc; try congruence.
  apply positionCall_Return in Hc as [_ ->].
  destruct (BoundaryPosition_eqb (position st (n, k) (_start r)) Before) eqn:Hp; simpl.
  - intros [= <-]; left; apply position_refl.
  - destruct (root st r =? Tree.rootNode st n); simpl; intros [= <-].
    + unfold ordered, set_end; cbn [_start _end].
      rewrite (position_flip st (n, k) (_start r)).
      destruct (position st (n, k) (_start r)); simpl in *; auto; discriminate Hp.
    + left; apply position_refl.
Qed.

Lemma select_ordered (st : Store) (r r' : Range) (node : nat) :
  select st node r = (r', Return tt) -> ordered st r'.
Proof.
  unfold select.
  destruct (parentOf st node) as [p|]; [|congruence].
  intros [= <-]; right; cbn [_start _end].
  rewrite position_same_node.
  replace (Tree.index st node ?= Tree.index st node + 1) with Lt; [reflexivity|].
  symmetry; apply Nat.compare_lt_iff; lia.
Qed.

End SetEnds.

(** ** Ranges: extraction *)

Section ExtractFacts.
Import BoundaryPointAlg RangeAlg.

Lemma bind_Return {A B : Type} (m : M A) (k : A -> M B) (st st' : Store) (b : B) :
  bind m k st = (st', Return b) ->
  exists a st1, m st = (st1, Return a) /\ k a st1 = (st', Return b).
Proof.
  unfold bind; destruct (m st) as [st1 [a|e| |]]; try discriminate.
  intros H; exists a, st1; auto.
Qed.

Lemma ret_Return {A : Type} (a b : A) (st st' : Store) :
  ret a st = (st', Return b) -> st' = st /\ b = a.
Proof. unfold ret; intros [= -> ->]; auto. Qed.

(** After a normal return of [extract] the range is either as it was, and then
    it was collapsed or had both ends in one node, or its two ends have been
    set to one pair. *)
Lemma extract_range (fuel : nat) (r : Range) (x : RangeAfter) (st st' : Store)
  (f : nat) :
  extract fuel r st = (st', Return (f, x)) ->
  (x = AtNodes r /\ _startNode r = _endNode r) \/ exists p, x = bothEndsAt p.
Proof.
  destruct fuel as [|fuel]; [discriminate|].
  cbn [extract]; intros H.
  apply bind_Return in H as (fragment & s1 & _ & H).
  destruct (collapsed r) eqn:Hc.
  { apply ret_Return in H as [_ [= _ ->]]; left; split; [reflexivity|].
    unfold collapsed in Hc; apply andb_true_iff in Hc as [Hn _].
    apply Nat.eqb_eq in Hn; exact Hn. }
  apply bind_Return in H as (s & s2 & _ & H).
  destruct ((_startNode r =? _endNode r) && _) eqn:Hsame.
  { apply andb_true_iff in Hsame as [Hn _]; apply Nat.eqb_eq in Hn.
    repeat (apply bind_Return in H as (? & ? & _ & H)).
    apply ret_Return in H as [_ [= _ ->]]; left; auto. }
  repeat (apply bind_Return in H as (? & ? & _ & H)).
  apply ret_Return in H as [_ [= _ ->]]; right; eexists; reflexivity.
Qed.

(** When [extract] leaves the range with its ends at nodes, they are in
    order. *)
Lemma extract_ordered (fuel : nat) (r r' : Range) (st st' : Store) (f : nat) :
  ordered st r ->
  extract fuel r st = (st', Return (f, AtNodes r')) -> ordered st' r'.
Proof.
  intros Hord H; apply extract_range in H as [[[= ->] Hn] | [[[p|] o] He]].
  - unfold ordered in *.
    destruct r as [[sn so] [en eo]]; unfold _startNode, _endNode in Hn; simpl in Hn.
    subst en; cbn [_start _end] in *.
    rewrite position_same_node in *; exact Hord.
  - injection He as ->; left; apply position_refl.
  - discriminate He.
Qed.

End ExtractFacts.

(** ** Ranges: setting an end *)

Section SetEndsSpec.
Import BoundaryPointAlg RangeAlg.

(** C5 does not hold of the code.  [setTheStart] and [setTheEnd] give the
    doctype guard the number [node.nodeType], so that the check of step 1 never
    fires: for every node [n], a doctype or not, and every offset [k], the call
    never throws [InvalidNodeTypeError]; it throws [IndexSizeError] when [k] is
    above the length of [n] and is otherwise as follows.  [position] is called
    first, with [(n, k)] and the other end of the range: when these are in two
    trees the call ends with the error of that call and the range is as it
    was, and nothing is snapped.  When they are in one tree the call returns,
    the moved end is [(n, k)], and the other end is [(n, k)] too exactly when
    [(n, k)] is after the end, or the root of the start node of the range is
    not the root of [n] (for [setTheStart]), or when [(n, k)] is before the
    start (for [setTheEnd], where the two roots are then equal). *)
Theorem setTheStart_setTheEnd_accept_doctype (st : Store) (r : Range) (n k : nat) :
  (forall r', setTheStart st r n k <> (r', Throw InvalidNodeTypeError))
  /\ (forall r', setTheEnd st r n k <> (r', Throw InvalidNodeTypeError))
  /\ (Tree.nodeLength st n < k ->
      setTheStart st r n k = (r, Throw IndexSizeError)
      /\ setTheEnd st r n k = (r, Throw IndexSizeError))
  /\ (k <= Tree.nodeLength st n ->
      (Tree.rootNode st n = Tree.rootNode st (_endNode r) ->
       setTheStart st r n k
       = (mkRange (n, k)
            (if BoundaryPosition_eqb (position st (n, k) (_end r)) After
                || negb (Tree.rootNode st (_startNode r) =? Tree.rootNode st n)
             then (n, k) else _end r),
          Return tt))
      /\ (Tree.rootNode st n <> Tree.rootNode st (_endNode r) ->
          setTheStart st r n k = (r, Fault))
      /\ (Tree.rootNode st n = Tree.rootNode st (_startNode r) ->
          setTheEnd st r n k
          = (mkRange
               (if BoundaryPosition_eqb (position st (n, k) (_start r)) Before
                then (n, k) else _start r)
               (n, k),
             Return tt))
      /\ (Tree.rootNode st n <> Tree.rootNode st (_startNode r) ->
          setTheEnd st r n k = (r, Fault))).
Proof.
  unfold setTheStart, setTheEnd, Guard.isDocumentTypeNodeOfNumber.
  split; [|split; [|split]].
  - intros r'; unfold positionCall.
    destruct (Tree.nodeLength st n <? k); [congruence|].
    destruct (Tree.rootNode st (fst (n, k)) =? _); cbv iota beta; congruence.
  - intros r'; unfold positionCall.
    destruct (Tree.nodeLength st n <? k); [congruence|].
    destruct (Tree.rootNode st (fst (n, k)) =? _); cbv iota beta; congruence.
  - intros Hk; apply Nat.ltb_lt in Hk; rewrite Hk; split; reflexivity.
  - intros Hk.
    assert (Hlt : (Tree.nodeLength st n <? k) = false) by (apply Nat.ltb_ge; exact Hk).
    rewrite Hlt.
    split; [|split; [|split]].
    + intros Hr; rewrite positionCall_same_tree by exact Hr.
      unfold root.
      destruct (BoundaryPosition_eqb (position st (n, k) (_end r)) After
                || negb (Tree.rootNode st (_startNode r) =? Tree.rootNode st n));
        reflexivity.
    + intros Hr; rewrite positionCall_two_trees by exact Hr; reflexivity.
    + intros Hr; rewrite positionCall_same_tree by exact Hr.
      unfold root; rewrite <- Hr, Nat.eqb_refl; cbn [negb]; rewrite orb_false_r.
      destruct (BoundaryPosition_eqb (position st (n, k) (_start r)) Before);
        reflexivity.
    + intros Hr; rewrite positionCall_two_trees by exact Hr; reflexivity.
Qed.

(** C5 on the document with a doctype: the doctype is taken as the start of
    the range [(r, 0)-(r, 1)], which keeps its end, and as the end of that
    range: [(doctype, 0)] is before the start, and both ends go there. *)
Lemma setTheStart_setTheEnd_accept_doctype_witness :
  kindOf sampleDocument 1 = DocumentType
  /\ setTheStart sampleDocument (mkRange (2, 0) (2, 1)) 1 0
     = (mkRange (1, 0) (2, 1), Return tt)
  /\ setTheEnd sampleDocument (mkRange (2, 0) (2, 1)) 1 0
     = (mkRange (1, 0) (1, 0), Return tt).
Proof.
  split; [reflexivity|].
  pose proof (setTheStart_setTheEnd_accept_doctype sampleDocument
                (mkRange (2, 0) (2, 1)) 1 0)
    as (_ & _ & _ & H).
  destruct (H (Nat.le_0_l _)) as (Hs & _ & He & _).
  split; [exact (Hs eq_refl) | exact (He eq_refl)].
Defined.




End SetEndsSpec.

(** ** Attributes *)

Section AttributeFacts.
Import ElementAlg.

Lemma getAttr_updated (l : list Attr) (lists : list (list nat)) (lg : list Entry)
  (a x : nat) (v : Attr) :
  getAttr (mkAttrState (<[a := v]> l) lists lg) x
  = if (x =? a) && (a <? length l) then v else getAttr (mkAttrState l lists lg) x.
Proof.
  unfold getAttr; cbn [attrs].
  destruct (Nat.eqb_spec x a) as [-> | Hne]; cbn [andb].
  - destruct (Nat.ltb_spec a (length l)) as [Hlt | Hge].
    + rewrite list_lookup_insert_eq by exact Hlt; reflexivity.
    + rewrite list_insert_ge by exact Hge; reflexivity.
  - rewrite list_lookup_insert_ne by congruence; reflexivity.
Qed.

(** C7.  [change] on an attribute object of the state returns normally.  It
    adds exactly two calls to the log, in this order: one
    [queueAttributeMutationRecord] for the element with the attribute's local
    name, namespace and, as old value, the value stored at entry, then
    [runAttributeChangeSteps] with that old value and the new value; at both
    calls the attribute objects are as at entry, so that the stored value is
    still the old one.  After the call the stored value of the attribute is
    the new value; its name, namespace, prefix and element, every other
    attribute object and the attribute lists are as before. *)
Theorem change_queues_then_runs_then_stores
  (s : AttrState) (attribute element : nat) (value : string) :
  attribute < length (attrs s) ->
  let s' := fst (change attribute element value s) in
  let a := getAttr s attribute in
  snd (change attribute element value s) = Return tt
  /\ log s'
     = log s
       ++ [mkEntry (QueueAttributeMutationRecord element (_localName a) (_namespace a)
                      (Some (_value a)))
             (attrs s);
           mkEntry (RunAttributeChangeSteps element (_localName a)
                      (Some (_value a)) (Some value) (_namespace a))
             (attrs s)]
  /\ _value (getAttr s' attribute) = value
  /\ _localName (getAttr s' attribute) = _localName a
  /\ _namespace (getAttr s' attribute) = _namespace a
  /\ _namespacePrefix (getAttr s' attribute) = _namespacePrefix a
  /\ _element (getAttr s' attribute) = _element a
  /\ (forall x, x <> attribute -> getAttr s' x = getAttr s x)
  /\ length (attrs s') = length (attrs s)
  /\ attributeLists s' = attributeLists s.
Proof.
  intros Hlt s' a; subst s' a.
  assert (E : change attribute element value s
              = (mkAttrState
                   (<[attribute := withValue value (getAttr s attribute)]> (attrs s))
                   (attributeLists s)
                   (log s ++
                    [mkEntry (QueueAttributeMutationRecord element
                                (_localName (getAttr s attribute))
                                (_namespace (getAttr s attribute))
                                (Some (_value (getAttr s attribute))))
                       (attrs s);
                     mkEntry (RunAttributeChangeSteps element
                                (_localName (getAttr s attribute))
                                (Some (_value (getAttr s attribute))) (Some value)
                                (_namespace (getAttr s attribute)))
                       (attrs s)]),
                 Return tt)).
  { unfold change, athen, abind, callOut, updAttr, getAttr; simpl.
    rewrite <- app_assoc; reflexivity. }
  rewrite E; cbn [fst snd log attributeLists attrs].
  apply Nat.ltb_lt in Hlt.
  split; [reflexivity|].
  split; [reflexivity|].
  rewrite !getAttr_updated, Nat.eqb_refl, Hlt; cbn [andb withValue _value _localName
    _namespace _namespacePrefix _element].
  repeat split.
  - intros x Hx; rewrite getAttr_updated.
    apply Nat.eqb_neq in Hx; rewrite Hx; cbn [andb].
    unfold getAttr; reflexivity.
  - apply length_insert.
Qed.

(** C7 on the sample element: [id] is changed from "old" to "new"; the one
    record queued has the old value "old" and is queued while the stored
    value is "old"; afterwards the stored value is "new". *)
Lemma change_queues_then_runs_then_stores_witness :
  log (fst (change 0 0 "new" sampleAttrState))
  = [mkEntry (QueueAttributeMutationRecord 0 "id" None (Some "old"%string))
       [mkAttr "id" None None "old" (Some 0)];
     mkEntry (RunAttributeChangeSteps 0 "id" (Some "old"%string) (Some "new"%string) None)
       [mkAttr "id" None None "old" (Some 0)]]
  /\ _value (getAttr (fst (change 0 0 "new" sampleAttrState)) 0) = "new"%string.
Proof.
  pose proof (change_queues_then_runs_then_stores sampleAttrState 0 0 "new"
                (Nat.lt_0_succ 0)) as H.
  cbv zeta in H.
  destruct H as (_ & Hlog & Hval & _).
  split; [exact Hlog | exact Hval].
Defined.

(** The scenario of the claim: changing [id] from "old" to "new" logs one
    record with the old value "old", seen while the stored value is "old". *)
Example change_id_old_new :
  change 0 0 "new" sampleAttrState =
  (mkAttrState [mkAttr "id" None None "new" (Some 0)] [[0]]
     [mkEntry (QueueAttributeMutationRecord 0 "id" None (Some "old"%string))
        [mkAttr "id" None None "old" (Some 0)];
      mkEntry (RunAttributeChangeSteps 0 "id" (Some "old"%string) (Some "new"%string) None)
        [mkAttr "id" None None "old" (Some 0)]],
   Return tt).
Proof. reflexivity. Qed.

Lemma option_nat_eqb_eq (a b : option nat) : option_nat_eqb a b = true <-> a = b.
Proof.
  destruct a as [x|], b as [y|]; simpl; split; try congruence.
  - intros H; apply Nat.eqb_eq in H; congruence.
  - intros [= ->]; apply Nat.eqb_refl.
Qed.

End AttributeFacts.

(** ** Adjacent insertion *)

Section AdjacentFacts.
Import Adjacent.

(** C8, as stated, fails: [where] is lowercased before it is compared, so a
    value that is none of the four position words can still be taken as one.
    On the sample document, with the parentless element r, the value
    "BEFOREBEGIN" gives null and no [SyntaxError], and the value "BeforeEnd"
    pre-inserts e1 at the end of a. *)
Lemma insertAdjacent_uppercase_no_SyntaxError :
  "BEFOREBEGIN"%string <> "beforebegin"%string
  /\ "BEFOREBEGIN"%string <> "afterbegin"%string
  /\ "BEFOREBEGIN"%string <> "beforeend"%string
  /\ "BEFOREBEGIN"%string <> "afterend"%string
  /\ insertAdjacent 0 "BEFOREBEGIN" 4 sampleTree = (sampleTree, Return None)
  /\ snd (insertAdjacent 1 "BeforeEnd" 4 sampleTree) = Return (Some 4)
  /\ childrenOf (fst (insertAdjacent 1 "BeforeEnd" 4 sampleTree)) 1 = [2; 4].
Proof. repeat split; try discriminate; reflexivity. Qed.

(** C8, amended.  With [w] the lowercased [where]: for [w] "beforebegin" or
    "afterend" and an element without parent, [insertAdjacent] returns null
    and changes nothing; otherwise, for [w] one of the four position words it
    is the pre-insertion of the node into the element's parent before the
    element ("beforebegin"), into the element before its first child
    ("afterbegin"), into the element before null ("beforeend"), into the
    element's parent before the element's next sibling ("afterend"); for every
    other [w] it throws [SyntaxError] and changes nothing. *)
Theorem insertAdjacent_by_lowercased_position
  (st : Store) (element node : nat) (where_ : string) :
  let w := toLowerCase where_ in
  let pre parent child :=
    bind (Mutation.preInsert node parent child) (fun r => ret (Some r)) st in
  ((w = "beforebegin"%string \/ w = "afterend"%string) ->
   parentOf st element = None ->
   insertAdjacent element where_ node st = (st, Return None))
  /\ (forall parent, w = "beforebegin"%string -> parentOf st element = Some parent ->
      insertAdjacent element where_ node st = pre parent (Some element))
  /\ (w = "afterbegin"%string ->
      insertAdjacent element where_ node st = pre element (Links.firstChild st element))
  /\ (w = "beforeend"%string ->
      insertAdjacent element where_ node st = pre element None)
  /\ (forall parent, w = "afterend"%string -> parentOf st element = Some parent ->
      insertAdjacent element where_ node st = pre parent (Links.nextSibling st element))
  /\ (w <> "beforebegin"%string -> w <> "afterbegin"%string ->
      w <> "beforeend"%string -> w <> "afterend"%string ->
      insertAdjacent element where_ node st = (st, Throw SyntaxError)).
Proof.
  intros w pre; subst w pre.
  assert (Hrun : forall k : Store -> M (option nat),
             bind getStore k st = k st st) by reflexivity.
  unfold insertAdjacent; rewrite Hrun.
  repeat split.
  - intros [Hw | Hw] Hp; rewrite Hw, Hp; reflexivity.
  - intros parent Hw Hp; rewrite Hw, Hp; reflexivity.
  - intros Hw; rewrite Hw; reflexivity.
  - intros Hw; rewrite Hw; reflexivity.
  - intros parent Hw Hp; rewrite Hw, Hp; reflexivity.
  - intros H1 H2 H3 H4.
    apply String.eqb_neq in H1, H2, H3, H4.
    rewrite H1, H2, H3, H4; reflexivity.
Qed.

(** The amended C8 on the sample document: "AfterEnd" on a, whose parent is r
    and whose next sibling is b, pre-inserts into r before b; "sideways" throws
    [SyntaxError]. *)
Lemma insertAdjacent_by_lowercased_position_witness :
  toLowerCase "AfterEnd" = "afterend"%string
  /\ parentOf sampleTree 1 = Some 0
  /\ insertAdjacent 1 "AfterEnd" 5 sampleTree
     = bind (Mutation.preInsert 5 0 (Some 3)) (fun r => ret (Some r)) sampleTree
  /\ insertAdjacent 1 "sideways" 5 sampleTree = (sampleTree, Throw SyntaxError).
Proof.
  split; [reflexivity|].
  split; [reflexivity|].
  pose proof (insertAdjacent_by_lowercased_position sampleTree 1 5 "AfterEnd") as H.
  pose proof (insertAdjacent_by_lowercased_position sampleTree 1 5 "sideways") as H'.
  cbv zeta in H, H'.
  destruct H as (_ & _ & _ & _ & H & _).
  destruct H' as (_ & _ & _ & _ & _ & H').
  split.
  - apply (H 0); reflexivity.
  - apply H'; discriminate.
Defined.

End AdjacentFacts.

(** ** Tree walker *)

Section WalkerFacts.
Import TreeWalkerAlg.

(** More fuel does not change a finished scan. *)
Lemma scanSiblings_more_fuel (st : Store) (walker : TreeWalker) (next : bool)
  (fuel : nat) :
  forall (node : nat) (sibling : option nat) (res : Scan) (fuel' : nat),
    scanSiblings fuel st walker next node sibling = Return res ->
    fuel <= fuel' ->
    scanSiblings fuel' st walker next node sibling = Return res.
Proof.
  induction fuel as [|fuel IH]; intros node sibling res fuel' H Hle.
  - destruct sibling; simpl in H; [discriminate|].
    destruct fuel'; exact H.
  - destruct fuel' as [|fuel']; [lia|].
    destruct sibling as [s|]; [|exact H].
    simpl in H |- *.
    destruct (FilterResult_eqb (filter walker s) Accept); [exact H|].
    apply IH; [exact H | lia].
Qed.

Lemma FilterResult_eqb_Accept (x : FilterResult) :
  FilterResult_eqb x Accept = true <-> x = Accept.
Proof. destruct x; simpl; split; congruence. Qed.

(** What the loop returns with some fuel is the result of the sibling search
    of the spec. *)
Lemma siblingLoop_sound (st : Store) (walker : TreeWalker) (next : bool) (fuel : nat) :
  forall (node : nat) (walker' : TreeWalker) (result : option nat),
    siblingLoop fuel st walker next node = (walker', Return result) ->
    stepToSibling st walker next node result /\ walker' = walkerAfter result walker.
Proof.
  induction fuel as [|fuel IH]; intros node walker' result H; [discriminate|].
  cbn [siblingLoop] in H.
  destruct (scanSiblings fuel st walker next node
              (if next then _nextSibling st node else _previousSibling st node))
    as [[found | lastNode]| | |] eqn:Hscan; try discriminate.
  - injection H as <- <-; split; [|reflexivity].
    eapply sts_accepted; exact Hscan.
  - destruct (parentOf st lastNode) as [parent|] eqn:Hp.
    + destruct (Nat.eqb_spec parent (_root walker)) as [-> | Hne].
      * injection H as <- <-; split; [|reflexivity].
        eapply sts_parent_is_root; eassumption.
      * destruct (FilterResult_eqb (filter walker parent) Accept) eqn:Hf.
        -- injection H as <- <-; split; [|reflexivity].
           apply FilterResult_eqb_Accept in Hf.
           eapply sts_parent_accepted; eassumption.
        -- apply IH in H as [Hs ->]; split; [|reflexivity].
           eapply sts_repeat; try eassumption.
           intros E; apply FilterResult_eqb_Accept in E; congruence.
    + injection H as <- <-; split; [|reflexivity].
      eapply sts_no_parent; eassumption.
Qed.

(** Every result of the sibling search of the spec is returned by the loop,
    with enough fuel. *)
Lemma siblingLoop_complete (st : Store) (walker : TreeWalker) (next : bool)
  (node : nat) (result : option nat) :
  stepToSibling st walker next node result ->
  exists fuel, forall fuel', fuel <= fuel' ->
    siblingLoop fuel' st walker next node = (walkerAfter result walker, Return result).
Proof.
  induction 1 as [node fuel found Hscan
                 | node fuel lastNode Hscan Hp
                 | node fuel lastNode Hscan Hp
                 | node fuel lastNode parent Hscan Hp Hne Hf
                 | node fuel lastNode parent result Hscan Hp Hne Hf _ [fuel2 IH]].
  1-4: exists (S fuel); intros [|fuel'] Hle; [lia|];
       cbn [siblingLoop];
       rewrite (scanSiblings_more_fuel _ _ _ _ _ _ _ fuel' Hscan) by lia.
  - reflexivity.
  - rewrite Hp; reflexivity.
  - rewrite Hp, Nat.eqb_refl; reflexivity.
  - apply Nat.eqb_neq in Hne; rewrite Hp, Hne, Hf; reflexivity.
  - exists (S (Nat.max fuel fuel2)); intros [|fuel'] Hle; [lia|].
    cbn [siblingLoop].
    rewrite (scanSiblings_more_fuel _ _ _ _ _ _ _ fuel' Hscan) by lia.
    apply Nat.eqb_neq in Hne; rewrite Hp, Hne.
    destruct (FilterResult_eqb (filter walker parent) Accept) eqn:E;
      [apply FilterResult_eqb_Accept in E; contradiction|].
    apply IH; lia.
Qed.

(** C9.  In [traverseSiblings], with the current node not the root, the node
    returned is the result of the sibling search of the spec entered at the
    current node, and every such result is returned: when the scan at a level
    accepts a node the walk returns it and the walker stands on it; when the
    scan finds none, ending on [lastNode], the walk returns null, leaving the
    walker where it was, if [lastNode] has no parent, if the parent is the
    root, and if the filter accepts the parent; otherwise the result is the
    one of the sibling search at the level of the parent. *)
Theorem traverseSiblings_climb (st : Store) (walker : TreeWalker) (next : bool) :
  _current walker <> _root walker ->
  (forall fuel walker' result,
      traverseSiblings fuel st walker next = (walker', Return result) ->
      stepToSibling st walker next (_current walker) result
      /\ walker' = walkerAfter result walker)
  /\ (forall result,
        stepToSibling st walker next (_current walker) result ->
        exists fuel, forall fuel', fuel <= fuel' ->
          traverseSiblings fuel' st walker next
          = (walkerAfter result walker, Return result)).
Proof.
  intros Hroot; apply Nat.eqb_neq in Hroot.
  unfold traverseSiblings; rewrite Hroot; split.
  - intros fuel walker' result; apply siblingLoop_sound.
  - intros result; apply siblingLoop_complete.
Qed.

(** C9 on the sample document: the walker stands on the text node, which has
    no sibling; the parent a is not the root and is skipped by the filter, so
    the search is repeated at a, whose next sibling b is accepted: b is
    returned and the walker stands on b. *)
Lemma traverseSiblings_climb_witness :
  exists fuel,
    traverseSiblings fuel sampleTree climbingWalker true
    = (setCurrent 3 climbingWalker, Return (Some 3)).
Proof.
  assert (Hne : _current climbingWalker <> _root climbingWalker) by discriminate.
  assert (Hs : stepToSibling sampleTree climbingWalker true
                 (_current climbingWalker) (Some 3)).
  { apply (sts_repeat _ _ _ 2 0 2 1 (Some 3));
      [reflexivity | reflexivity | discriminate | discriminate |].
    apply (sts_accepted _ _ _ 1 1 3); reflexivity. }
  destruct (proj2 (traverseSiblings_climb sampleTree climbingWalker true Hne)
              (Some 3) Hs) as [fuel H].
  exists fuel; apply (H fuel); apply Nat.le_refl.
Defined.

End WalkerFacts.

(** ** Ranges: the contents *)

Section ContentsFacts.
Import BoundaryPointAlg RangeAlg.

(** C1 does not hold of the code.  On the sample document and the range
    [(r, 0)-(b, 1)], the last partially contained child is b, and the subrange
    [(b, 0)-(b, 1)] is given to [extract]: [cloneTheContents] returns normally
    (with any fuel from 2 on), and afterwards e1 is no longer a child of b but
    a child of the clone of b in the fragment. *)
Theorem cloneTheContents_moves_source_child (fuel : nat) :
  2 <= fuel ->
  let res := cloneTheContents fuel (mkRange (0, 0) (3, 1)) sampleTree in
  snd res = Return 6
  /\ childrenOf sampleTree 3 = [4; 5]
  /\ childrenOf (fst res) 3 = [5]
  /\ parentOf sampleTree 4 = Some 3
  /\ parentOf (fst res) 4 = Some 8
  /\ ~ sourceUnchanged sampleTree (fst res).
Proof.
  intros Hf; destruct fuel as [|[|fuel]]; [lia | lia |].
  vm_compute; repeat split; try reflexivity.
  intros H; discriminate H.
Qed.

Lemma cloneTheContents_moves_source_child_witness :
  childrenOf (fst (cloneTheContents 2 (mkRange (0, 0) (3, 1)) sampleTree)) 3 = [5].
Proof.
  apply (cloneTheContents_moves_source_child 2); lia.
Defined.

(** The counting loop over the children never looks at the first child. *)
Lemma lastPartiallyContainedFrom_not_first (st : Store) (r : Range)
  (children : list nat) (i : nat) (node : nat) :
  lastPartiallyContainedFrom st r children i = Return (Some node) ->
  exists j, 0 < j /\ nth_error children j = Some node.
Proof.
  induction i as [|i IH]; cbn [lastPartiallyContainedFrom]; [discriminate|].
  destruct (nth_error children (S i)) as [x|] eqn:Hx; [|discriminate].
  destruct (isPartiallyContained st x r).
  - intros [= <-]; exists (S i); split; [lia | exact Hx].
  - exact IH.
Qed.

(** C2 does not hold of the code.  On the sample document and the range
    [(r, 0)-(text, 1)] (not collapsed, start and end nodes distinct, the end
    node no ancestor of the start node), the child a of the common ancestor r,
    at index 0, is partially contained and the other child b is not, yet the
    loop finds no last partially contained child; [extract] and
    [cloneTheContents] return an empty fragment and no clone of a is made nor
    is the text touched. *)
Theorem lastPartiallyContained_misses_index_0 (fuel : nat) :
  1 <= fuel ->
  let range := mkRange (0, 0) (2, 1) in
  collapsed range = false
  /\ Tree.isAncestorOf sampleTree (_startNode range) (_endNode range) true = false
  /\ findCommonAncestor 6 sampleTree (_endNode range) (_startNode range) = Return 0
  /\ childrenOf sampleTree 0 = [1; 3]
  /\ isPartiallyContained sampleTree 1 range = true
  /\ isPartiallyContained sampleTree 3 range = false
  /\ lastPartiallyContained sampleTree range (childrenOf sampleTree 0) = Return None
  /\ extract fuel range sampleTree
     = (sampleTree ++ [mkNode DocumentFragment None [] EmptyString],
        Return (6, AtNodes (mkRange (0, 0) (0, 0))))
  /\ cloneTheContents fuel range sampleTree
     = (sampleTree ++ [mkNode DocumentFragment None [] EmptyString], Return 6).
Proof.
  intros Hf; destruct fuel as [|fuel]; [lia|].
  vm_compute; repeat split; reflexivity.
Qed.

Lemma lastPartiallyContained_misses_index_0_witness :
  lastPartiallyContained sampleTree (mkRange (0, 0) (2, 1)) (childrenOf sampleTree 0)
  = Return None.
Proof.
  apply (lastPartiallyContained_misses_index_0 1); lia.
Defined.

(** C3 does not hold of the code.  On the sample document and the range
    [(text, 1)-(b, 1)], the first partially contained child is the element a,
    and the node that is cloned for it is the start node, the text: the
    fragment (6) gets a text node "ab" (7) and not an element; the subfragment
    with the text "b" cannot be appended to this text clone, and the call
    throws [HierarchyRequestError], in [cloneTheContents] and in [extract] (where
    the text of the source has been cut to "a" by then). *)
Theorem first_partially_contained_clone_is_start_node (fuel : nat) :
  2 <= fuel ->
  let range := mkRange (2, 1) (3, 1) in
  let c := cloneTheContents fuel range sampleTree in
  let e := extract fuel range sampleTree in
  firstPartiallyContained sampleTree range (childrenOf sampleTree 0) = Some 1
  /\ kindOf sampleTree 1 = Element
  /\ snd c = Throw HierarchyRequestError
  /\ childrenOf (fst c) 6 = [7]
  /\ kindOf (fst c) 7 = Text
  /\ dataOf (fst c) 7 = "ab"%string
  /\ snd e = Throw HierarchyRequestError
  /\ childrenOf (fst e) 6 = [7]
  /\ kindOf (fst e) 7 = Text
  /\ dataOf (fst e) 2 = "a"%string.
Proof.
  intros Hf; destruct fuel as [|[|fuel]]; [lia | lia |].
  vm_compute; repeat split; reflexivity.
Qed.

Lemma first_partially_contained_clone_is_start_node_witness :
  kindOf (fst (cloneTheContents 2 (mkRange (2, 1) (3, 1)) sampleTree)) 7 = Text.
Proof.
  apply (first_partially_contained_clone_is_start_node 2); lia.
Defined.

End ContentsFacts.

(** ** Lists of children *)

Section ChildLists.
Import Tree Mutation.

Lemma findIndex_nth (x : nat) (l : list nat) (i : nat) :
  findIndex x l = Some i -> nth_error l i = Some x.
Proof.
  revert i; induction l as [|y l IH]; intros i; simpl; [discriminate|].
  destruct (x =? y) eqn:E.
  - intros [= <-]; apply Nat.eqb_eq in E; subst; reflexivity.
  - destruct (findIndex x l) as [k|]; simpl; [|discriminate].
    intros [= <-]; simpl; apply IH; reflexivity.
Qed.

Lemma findIndex_lt (x : nat) (l : list nat) (i : nat) :
  findIndex x l = Some i -> i < length l.
Proof.
  intros H; apply findIndex_nth in H.
  apply nth_error_Some; congruence.
Qed.

Lemma findIndex_In (x : nat) (l : list nat) :
  In x l -> exists i, findIndex x l = Some i.
Proof.
  induction l as [|y l IH]; simpl; [tauto|].
  intros H; destruct (x =? y) eqn:E; [eauto|].
  apply Nat.eqb_neq in E.
  destruct H as [-> | H]; [congruence|].
  destruct (IH H) as [i ->]; simpl; eauto.
Qed.

Lemma findIndex_None (x : nat) (l : list nat) :
  ~ In x l -> findIndex x l = None.
Proof.
  induction l as [|y l IH]; simpl; [reflexivity|].
  intros H; destruct (x =? y) eqn:E.
  - apply Nat.eqb_eq in E; subst; tauto.
  - rewrite IH; [reflexivity | tauto].
Qed.

Lemma findIndex_Some_In (x : nat) (l : list nat) (i : nat) :
  findIndex x l = Some i -> In x l.
Proof. intros H; apply findIndex_nth in H; eapply nth_error_In; eauto. Qed.

End ChildLists.

(** ** Reading a store after an update *)

Section StoreViews.
Import Tree Mutation.

Lemma length_updNode (n : nat) (f : Node -> Node) (st : Store) :
  length (updNode n f st) = length st.
Proof. unfold updNode; apply length_insert. Qed.

Lemma getNode_updNode_same (n : nat) (f : Node -> Node) (st : Store) :
  n < length st -> getNode (updNode n f st) n = f (getNode st n).
Proof.
  intros H; unfold updNode.
  generalize (f (getNode st n)); intros v; unfold getNode.
  rewrite list_lookup_insert_eq by exact H; reflexivity.
Qed.

Lemma getNode_updNode_other (n m : nat) (f : Node -> Node) (st : Store) :
  m <> n -> getNode (updNode n f st) m = getNode st m.
Proof.
  intros H; unfold getNode, updNode.
  rewrite list_lookup_insert_ne by congruence; reflexivity.
Qed.

Lemma getNode_outside (st : Store) (n : nat) :
  length st <= n -> getNode st n = emptyNode.
Proof.
  intros H; unfold getNode.
  rewrite (lookup_ge_None_2 st n) by exact H; reflexivity.
Qed.

Lemma getNode_alloc_old (st : Store) (x : Node) (m : nat) :
  m <> length st -> getNode (st ++ [x]) m = getNode st m.
Proof.
  intros H; unfold getNode.
  destruct (Nat.lt_ge_cases m (length st)) as [Hlt | Hge].
  - rewrite lookup_app_l by exact Hlt; reflexivity.
  - rewrite (lookup_ge_None_2 st m) by exact Hge.
    rewrite lookup_ge_None_2; [reflexivity|].
    rewrite length_app; simpl; lia.
Qed.

Lemma getNode_alloc_new (st : Store) (x : Node) :
  getNode (st ++ [x]) (length st) = x.
Proof.
  unfold getNode.
  rewrite lookup_app_r by lia.
  rewrite Nat.sub_diag; reflexivity.
Qed.

(** A node with a parent or with children is inside the store. *)
Lemma parentOf_inside (st : Store) (n p : nat) :
  parentOf st n = Some p -> n < length st.
Proof.
  intros H; destruct (Nat.lt_ge_cases n (length st)) as [Hlt | Hge]; [exact Hlt|].
  unfold parentOf in H; rewrite getNode_outside in H by exact Hge; discriminate.
Qed.

Lemma childrenOf_inside (st : Store) (p c : nat) :
  In c (childrenOf st p) -> p < length st.
Proof.
  intros H; destruct (Nat.lt_ge_cases p (length st)) as [Hlt | Hge]; [exact Hlt|].
  unfold childrenOf in H; rewrite getNode_outside in H by exact Hge; destruct H.
Qed.

End StoreViews.

(** ** Chains of ancestors in a well-formed store *)

Section Chains.
Import Tree.

Variable st : Store.
Hypothesis Hwf : wf st.

Lemma wf_parent_inside (n p : nat) : parentOf st n = Some p -> p < length st.
Proof.
  intros H; apply (wf_parent_child st Hwf) in H.
  eapply childrenOf_inside; eauto.
Qed.

Lemma ancestorsUp_inside (fuel x y : nat) :
  In y (ancestorsUp st fuel x) -> y < length st.
Proof.
  revert x; induction fuel as [|fuel IH]; intros x; simpl; [tauto|].
  destruct (parentOf st x) as [p|] eqn:Hp; simpl; [|tauto].
  intros [<- | H]; [eapply wf_parent_inside; eauto | eapply IH; eauto].
Qed.

Lemma ancestorsUp_rank (rank : nat -> nat) (fuel x y : nat) :
  (forall n p, parentOf st n = Some p -> rank p < rank n) ->
  In y (ancestorsUp st fuel x) -> rank y < rank x.
Proof.
  intros Hr; revert x; induction fuel as [|fuel IH]; intros x; simpl; [tauto|].
  destruct (parentOf st x) as [p|] eqn:Hp; simpl; [|tauto].
  intros [<- | H]; [auto|].
  specialize (IH p H); specialize (Hr x p Hp); lia.
Qed.

Lemma ancestorsUp_NoDup (fuel x : nat) :
  List.NoDup (x :: ancestorsUp st fuel x).
Proof.
  destruct (wf_rank st Hwf) as [rank Hr].
  revert x; induction fuel as [|fuel IH]; intros x; simpl.
  - constructor; [tauto | constructor].
  - destruct (parentOf st x) as [p|] eqn:Hp; [|constructor; [tauto | constructor]].
    constructor; [|apply IH].
    intros H.
    assert (rank x < rank x); [|lia].
    destruct H as [-> | H].
    + apply (Hr x x Hp).
    + pose proof (ancestorsUp_rank rank fuel p x Hr H).
      specialize (Hr x p Hp); lia.
Qed.

(** No walk to the root is longer than the store. *)
Lemma ancestorsUp_short (fuel x p : nat) :
  parentOf st x = Some p -> length (x :: ancestorsUp st fuel x) <= length st.
Proof.
  intros Hp.
  assert (Hincl : incl (x :: ancestorsUp st fuel x) (seq 0 (length st))).
  { intros y [<- | Hy]; apply in_seq; split; try lia; simpl.
    - eapply parentOf_inside; eauto.
    - eapply ancestorsUp_inside; eauto. }
  pose proof (List.NoDup_incl_length (ancestorsUp_NoDup fuel x) Hincl) as H.
  rewrite List.length_seq in H; exact H.
Qed.

(** A walk that did not use up its fuel is the same with more fuel. *)
Lemma ancestorsUp_stable (fuel fuel' x : nat) :
  length (ancestorsUp st fuel x) < fuel -> fuel <= fuel' ->
  ancestorsUp st fuel' x = ancestorsUp st fuel x.
Proof.
  revert fuel' x; induction fuel as [|fuel IH]; intros fuel' x; simpl; [lia|].
  intros Hl Hf; destruct fuel' as [|fuel']; [lia|]; simpl.
  destruct (parentOf st x) as [p|]; [|reflexivity].
  simpl in Hl; f_equal; apply IH; lia.
Qed.

Lemma ancestorsUp_step (x p : nat) :
  parentOf st x = Some p ->
  ancestorsUp st (length st) x = p :: ancestorsUp st (length st) p.
Proof.
  intros Hp.
  pose proof (parentOf_inside st x p Hp) as Hx.
  pose proof (ancestorsUp_short (length st) x p Hp) as H.
  remember (length st) as L eqn:HL.
  destruct L as [|L]; [lia|].
  change (ancestorsUp st (S L) x)
    with (match parentOf st x with
          | None => []
          | Some q => q :: ancestorsUp st L q
          end) in *.
  rewrite Hp in *; f_equal.
  symmetry; apply ancestorsUp_stable; [|lia].
  simpl in H; lia.
Qed.

(** The chain of a node is the chain of its parent followed by the node. *)
Lemma chain_step (x p : nat) :
  parentOf st x = Some p -> chain st x = chain st p ++ [x].
Proof.
  intros Hp; unfold chain; rewrite (ancestorsUp_step x p Hp); reflexivity.
Qed.

Lemma chain_root (x : nat) : parentOf st x = None -> chain st x = [x].
Proof.
  intros Hp; unfold chain.
  destruct (length st); simpl; rewrite ?Hp; reflexivity.
Qed.

End Chains.

Section ChainShape.
Import Tree BoundaryPointAlg.

Variable st : Store.
Hypothesis Hwf : wf st.

Lemma chain_last (x : nat) : exists pre, chain st x = pre ++ [x].
Proof. unfold chain; simpl; eauto. Qed.

Lemma chain_In_self (x : nat) : In x (chain st x).
Proof. destruct (chain_last x) as [pre ->]; apply in_app_iff; simpl; auto. Qed.

Lemma chain_cases (y : nat) :
  (parentOf st y = None /\ chain st y = [y])
  \/ (exists p, parentOf st y = Some p /\ chain st y = chain st p ++ [y]).
Proof.
  destruct (parentOf st y) as [p|] eqn:Hp.
  - right; exists p; split; [reflexivity | apply chain_step; assumption].
  - left; split; [reflexivity | apply chain_root; assumption].
Qed.

(** Induction along the parent links. *)
Lemma parent_induction (P : nat -> Prop) :
  (forall y, parentOf st y = None -> P y) ->
  (forall y p, parentOf st y = Some p -> P p -> P y) ->
  forall y, P y.
Proof.
  intros Hroot Hstep.
  destruct (wf_rank st Hwf) as [rank Hr].
  assert (H : forall k y, rank y < k -> P y).
  { induction k as [|k IH]; intros y Hk; [lia|].
    destruct (parentOf st y) as [p|] eqn:Hp; [|auto].
    apply (Hstep y p Hp), IH.
    specialize (Hr y p Hp); lia. }
  intros y; apply (H (S (rank y))); lia.
Qed.

(** The chain of an inclusive ancestor is a prefix of the chain. *)
Lemma chain_prefix (a : nat) :
  forall y, In a (chain st y) -> exists rest, chain st y = chain st a ++ rest.
Proof.
  apply (parent_induction (fun y => In a (chain st y) ->
                                    exists rest, chain st y = chain st a ++ rest)).
  - intros y Hp; rewrite (chain_root st y Hp); intros [<- | []].
    exists []; rewrite (chain_root st y Hp); reflexivity.
  - intros y p Hp IH; rewrite (chain_step st Hwf y p Hp), in_app_iff.
    intros [H | [<- | []]].
    + destruct (IH H) as [rest ->]; exists (rest ++ [y]); rewrite app_assoc; reflexivity.
    + exists []; rewrite (chain_step st Hwf y p Hp), app_nil_r; reflexivity.
Qed.

Lemma chain_adjacent (y a c : nat) (pre rest : list nat) :
  chain st y = pre ++ a :: c :: rest -> parentOf st c = Some a.
Proof.
  revert rest; apply (parent_induction (fun y => forall rest,
                        chain st y = pre ++ a :: c :: rest -> parentOf st c = Some a)).
  - intros z Hp rest; rewrite (chain_root st z Hp); intros H.
    apply (f_equal (@length nat)) in H; rewrite length_app in H; simpl in H; lia.
  - intros z p Hp IH rest; rewrite (chain_step st Hwf z p Hp); intros H.
    destruct (@exists_last _ (c :: rest)) as (rest' & l & Hl); [discriminate|].
    rewrite Hl in H.
    replace (pre ++ a :: rest' ++ [l]) with ((pre ++ a :: rest') ++ [l]) in H
      by (rewrite <- app_assoc; reflexivity).
    apply app_inj_tail in H as [H ->].
    destruct rest' as [|c' rest'].
    + simpl in Hl; injection Hl as -> ->.
      destruct (chain_last p) as [pre' Hpre']; rewrite Hpre' in H.
      replace (pre ++ [a]) with (pre ++ [a]) in H by reflexivity.
      apply app_inj_tail in H as [_ ->]; exact Hp.
    + simpl in Hl; injection Hl as <- Hrest.
      apply (IH rest'); exact H.
Qed.

Lemma diverge_spec (ca cb : list nat) :
  exists pre,
    ca = pre ++ fst (diverge ca cb) /\ cb = pre ++ snd (diverge ca cb)
    /\ match fst (diverge ca cb), snd (diverge ca cb) with
       | a :: _, b :: _ => a <> b
       | _, _ => True
       end.
Proof.
  revert cb; induction ca as [|a ca IH]; intros cb.
  - exists []; simpl; auto.
  - destruct cb as [|b cb]; [exists []; simpl; auto|].
    simpl; destruct (a =? b) eqn:E.
    + apply Nat.eqb_eq in E; subst b.
      destruct (IH cb) as (pre & H1 & H2 & H3).
      exists (a :: pre); simpl; repeat split; try congruence; exact H3.
    + apply Nat.eqb_neq in E; exists []; simpl; auto.
Qed.

Lemma diverge_app (pre ra rb : list nat) :
  diverge (pre ++ ra) (pre ++ rb) = diverge ra rb.
Proof.
  induction pre as [|a pre IH]; simpl; [reflexivity|].
  rewrite Nat.eqb_refl; exact IH.
Qed.

End ChainShape.

(** ** The index of a child *)

Section ChildIndex.
Import Tree BoundaryPointAlg.

Lemma index_child (st : Store) (c A i : nat) :
  parentOf st c = Some A -> findIndex c (childrenOf st A) = Some i ->
  index st c = i.
Proof. intros Hp Hi; unfold index, indexOpt; rewrite Hp, Hi; reflexivity. Qed.

Lemma index_child_ex (st : Store) (c A : nat) :
  wf st -> parentOf st c = Some A ->
  exists i, findIndex c (childrenOf st A) = Some i /\ index st c = i.
Proof.
  intros Hwf Hp.
  destruct (findIndex_In c (childrenOf st A)) as [i Hi].
  - apply (wf_parent_child st Hwf); exact Hp.
  - exists i; split; [exact Hi | eapply index_child; eauto].
Qed.

End ChildIndex.

(** ** Ancestors and chains *)

Section AncestorChains.
Import Tree Mutation.

Lemma isAncestorOf_chain (st : Store) (a b : nat) :
  isAncestorOf st a b true = true <-> In b (chain st a).
Proof.
  unfold isAncestorOf, chain.
  rewrite <- in_rev, orb_true_iff, andb_true_l, Nat.eqb_eq, existsb_exists.
  cbn [In].
  split.
  - intros [-> | (y & Hy & E)]; [auto|].
    apply Nat.eqb_eq in E; subst; auto.
  - intros [-> | H]; [auto|].
    right; exists b; split; [exact H | apply Nat.eqb_refl].
Qed.

Lemma isAncestorOf_chain_false (st : Store) (a b : nat) :
  isAncestorOf st a b true = false <-> ~ In b (chain st a).
Proof.
  rewrite <- isAncestorOf_chain; destruct (isAncestorOf st a b true); split;
    congruence.
Qed.

Lemma findIndex_nth_NoDup (l : list nat) (i c : nat) :
  List.NoDup l -> nth_error l i = Some c -> findIndex c l = Some i.
Proof.
  revert i; induction l as [|y l IH]; intros i Hnd; [destruct i; discriminate|].
  inversion Hnd as [|? ? Hy Hnd']; subst.
  destruct i as [|i]; simpl.
  - intros [= ->]; rewrite Nat.eqb_refl; reflexivity.
  - intros H.
    destruct (c =? y) eqn:E.
    + apply Nat.eqb_eq in E; subst y.
      exfalso; apply Hy; eapply nth_error_In; eauto.
    + rewrite (IH i Hnd' H); reflexivity.
Qed.

End AncestorChains.

(** ** Roots, and the sample document *)

Section SampleFacts.
Import Tree Mutation BoundaryPointAlg RangeAlg.

Lemma in_chain_parent (st : Store) (x q y : nat) :
  wf st -> In x (chain st y) -> parentOf st x = Some q -> In q (chain st y).
Proof.
  intros Hwf Hin Hq.
  destruct (chain_prefix st Hwf x y Hin) as [rest ->].
  rewrite (chain_step st Hwf x q Hq).
  apply in_app_iff; left; apply in_app_iff; left; apply chain_In_self.
Qed.

Lemma rootNode_In (st : Store) (y : nat) : In (rootNode st y) (chain st y).
Proof.
  unfold rootNode; destruct (chain_last st y) as [pre Hpre]; rewrite Hpre.
  destruct pre; simpl; auto.
Qed.

Lemma wf_sampleTree : wf sampleTree.
Proof.
  constructor.
  - intros n p; do 6 (destruct n as [|n]; [vm_compute; intros [= <-]; tauto|]).
    vm_compute; destruct n; discriminate.
  - intros p c;
      do 6 (destruct p as [|p];
            [intros H; cbv in H;
             repeat (destruct H as [<- | H]; [reflexivity|]); destruct H|]).
    unfold childrenOf; rewrite getNode_outside by (simpl; lia); intros [].
  - intros p; do 6 (destruct p as [|p];
                    [vm_compute; repeat constructor; simpl; intuition lia|]).
    unfold childrenOf; rewrite getNode_outside by (simpl; lia); constructor.
  - exists (fun n => match n with 0 => 0 | 1 => 1 | 3 => 1 | _ => 2 end).
    intros n p; do 6 (destruct n as [|n]; [vm_compute; intros [= <-]; lia|]).
    unfold parentOf; rewrite getNode_outside by (simpl; lia); discriminate.
  - intros n; do 6 (destruct n as [|n];
                    [vm_compute; intros [H | H]; first [reflexivity | discriminate H]|]).
    intros _; unfold childrenOf; rewrite getNode_outside by (simpl; lia); reflexivity.
  - intros n; do 6 (destruct n as [|n];
                    [vm_compute; intros [H | H]; first [reflexivity | discriminate H]|]).
    intros _; unfold parentOf; rewrite getNode_outside by (simpl; lia); reflexivity.
Qed.

End SampleFacts.

(** * Further properties of the algorithms *)

(** ** The range list of a document *)

Section RangeListFacts.
Import Tree RangeLists.

Lemma findIndex_first (x : nat) (l1 l2 : list nat) :
  ~ In x l1 -> findIndex x (l1 ++ x :: l2) = Some (length l1).
Proof.
  induction l1 as [|y l1 IH]; simpl; intros H.
  - rewrite Nat.eqb_refl; reflexivity.
  - destruct (x =? y) eqn:E.
    + apply Nat.eqb_eq in E; subst; tauto.
    + rewrite IH; [reflexivity | tauto].
Qed.

(** X1. [removeRange] takes the first occurrence of the range out of the
    range list and keeps every other entry in its place; a list without the
    range is left as it is. *)
Theorem removeRange_first_occurrence (range : nat) (rangeList : list nat) :
  (~ In range rangeList -> removeRange range rangeList = rangeList)
  /\ (forall front back,
        rangeList = front ++ range :: back -> ~ In range front ->
        removeRange range rangeList = front ++ back).
Proof.
  unfold removeRange, indexOf; split.
  - intros H; rewrite (findIndex_None _ _ H); reflexivity.
  - intros front back -> H.
    rewrite (findIndex_first _ _ _ H); unfold splice1.
    rewrite firstn_app, Nat.sub_diag, firstn_all; simpl; rewrite app_nil_r.
    replace (S (length front)) with (length front + 1) by lia.
    rewrite skipn_app, skipn_all2 by lia.
    replace (length front + 1 - length front) with 1 by lia; reflexivity.
Qed.

Lemma removeRange_first_occurrence_witness :
  removeRange 7 [1; 2] = [1; 2] /\ removeRange 2 [1; 2; 3; 2] = [1; 3; 2].
Proof.
  split.
  - apply (proj1 (removeRange_first_occurrence 7 [1; 2])).
    simpl; intros [H | [H | []]]; discriminate H.
  - apply (proj2 (removeRange_first_occurrence 2 [1; 2; 3; 2]) [1] [3; 2]).
    + reflexivity.
    + simpl; intros [H | []]; discriminate H.
Defined.

End RangeListFacts.

(** ** What a range contains *)

Section ContainmentFacts.
Import Tree BoundaryPointAlg RangeAlg.

Lemma collapsed_ends (r : Range) : collapsed r = true -> _start r = _end r.
Proof.
  unfold collapsed, _startNode, _endNode, _startOffset, _endOffset.
  destruct r as [[sn so] [en eo]]; simpl.
  rewrite andb_true_iff, !Nat.eqb_eq; intros [-> ->]; reflexivity.
Qed.

(** X2. A collapsed range contains no node and partially contains no node. *)
Theorem collapsed_range_contains_nothing (st : Store) (r : Range) (node : nat) :
  collapsed r = true ->
  isContained st node r = false /\ isPartiallyContained st node r = false.
Proof.
  intros Hc; pose proof (collapsed_ends r Hc) as He.
  split.
  - unfold isContained; rewrite <- He.
    destruct (_start r) as [pn po].
    destruct (rootNode st node =? root st r); [simpl | reflexivity].
    unfold position.
    destruct (node =? pn).
    + destruct po; reflexivity.
    + destruct (diverge (chain st node) (chain st pn)) as [[|ca ra] [|cb rb]].
      * reflexivity.
      * reflexivity.
      * destruct (po <=? index st ca); reflexivity.
      * destruct (index st ca ?= index st cb); reflexivity.
  - unfold isPartiallyContained, _startNode, _endNode; rewrite <- He.
    destruct (isAncestorOf st (fst (_start r)) node true); reflexivity.
Qed.

Lemma collapsed_range_contains_nothing_witness :
  isContained sampleTree 2 (mkRange (1, 0) (1, 0)) = false
  /\ isPartiallyContained sampleTree 2 (mkRange (1, 0) (1, 0)) = false.
Proof.
  apply (collapsed_range_contains_nothing sampleTree (mkRange (1, 0) (1, 0)) 2).
  reflexivity.
Defined.

(** A node that has a child is as long as its child list. *)
Lemma nodeLength_parent (st : Store) (c p : nat) :
  wf st -> parentOf st c = Some p -> nodeLength st p = length (childrenOf st p).
Proof.
  intros Hwf Hp.
  pose proof (wf_parent_child st Hwf c p Hp) as Hin.
  unfold nodeLength.
  destruct (Guard.isDocumentTypeNode (kindOf st p)) eqn:Ed.
  - rewrite (wf_leaf st Hwf p) in Hin by auto; destruct Hin.
  - destruct (Guard.isCharacterDataNode (kindOf st p)) eqn:Ec; [|reflexivity].
    rewrite (wf_leaf st Hwf p) in Hin by auto; destruct Hin.
Qed.

Lemma index_lt_length (st : Store) (c p : nat) :
  wf st -> parentOf st c = Some p -> index st c < nodeLength st p.
Proof.
  intros Hwf Hp.
  rewrite (nodeLength_parent st c p Hwf Hp).
  destruct (index_child_ex st c p Hwf Hp) as (i & Hi & ->).
  eapply findIndex_lt; eauto.
Qed.

(** The points of a proper ancestor against a point below it. *)
Lemma position_from_ancestor (st : Store) (a oa d od : nat) :
  wf st -> In a (chain st d) -> a <> d ->
  exists c, parentOf st c = Some a /\ In c (chain st d)
            /\ position st (a, oa) (d, od)
               = if oa <=? index st c then Before else After.
Proof.
  intros Hwf Hin Hne.
  destruct (chain_prefix st Hwf a d Hin) as [rest Hrest].
  destruct rest as [|c rest].
  - rewrite app_nil_r in Hrest.
    destruct (chain_last st a) as [pa Ha], (chain_last st d) as [pd Hd].
    rewrite Ha, Hd in Hrest; apply app_inj_tail in Hrest as [_ E]; congruence.
  - exists c.
    destruct (chain_last st a) as [pa Ha].
    assert (Hc : parentOf st c = Some a).
    { apply (chain_adjacent st Hwf d a c pa rest).
      rewrite Hrest, Ha, <- app_assoc; reflexivity. }
    split; [exact Hc|].
    split; [rewrite Hrest; apply in_app_iff; right; left; reflexivity|].
    unfold position.
    apply Nat.eqb_neq in Hne; rewrite Hne, Hrest.
    rewrite <- (app_nil_r (chain st a)) at 1.
    rewrite diverge_app; reflexivity.
Qed.

(** X3. In a well-formed tree, a node that a range partially contains is not
    contained in it (the end offset being within the end node). *)
Theorem partially_contained_not_contained (st : Store) (r : Range) (node : nat) :
  wf st -> _endOffset r <= nodeLength st (_endNode r) ->
  isPartiallyContained st node r = true -> isContained st node r = false.
Proof.
  intros Hwf Hoff.
  unfold isPartiallyContained, isContained, _endOffset, _startNode, _endNode in *.
  destruct r as [[sn so] [en eo]]; cbn [_start _end fst snd] in *.
  destruct (isAncestorOf st sn node true) eqn:Es.
  - (* an inclusive ancestor of the start node: [(node, 0)] is not after the
       start *)
    intros _.
    apply isAncestorOf_chain in Es.
    rewrite andb_false_iff; left; rewrite andb_false_iff; right.
    destruct (Nat.eq_dec node sn) as [-> | Hne].
    + rewrite position_same_node; destruct so; reflexivity.
    + destruct (position_from_ancestor st node 0 sn so Hwf Es Hne)
        as (c & _ & _ & ->); reflexivity.
  - destruct (isAncestorOf st en node true) eqn:Ee; [|discriminate].
    (* an inclusive ancestor of the end node: [(node, length)] is not before
       the end *)
    intros _.
    apply isAncestorOf_chain in Ee.
    rewrite andb_false_iff; right.
    destruct (Nat.eq_dec node en) as [-> | Hne].
    + rewrite position_same_node.
      destruct (nodeLength st en ?= eo) eqn:E; try reflexivity.
      apply Nat.compare_lt_iff in E; lia.
    + destruct (position_from_ancestor st node (nodeLength st node) en eo Hwf Ee Hne)
        as (c & Hc & _ & ->).
      pose proof (index_lt_length st c node Hwf Hc) as Hlt.
      apply Nat.leb_gt in Hlt; rewrite Hlt; reflexivity.
Qed.

Lemma partially_contained_not_contained_witness :
  isContained sampleTree 1 (mkRange (2, 1) (3, 1)) = false.
Proof.
  apply partially_contained_not_contained.
  - apply wf_sampleTree.
  - vm_compute; lia.
  - reflexivity.
Defined.

Lemma rootNode_child (st : Store) (c p : nat) :
  wf st -> parentOf st c = Some p -> rootNode st c = rootNode st p.
Proof.
  intros Hwf Hp; unfold rootNode.
  rewrite (chain_step st Hwf c p Hp).
  destruct (chain_last st p) as [pre ->].
  destruct pre; reflexivity.
Qed.

(** X4. In a well-formed tree, after [select] the range contains the selected
    node. *)
Theorem select_contains_node (st : Store) (node : nat) (r r' : Range) :
  wf st -> select st node r = (r', Return tt) -> isContained st node r' = true.
Proof.
  intros Hwf; unfold select.
  destruct (parentOf st node) as [p|] eqn:Hp; [|discriminate].
  intros [= <-].
  assert (Hne : p <> node).
  { intros ->; destruct (wf_rank st Hwf) as [rank Hr].
    specialize (Hr node node Hp); lia. }
  assert (Hin : In p (chain st node)).
  { rewrite (chain_step st Hwf node p Hp); apply in_app_iff; left.
    apply chain_In_self. }
  assert (Hpos : forall o k,
             position st (node, o) (p, k)
             = if k <=? index st node then After else Before).
  { intros o k; rewrite position_flip.
    destruct (position_from_ancestor st p k node o Hwf Hin Hne)
      as (c & Hc & Hcin & ->).
    assert (c = node) as ->.
    { rewrite (chain_step st Hwf node p Hp) in Hcin.
      apply in_app_iff in Hcin as [Hcin | [E | []]]; [|auto].
      exfalso.
      pose proof (in_chain_parent st c p p Hwf Hcin Hc) as Hpp.
      destruct (chain_prefix st Hwf c p Hcin) as [rest Hrest].
      rewrite (chain_step st Hwf c p Hc) in Hrest.
      apply (f_equal (@length nat)) in Hrest.
      rewrite !length_app in Hrest; simpl in Hrest; lia. }
    destruct (k <=? index st node); reflexivity. }
  unfold isContained, root, _startNode; cbn [_start _end fst].
  rewrite (rootNode_child st node p Hwf Hp), Nat.eqb_refl, !Hpos.
  rewrite Nat.leb_refl.
  replace (index st node + 1 <=? index st node) with false
    by (symmetry; apply Nat.leb_gt; lia).
  reflexivity.
Qed.

Lemma select_contains_node_witness :
  isContained sampleTree 3 (mkRange (0, 1) (0, 2)) = true.
Proof.
  apply (select_contains_node sampleTree 3 (mkRange (2, 0) (2, 0))).
  - apply wf_sampleTree.
  - reflexivity.
Defined.

Lemma setTheEnd_at_start (st : Store) (r : Range) (n k : nat) :
  _start r = (n, k) -> (nodeLength st n <? k) = false ->
  setTheEnd st r n k = (mkRange (n, k) (n, k), Return tt).
Proof.
  intros Hs Hk; unfold setTheEnd, Guard.isDocumentTypeNodeOfNumber.
  rewrite Hk, Hs, positionCall_same_tree by reflexivity.
  rewrite position_refl; unfold root, _startNode; rewrite Hs; cbn [fst].
  rewrite Nat.eqb_refl; cbn [BoundaryPosition_eqb orb negb].
  unfold set_end; rewrite Hs; reflexivity.
Qed.

Lemma setTheStart_at_end (st : Store) (r : Range) (n k : nat) :
  _end r = (n, k) -> (nodeLength st n <? k) = false ->
  root st r = rootNode st n ->
  setTheStart st r n k = (mkRange (n, k) (n, k), Return tt).
Proof.
  intros He Hk Hr; unfold setTheStart, Guard.isDocumentTypeNodeOfNumber.
  rewrite Hk, He, positionCall_same_tree by reflexivity.
  rewrite position_refl, Hr, Nat.eqb_refl; cbn [BoundaryPosition_eqb orb negb].
  unfold set_start; rewrite He; reflexivity.
Qed.

(** X5. Setting the start and then the end to one point (or the end and then
    the start) leaves the range collapsed at that point, wherever it was
    before. *)
Theorem set_both_ends_collapses (st : Store) (r r1 : Range) (n k : nat) :
  (setTheStart st r n k = (r1, Return tt) ->
   setTheEnd st r1 n k = (mkRange (n, k) (n, k), Return tt))
  /\ (setTheEnd st r n k = (r1, Return tt) ->
      setTheStart st r1 n k = (mkRange (n, k) (n, k), Return tt)).
Proof.
  split; intros H.
  - unfold setTheStart, Guard.isDocumentTypeNodeOfNumber in H.
    destruct (nodeLength st n <? k) eqn:Hk; [discriminate|].
    destruct (positionCall st (n, k) (_end r)) as [pos| | |]; try discriminate.
    injection H as <-; apply setTheEnd_at_start; [reflexivity | exact Hk].
  - unfold setTheEnd, Guard.isDocumentTypeNodeOfNumber in H.
    destruct (nodeLength st n <? k) eqn:Hk; [discriminate|].
    destruct (positionCall st (n, k) (_start r)) as [pos| | |] eqn:Hc;
      try discriminate.
    apply positionCall_Return in Hc as [Hroot _]; cbn [fst] in Hroot.
    destruct (BoundaryPosition_eqb pos Before || negb (root st r =? rootNode st n));
      injection H as <-; (apply setTheStart_at_end; [reflexivity | exact Hk |]);
      unfold root, _startNode, set_end, set_start; cbn [_start fst];
      [reflexivity | symmetry; exact Hroot].
Qed.

Lemma set_both_ends_collapses_witness :
  setTheEnd sampleTree (mkRange (2, 1) (0, 2)) 2 1
  = (mkRange (2, 1) (2, 1), Return tt)
  /\ setTheStart sampleTree (mkRange (0, 0) (2, 1)) 2 1
     = (mkRange (2, 1) (2, 1), Return tt).
Proof.
  split.
  - apply (proj1 (set_both_ends_collapses sampleTree (mkRange (0, 0) (0, 2))
                    (mkRange (2, 1) (0, 2)) 2 1)).
    reflexivity.
  - apply (proj2 (set_both_ends_collapses sampleTree (mkRange (0, 0) (0, 2))
                    (mkRange (0, 0) (2, 1)) 2 1)).
    reflexivity.
Defined.

End ContainmentFacts.

(** ** The common ancestor *)

Section CommonAncestorFacts.
Import Tree RangeAlg.

Lemma length_chain_le (st : Store) (y : nat) :
  wf st -> length (chain st y) <= S (length st).
Proof.
  intros Hwf.
  destruct (parentOf st y) as [p|] eqn:Hp.
  - pose proof (ancestorsUp_short st Hwf (length st) y p Hp) as H.
    unfold chain; rewrite length_rev; lia.
  - rewrite (chain_root st y Hp); simpl; lia.
Qed.

Lemma rootNode_ancestor (st : Store) (a y : nat) :
  wf st -> In a (chain st y) -> rootNode st y = rootNode st a.
Proof.
  intros Hwf Hin.
  destruct (chain_prefix st Hwf a y Hin) as [rest Hrest].
  unfold rootNode; rewrite Hrest.
  destruct (chain_last st a) as [pre ->].
  destruct pre; reflexivity.
Qed.

(** The loop on a node [y] whose chain is no longer than the fuel. *)
Lemma findCommonAncestor_run (st : Store) (endNode : nat) :
  wf st ->
  forall y fuel, length (chain st y) <= S fuel ->
    (rootNode st y = rootNode st endNode ->
     exists c, findCommonAncestor fuel st endNode y = Return c
               /\ In c (chain st endNode) /\ In c (chain st y))
    /\ (rootNode st y <> rootNode st endNode ->
        findCommonAncestor fuel st endNode y = Fault).
Proof.
  intros Hwf.
  apply (parent_induction st Hwf (fun y => forall fuel,
    length (chain st y) <= S fuel ->
    (rootNode st y = rootNode st endNode ->
     exists c, findCommonAncestor fuel st endNode y = Return c
               /\ In c (chain st endNode) /\ In c (chain st y))
    /\ (rootNode st y <> rootNode st endNode ->
        findCommonAncestor fuel st endNode y = Fault))).
  - (* a node without parent *)
    intros y Hp fuel _.
    assert (Hy : rootNode st y = y)
      by (unfold rootNode; rewrite (chain_root st y Hp); reflexivity).
    split; intros Hroot.
    + exists y.
      assert (Hin : In y (chain st endNode))
        by (rewrite <- Hy, Hroot; apply rootNode_In).
      apply isAncestorOf_chain in Hin.
      destruct fuel; simpl; rewrite Hin;
        (split; [reflexivity | split; [apply isAncestorOf_chain; exact Hin
                                      | apply chain_In_self]]).
    + destruct (isAncestorOf st endNode y true) eqn:E.
      * apply isAncestorOf_chain in E.
        rewrite (rootNode_ancestor st y endNode Hwf E) in Hroot; tauto.
      * destruct fuel; simpl; rewrite E, Hp; reflexivity.
  - (* a node with a parent *)
    intros y p Hp IH fuel Hlen.
    rewrite (chain_step st Hwf y p Hp), length_app in Hlen; simpl in Hlen.
    destruct (chain_last st p) as [pre Hpre].
    assert (Hlp : 1 <= length (chain st p))
      by (rewrite Hpre, length_app; simpl; lia).
    destruct fuel as [|fuel]; [lia|].
    destruct (IH fuel ltac:(lia)) as [IH1 IH2].
    rewrite (rootNode_child st y p Hwf Hp).
    cbn [findCommonAncestor].
    destruct (isAncestorOf st endNode y true) eqn:E.
    + apply isAncestorOf_chain in E.
      split; intros Hroot.
      * exists y; split; [reflexivity | split; [exact E | apply chain_In_self]].
      * rewrite <- (rootNode_child st y p Hwf Hp) in Hroot.
        rewrite (rootNode_ancestor st y endNode Hwf E) in Hroot; tauto.
    + rewrite Hp; split; intros Hroot.
      * destruct (IH1 Hroot) as (c & Hc & H1 & H2).
        exists c; split; [exact Hc | split; [exact H1|]].
        rewrite (chain_step st Hwf y p Hp); apply in_app_iff; auto.
      * apply IH2; exact Hroot.
Qed.

(** X6. The search for the common ancestor in [extract] and
    [cloneTheContents] ends: for nodes of one tree it gives an inclusive
    ancestor of both the start node and the end node, and for nodes of
    different trees it throws the plain error "Parent node is null.". *)
Theorem findCommonAncestor_ends (st : Store) (startNode endNode : nat) :
  wf st ->
  (rootNode st startNode = rootNode st endNode ->
   exists c, findCommonAncestor (length st) st endNode startNode = Return c
             /\ isAncestorOf st endNode c true = true
             /\ isAncestorOf st startNode c true = true)
  /\ (rootNode st startNode <> rootNode st endNode ->
      findCommonAncestor (length st) st endNode startNode = Fault).
Proof.
  intros Hwf.
  destruct (findCommonAncestor_run st endNode Hwf startNode (length st)
              (length_chain_le st startNode Hwf)) as [H1 H2].
  split; [|exact H2].
  intros Hroot; destruct (H1 Hroot) as (c & Hc & Ha & Hb).
  exists c; rewrite !isAncestorOf_chain; auto.
Qed.

Lemma findCommonAncestor_ends_witness :
  exists c, findCommonAncestor (length sampleTree) sampleTree 4 2 = Return c
            /\ isAncestorOf sampleTree 4 c true = true
            /\ isAncestorOf sampleTree 2 c true = true.
Proof.
  apply (proj1 (findCommonAncestor_ends sampleTree 2 4 wf_sampleTree)).
  reflexivity.
Defined.

End CommonAncestorFacts.

(** ** Contents taken from one character data node *)

Section TextContentsFacts.
Import Tree Mutation RangeAlg.

Lemma substring_all (d : string) : String.substring 0 (String.length d) d = d.
Proof. induction d as [|c d IH]; simpl; [reflexivity | rewrite IH; reflexivity]. Qed.

(** The data before, inside and behind a section make up the data. *)
Lemma substring_three (d : string) :
  forall so eo, so <= eo -> eo <= String.length d ->
    (String.substring 0 so d ++ String.substring so (eo - so) d
     ++ String.substring eo (String.length d - eo) d)%string = d.
Proof.
  induction d as [|c d IH]; intros so eo H1 H2; simpl in H2.
  - assert (eo = 0) by lia; assert (so = 0) by lia; subst; reflexivity.
  - destruct so as [|so].
    + destruct eo as [|eo].
      * simpl; rewrite substring_all; reflexivity.
      * specialize (IH 0 eo ltac:(lia) ltac:(lia)).
        rewrite Nat.sub_0_r in *.
        assert (E0 : forall s, String.substring 0 0 s = EmptyString)
          by (intros []; reflexivity).
        rewrite E0 in *; simpl in *; rewrite IH; reflexivity.
    + destruct eo as [|eo]; [lia|].
      specialize (IH so eo ltac:(lia) ltac:(lia)).
      simpl; rewrite IH; reflexivity.
Qed.

Lemma length_substring (d : string) :
  forall n m, n + m <= String.length d -> String.length (String.substring n m d) = m.
Proof.
  induction d as [|c d IH]; intros n m H; simpl in H.
  - assert (n = 0) by lia; assert (m = 0) by lia; subst; reflexivity.
  - destruct n as [|n]; simpl.
    + destruct m as [|m]; simpl; [reflexivity|].
      rewrite IH by lia; reflexivity.
    + apply IH; lia.
Qed.

Lemma length_append (a b : string) :
  String.length (a ++ b) = String.length a + String.length b.
Proof. induction a as [|c a IH]; simpl; [reflexivity | rewrite IH; reflexivity]. Qed.

Lemma substring_append_l (a b : string) :
  String.substring 0 (String.length a) (a ++ b) = a.
Proof.
  induction a as [|c a IH]; simpl; [destruct b; reflexivity | rewrite IH; reflexivity].
Qed.

Lemma substring_append_r (a b : string) :
  String.substring (String.length a) (String.length b) (a ++ b) = b.
Proof. induction a as [|c a IH]; simpl; [apply substring_all | exact IH]. Qed.

(** The views of a store after a write to one node and after a new node. *)
Lemma dataOf_updNode_other (n m : nat) (f : Node -> Node) (s : Store) :
  m <> n -> dataOf (updNode n f s) m = dataOf s m.
Proof. intros H; unfold dataOf; rewrite getNode_updNode_other by exact H; reflexivity. Qed.

Lemma kindOf_updNode_other (n m : nat) (f : Node -> Node) (s : Store) :
  m <> n -> kindOf (updNode n f s) m = kindOf s m.
Proof. intros H; unfold kindOf; rewrite getNode_updNode_other by exact H; reflexivity. Qed.

Lemma parentOf_updNode_other (n m : nat) (f : Node -> Node) (s : Store) :
  m <> n -> parentOf (updNode n f s) m = parentOf s m.
Proof. intros H; unfold parentOf; rewrite getNode_updNode_other by exact H; reflexivity. Qed.

Lemma childrenOf_updNode_other (n m : nat) (f : Node -> Node) (s : Store) :
  m <> n -> childrenOf (updNode n f s) m = childrenOf s m.
Proof. intros H; unfold childrenOf; rewrite getNode_updNode_other by exact H; reflexivity. Qed.

(** A parentless node that is character data is appended to a parentless
    fragment: it becomes the last child. *)
Lemma appendChild_fresh (s : Store) (f c : nat) :
  f < length s -> c < length s -> f <> c ->
  kindOf s f = DocumentFragment -> parentOf s f = None ->
  Guard.isCharacterDataNode (kindOf s c) = true -> parentOf s c = None ->
  appendChild f c s
  = (updNode c (setParent (Some f))
       (updNode f (setChildren (childrenOf s f ++ [c])) s), Return c).
Proof.
  intros Hf Hc Hne Hkf Hpf Hkc Hpc.
  unfold appendChild, preInsert, ensurePreInsertionValidity, bind, getStore.
  rewrite Hkf; cbn [NodeType_eqb orb negb].
  assert (Ha : isAncestorOf s f c true = false).
  { unfold isAncestorOf.
    apply Nat.eqb_neq in Hne; rewrite Hne; simpl.
    destruct (length s); simpl; rewrite ?Hpf; reflexivity. }
  rewrite Ha.
  assert (Hk : kindOf s c = Text \/ kindOf s c = ProcessingInstruction
               \/ kindOf s c = Comment).
  { destruct (kindOf s c); try discriminate Hkc; auto. }
  assert (Hrun : insertOne c f None s
                 = (updNode c (setParent (Some f))
                      (updNode f (setChildren (childrenOf s f ++ [c])) s),
                    Return tt)).
  { unfold insertOne, detach, bind, getStore, modifyStore, ret.
    rewrite Hpc; unfold refIndex, insertAt.
    rewrite firstn_all, skipn_all; reflexivity. }
  destruct Hk as [E | [E | E]]; rewrite E; cbn; rewrite E; cbn;
    rewrite Hrun; reflexivity.
Qed.

Lemma getNode_withTextClone_old (st : Store) (n m : nat) (mid : string) :
  m < length st -> getNode (withTextClone st n mid) m = getNode st m.
Proof.
  intros H; unfold withTextClone.
  rewrite !getNode_updNode_other by lia.
  rewrite getNode_alloc_old by (rewrite length_app; simpl; lia).
  rewrite getNode_alloc_old by lia; reflexivity.
Qed.

Lemma length_withTextClone (st : Store) (n : nat) (mid : string) :
  length (withTextClone st n mid) = S (S (length st)).
Proof.
  unfold withTextClone; rewrite !length_updNode, !length_app; simpl; lia.
Qed.

Lemma getNode_withTextClone_fragment (st : Store) (n : nat) (mid : string) :
  getNode (withTextClone st n mid) (length st)
  = mkNode DocumentFragment None [S (length st)] EmptyString.
Proof.
  unfold withTextClone.
  rewrite getNode_updNode_other by lia.
  rewrite getNode_updNode_same
    by (rewrite length_updNode, !length_app; simpl; lia).
  rewrite getNode_updNode_other by lia.
  rewrite getNode_alloc_old by (rewrite length_app; simpl; lia).
  rewrite getNode_alloc_new; reflexivity.
Qed.

Lemma getNode_withTextClone_clone (st : Store) (n : nat) (mid : string) :
  getNode (withTextClone st n mid) (S (length st))
  = mkNode (kindOf st n) (Some (length st)) [] mid.
Proof.
  unfold withTextClone.
  rewrite getNode_updNode_same
    by (rewrite !length_updNode, !length_app; simpl; lia).
  rewrite getNode_updNode_other by lia.
  rewrite getNode_updNode_same by (rewrite !length_app; simpl; lia).
  assert (E : S (length st)
              = length (st ++ [mkNode DocumentFragment None [] EmptyString]))
    by (rewrite length_app; simpl; lia).
  rewrite E, getNode_alloc_new; reflexivity.
Qed.

(** Steps 4.1 to 4.3 of [extract] and [cloneTheContents] on a range inside one
    character data node, run after the new fragment has been made; [k] is
    what follows. *)
Lemma text_clone_run {A : Type} (st : Store) (n : nat) (mid : string)
  (k : nat -> M A) :
  n < length st -> Guard.isCharacterDataNode (kindOf st n) = true ->
  (clone <- clone n ;;
   setDataOf clone mid ;;;
   appendChild (length st) clone ;;;
   k clone) (st ++ [mkNode DocumentFragment None [] EmptyString])
  = k (S (length st)) (withTextClone st n mid).
Proof.
  intros Hn Hk.
  unfold clone, alloc, setDataOf, modifyStore, getStore.
  unfold bind at 1 2 3.
  set (s1 := st ++ [mkNode DocumentFragment None [] EmptyString]).
  assert (L1 : length s1 = S (length st))
    by (unfold s1; rewrite length_app; simpl; lia).
  assert (Ek : kindOf s1 n = kindOf st n)
    by (unfold kindOf, s1; rewrite getNode_alloc_old by lia; reflexivity).
  assert (Ed : dataOf s1 n = dataOf st n)
    by (unfold dataOf, s1; rewrite getNode_alloc_old by lia; reflexivity).
  rewrite Ek, Ed, L1.
  set (s2 := s1 ++ [mkNode (kindOf st n) None [] (dataOf st n)]).
  assert (L2 : length s2 = S (S (length st)))
    by (unfold s2; rewrite length_app, L1; simpl; lia).
  set (s3 := updNode (S (length st)) (setData mid) s2).
  assert (L3 : length s3 = S (S (length st)))
    by (unfold s3; rewrite length_updNode; exact L2).
  assert (G3f : getNode s3 (length st) = mkNode DocumentFragment None [] EmptyString).
  { unfold s3; rewrite getNode_updNode_other by lia.
    unfold s2; rewrite getNode_alloc_old by lia.
    unfold s1; apply getNode_alloc_new. }
  assert (G3c : getNode s3 (S (length st)) = mkNode (kindOf st n) None [] mid).
  { unfold s3; rewrite getNode_updNode_same by lia.
    unfold s2; rewrite <- L1, getNode_alloc_new; reflexivity. }
  unfold bind.
  rewrite (appendChild_fresh s3 (length st) (S (length st))); try lia.
  - unfold childrenOf; rewrite G3f; reflexivity.
  - unfold kindOf; rewrite G3f; reflexivity.
  - unfold parentOf; rewrite G3f; reflexivity.
  - unfold kindOf; rewrite G3c; exact Hk.
  - unfold parentOf; rewrite G3c; reflexivity.
Qed.

(** X7. [extract] on a range inside one character data node moves the data
    between the offsets into a clone, the only child of the fragment returned:
    the node keeps the data before and behind the section, putting the data of
    the clone back at the start offset gives the data as it was, and nothing
    else of the nodes there were changes. *)
Theorem extract_within_character_data (fuel : nat) (st : Store) (n so eo : nat) :
  n < length st -> Guard.isCharacterDataNode (kindOf st n) = true ->
  so < eo -> eo <= String.length (dataOf st n) ->
  exists st',
    extract (S fuel) (mkRange (n, so) (n, eo)) st
    = (st', Return (length st, AtNodes (mkRange (n, so) (n, eo))))
    /\ childrenOf st' (length st) = [S (length st)]
    /\ dataOf st' (S (length st)) = String.substring so (eo - so) (dataOf st n)
    /\ (String.substring 0 so (dataOf st' n)
        ++ dataOf st' (S (length st))
        ++ String.substring so (String.length (dataOf st' n) - so) (dataOf st' n))%string
       = dataOf st n
    /\ (forall m, m < length st -> m <> n -> getNode st' m = getNode st m)
    /\ kindOf st' n = kindOf st n /\ parentOf st' n = parentOf st n
    /\ childrenOf st' n = childrenOf st n.
Proof.
  intros Hn Hk Hlt Hle.
  set (d := dataOf st n) in *.
  set (mid := String.substring so (eo - so) d).
  set (w := withTextClone st n mid).
  assert (Hdw : dataOf w n = d)
    by (unfold dataOf, w; rewrite getNode_withTextClone_old by exact Hn; reflexivity).
  exists (updNode n
            (setData (String.substring 0 so d ++ EmptyString
                      ++ String.substring (so + (eo - so))
                           (String.length d - (so + (eo - so))) d)%string) w).
  split.
  - cbn [extract].
    unfold documentFragment, alloc; unfold bind at 1.
    assert (Hc : collapsed (mkRange (n, so) (n, eo)) = false).
    { unfold collapsed, _startNode, _endNode, _startOffset, _endOffset; simpl.
      rewrite Nat.eqb_refl; simpl; apply Nat.eqb_neq; lia. }
    rewrite Hc.
    unfold getStore; unfold bind at 1.
    unfold _startNode, _endNode, _startOffset, _endOffset; cbn [_start _end fst snd].
    assert (Ek : kindOf (st ++ [mkNode DocumentFragment None [] EmptyString]) n
                 = kindOf st n)
      by (unfold kindOf; rewrite getNode_alloc_old by lia; reflexivity).
    assert (Ed : substringData (st ++ [mkNode DocumentFragment None [] EmptyString])
                   n so (eo - so) = mid)
      by (unfold substringData, dataOf; rewrite getNode_alloc_old by lia; reflexivity).
    rewrite Nat.eqb_refl, Ek, Hk, Ed; cbn [andb].
    rewrite (text_clone_run st n mid
               (fun _ => replaceData n so (eo - so) EmptyString ;;;
                         ret (length st, AtNodes (mkRange (n, so) (n, eo)))) Hn Hk).
    unfold replaceData, modifyStore, bind, ret; fold w; rewrite Hdw; reflexivity.
  - assert (Lw : length w = S (S (length st))) by apply length_withTextClone.
    assert (Hpre : String.length (String.substring 0 so d) = so)
      by (apply length_substring; lia).
    assert (Hsuf : String.length (String.substring eo (String.length d - eo) d)
                   = String.length d - eo)
      by (apply length_substring; lia).
    replace (so + (eo - so)) with eo by lia.
    assert (Hdn : dataOf (updNode n
                    (setData (String.substring 0 so d ++ EmptyString
                              ++ String.substring eo (String.length d - eo) d)%string)
                    w) n
                  = (String.substring 0 so d
                     ++ String.substring eo (String.length d - eo) d)%string).
    { unfold dataOf; rewrite getNode_updNode_same by lia; reflexivity. }
    rewrite Hdn.
    repeat split.
    + rewrite childrenOf_updNode_other by lia.
      unfold childrenOf, w; rewrite getNode_withTextClone_fragment; reflexivity.
    + rewrite dataOf_updNode_other by lia.
      unfold dataOf, w; rewrite getNode_withTextClone_clone; reflexivity.
    + rewrite dataOf_updNode_other by lia.
      assert (Hc : dataOf w (S (length st)) = mid)
        by (unfold dataOf, w; rewrite getNode_withTextClone_clone; reflexivity).
      rewrite Hc, length_append, Hpre.
      pose proof (substring_append_l (String.substring 0 so d)
                    (String.substring eo (String.length d - eo) d)) as E1.
      pose proof (substring_append_r (String.substring 0 so d)
                    (String.substring eo (String.length d - eo) d)) as E2.
      rewrite Hpre in E1, E2.
      replace (so + String.length (String.substring eo (String.length d - eo) d) - so)
        with (String.length (String.substring eo (String.length d - eo) d)) by lia.
      rewrite E1, E2.
      apply substring_three; lia.
    + intros m Hm Hne.
      rewrite getNode_updNode_other by exact Hne.
      apply getNode_withTextClone_old; exact Hm.
    + unfold kindOf; rewrite getNode_updNode_same by lia.
      unfold w; rewrite getNode_withTextClone_old by exact Hn; reflexivity.
    + unfold parentOf; rewrite getNode_updNode_same by lia.
      unfold w; rewrite getNode_withTextClone_old by exact Hn; reflexivity.
    + unfold childrenOf; rewrite getNode_updNode_same by lia.
      unfold w; rewrite getNode_withTextClone_old by exact Hn; reflexivity.
Qed.

Lemma extract_within_character_data_witness :
  exists st',
    extract 1 (mkRange (2, 0) (2, 1)) sampleTree
    = (st', Return (6, AtNodes (mkRange (2, 0) (2, 1))))
    /\ childrenOf st' 6 = [7]
    /\ dataOf st' 7 = "a"%string.
Proof.
  destruct (extract_within_character_data 0 sampleTree 2 0 1)
    as (st' & H1 & H2 & H3 & _).
  - simpl; lia.
  - reflexivity.
  - lia.
  - simpl; lia.
  - exists st'; split; [exact H1 | split; [exact H2 | exact H3]].
Defined.

Lemma sourceUnchanged_withTextClone (st : Store) (n : nat) (mid : string) :
  sourceUnchanged st (withTextClone st n mid).
Proof.
  unfold sourceUnchanged, withTextClone, updNode.
  rewrite !take_insert_ge by lia.
  rewrite <- app_assoc; apply take_app_length.
Qed.

(** X8. [cloneTheContents] on a range inside one character data node gives a
    fragment whose only child is a clone of the node with the data between
    the offsets, and leaves the nodes there were as they are.  (The branch of
    step 4 does not return; the steps that follow find nothing to add.) *)
Theorem cloneTheContents_within_character_data
  (fuel : nat) (st : Store) (n so eo : nat) :
  n < length st -> Guard.isCharacterDataNode (kindOf st n) = true ->
  childrenOf st n = [] -> so < eo ->
  exists st',
    cloneTheContents (S fuel) (mkRange (n, so) (n, eo)) st
    = (st', Return (length st))
    /\ sourceUnchanged st st'
    /\ childrenOf st' (length st) = [S (length st)]
    /\ kindOf st' (S (length st)) = kindOf st n
    /\ dataOf st' (S (length st)) = String.substring so (eo - so) (dataOf st n).
Proof.
  intros Hn Hk Hch Hlt.
  set (mid := String.substring so (eo - so) (dataOf st n)).
  exists (withTextClone st n mid).
  split; [|split; [apply sourceUnchanged_withTextClone|]].
  - cbn [cloneTheContents].
    unfold documentFragment, alloc; unfold bind at 1.
    assert (Hc : collapsed (mkRange (n, so) (n, eo)) = false).
    { unfold collapsed, _startNode, _endNode, _startOffset, _endOffset; simpl.
      rewrite Nat.eqb_refl; simpl; apply Nat.eqb_neq; lia. }
    rewrite Hc.
    unfold getStore; unfold bind at 1.
    unfold _startNode, _endNode, _startOffset, _endOffset; cbn [_start _end fst snd].
    set (s1 := st ++ [mkNode DocumentFragment None [] EmptyString]).
    assert (Ek : kindOf s1 n = kindOf st n)
      by (unfold kindOf, s1; rewrite getNode_alloc_old by lia; reflexivity).
    assert (Ed : substringData s1 n so (eo - so) = mid)
      by (unfold substringData, dataOf, s1; rewrite getNode_alloc_old by lia;
          reflexivity).
    assert (Ech : childrenOf s1 n = [])
      by (unfold childrenOf, s1; rewrite getNode_alloc_old by lia; exact Hch).
    assert (Ha : isAncestorOf s1 n n true = true)
      by (unfold isAncestorOf; rewrite Nat.eqb_refl; reflexivity).
    rewrite Nat.eqb_refl, Ek, Hk, Ed, Ha; cbn [andb negb].
    unfold bind at 1.
    pose proof (text_clone_run st n mid (fun _ => ret tt) Hn Hk) as Hrun.
    fold s1 in Hrun; rewrite Hrun; unfold ret at 1.
    unfold liftO at 1; unfold bind at 1.
    assert (Hw : isAncestorOf (withTextClone st n mid) n n true = true)
      by (unfold isAncestorOf; rewrite Nat.eqb_refl; reflexivity).
    assert (Hf : forall fuel', findCommonAncestor fuel' (withTextClone st n mid) n n
                               = Return n)
      by (intros []; simpl; rewrite Hw; reflexivity).
    rewrite Hf, Ech; reflexivity.
  - repeat split.
    + unfold childrenOf; rewrite getNode_withTextClone_fragment; reflexivity.
    + unfold kindOf at 1; rewrite getNode_withTextClone_clone; reflexivity.
    + unfold dataOf at 1; rewrite getNode_withTextClone_clone; reflexivity.
Qed.

Lemma cloneTheContents_within_character_data_witness :
  exists st',
    cloneTheContents 1 (mkRange (2, 0) (2, 1)) sampleTree = (st', Return 6)
    /\ sourceUnchanged sampleTree st'.
Proof.
  destruct (cloneTheContents_within_character_data 0 sampleTree 2 0 1)
    as (st' & H1 & H2 & _).
  - simpl; lia.
  - reflexivity.
  - reflexivity.
  - lia.
  - exists st'; split; [exact H1 | exact H2].
Defined.

End TextContentsFacts.

(** ** Contents: the edge cases of the loops *)

Section ContentsEdgeFacts.
Import Tree Mutation RangeAlg.

(** X9. On a collapsed range [extract] and [cloneTheContents] give a new
    fragment without children; no node there was is touched and the range is
    as it was. *)
Theorem contents_of_collapsed_range (fuel : nat) (st : Store) (r : Range) :
  collapsed r = true ->
  exists st',
    extract (S fuel) r st = (st', Return (length st, AtNodes r))
    /\ cloneTheContents (S fuel) r st = (st', Return (length st))
    /\ sourceUnchanged st st'
    /\ kindOf st' (length st) = DocumentFragment
    /\ childrenOf st' (length st) = []
    /\ length st' = S (length st).
Proof.
  intros Hc.
  exists (st ++ [mkNode DocumentFragment None [] EmptyString]).
  cbn [extract cloneTheContents].
  unfold documentFragment, alloc, bind, ret; rewrite Hc.
  repeat split.
  - unfold sourceUnchanged; apply take_app_length.
  - unfold kindOf; rewrite getNode_alloc_new; reflexivity.
  - unfold childrenOf; rewrite getNode_alloc_new; reflexivity.
  - rewrite length_app; simpl; lia.
Qed.

Lemma contents_of_collapsed_range_witness :
  exists st',
    extract 1 (mkRange (1, 0) (1, 0)) sampleTree
    = (st', Return (6, AtNodes (mkRange (1, 0) (1, 0))))
    /\ cloneTheContents 1 (mkRange (1, 0) (1, 0)) sampleTree = (st', Return 6)
    /\ sourceUnchanged sampleTree st'.
Proof.
  destruct (contents_of_collapsed_range 0 sampleTree (mkRange (1, 0) (1, 0)))
    as (st' & H1 & H2 & H3 & _).
  - reflexivity.
  - exists st'; split; [exact H1 | split; [exact H2 | exact H3]].
Defined.

(** X10. The loop of steps 11 and 12 of [extract] and [cloneTheContents]
    throws [HierarchyRequestError] when a contained child is a doctype, and
    otherwise gives the contained children, all of them, in the order of the
    child list. *)
Theorem containedChildrenOf_filter (st : Store) (r : Range) (children : list nat) :
  containedChildrenOf st r children
  = if existsb (fun c => isContained st c r
                         && Guard.isDocumentTypeNode (kindOf st c)) children
    then Throw HierarchyRequestError
    else Return (List.filter (fun c => isContained st c r) children).
Proof.
  induction children as [|c rest IH]; [reflexivity|].
  cbn [containedChildrenOf existsb List.filter].
  destruct (isContained st c r); cbn [andb orb].
  - destruct (Guard.isDocumentTypeNode (kindOf st c)); cbn [orb]; [reflexivity|].
    rewrite IH.
    destruct (existsb _ rest); reflexivity.
  - exact IH.
Qed.

End ContentsEdgeFacts.

(** ** Tree walker: where a walk can end *)

Section WalkerInvariants.
Import Tree TreeWalkerAlg TreeWalkerChildren.

Variable st : Store.
Hypothesis Hwf : wf st.

Lemma FilterResult_eqb_eq (a b : FilterResult) : FilterResult_eqb a b = true <-> a = b.
Proof. destruct a, b; simpl; split; congruence. Qed.

(** [top] is a proper ancestor of [node]: it is an inclusive ancestor of the
    parent of [node]. *)
Lemma properAncestor_iff (node top : nat) :
  isAncestorOf st node top false = true
  <-> exists p, parentOf st node = Some p /\ In top (chain st p).
Proof.
  unfold isAncestorOf; cbn [andb orb]; rewrite existsb_exists.
  destruct (parentOf st node) as [p|] eqn:Hp.
  - rewrite (ancestorsUp_step st Hwf node p Hp).
    unfold chain; split.
    + intros (y & Hy & E); apply Nat.eqb_eq in E; subst y.
      exists p; split; [reflexivity | rewrite <- in_rev; exact Hy].
    + intros (q & [= <-] & Hin); rewrite <- in_rev in Hin.
      exists top; split; [exact Hin | apply Nat.eqb_refl].
  - assert (E : ancestorsUp st (length st) node = [])
      by (destruct (length st); simpl; rewrite ?Hp; reflexivity).
    rewrite E; split.
    + intros (y & [] & _).
    + intros (q & H & _); discriminate H.
Qed.

Lemma sibling_parent (next : bool) (node s : nat) :
  (if next then _nextSibling st node else _previousSibling st node) = Some s ->
  parentOf st s = parentOf st node.
Proof.
  unfold _nextSibling, _previousSibling, Links.nextSibling, Links.previousSibling.
  destruct (parentOf st node) as [p|] eqn:Hp; [|destruct next; discriminate].
  intros H; apply (wf_child_parent st Hwf).
  destruct (findIndex node (childrenOf st p)) as [i|]; [|destruct next; discriminate].
  destruct next.
  - eapply nth_error_In; eauto.
  - destruct i as [|i]; [discriminate|].
    eapply nth_error_In; eauto.
Qed.

Lemma child_parent (first : bool) (node c : nat) :
  (if first then _firstChild st node else _lastChild st node) = Some c ->
  parentOf st c = Some node.
Proof.
  unfold _firstChild, _lastChild, Links.firstChild, Links.lastChild.
  intros H; apply (wf_child_parent st Hwf).
  destruct first.
  - destruct (childrenOf st node); [discriminate|].
    injection H as ->; left; reflexivity.
  - apply last_Some in H as [l' ->].
    apply in_app_iff; right; left; reflexivity.
Qed.

Lemma chain_proper (n p a : nat) :
  parentOf st n = Some p -> In a (chain st n) -> a <> n -> In a (chain st p).
Proof.
  intros Hp; rewrite (chain_step st Hwf n p Hp), in_app_iff.
  intros [H | [H | []]] Hne; [exact H | congruence].
Qed.

Lemma child_not_in_chain (c a : nat) :
  parentOf st c = Some a -> ~ In c (chain st a).
Proof.
  intros Hc Hin.
  destruct (chain_prefix st Hwf c a Hin) as [rest Hrest].
  rewrite (chain_step st Hwf c a Hc) in Hrest.
  apply (f_equal (@length nat)) in Hrest.
  rewrite !length_app in Hrest; simpl in Hrest; lia.
Qed.

Lemma chain_up (n p a : nat) :
  parentOf st n = Some p -> In a (chain st p) -> In a (chain st n) /\ a <> n.
Proof.
  intros Hp Hin; split.
  - rewrite (chain_step st Hwf n p Hp); apply in_app_iff; auto.
  - intros ->; exact (child_not_in_chain n p Hp Hin).
Qed.

(** A proper ancestor of a node that is not the top has a parent below the
    top. *)
Lemma below_parent (top p : nat) :
  In top (chain st p) -> p <> top ->
  exists q, parentOf st p = Some q /\ In top (chain st q).
Proof.
  intros Hin Hne.
  destruct (chain_cases st Hwf p) as [[_ E] | (q & Hq & E)]; rewrite E in Hin.
  - destruct Hin as [-> | []]; congruence.
  - exists q; split; [exact Hq|].
    apply in_app_iff in Hin as [H | [-> | []]]; [exact H | congruence].
Qed.

(** No node is both above (or at) a node and properly below it. *)
Lemma below_not_above (top a q : nat) :
  In a (chain st top) -> parentOf st a = Some q -> In top (chain st q) -> False.
Proof.
  intros Ha Hq Ht.
  destruct (chain_up a q top Hq Ht) as [Hta Hne].
  destruct (chain_prefix st Hwf a top Ha) as [r1 E1].
  destruct (chain_prefix st Hwf top a Hta) as [r2 E2].
  assert (Hl : length (chain st a) = length (chain st top)).
  { apply (f_equal (@length nat)) in E1, E2; rewrite length_app in E1, E2; lia. }
  destruct r1 as [|x r1].
  - rewrite app_nil_r in E1.
    destruct (chain_last st a) as [pa Ea], (chain_last st top) as [pt Et].
    rewrite Ea, Et in E1; apply app_inj_tail in E1 as [_ E]; congruence.
  - apply (f_equal (@length nat)) in E1; rewrite length_app in E1; simpl in E1; lia.
Qed.

Variable walker : TreeWalker.

(** What holds of the node the loops of [traverseChildren] stand on: it is
    properly below the current node of the walker, and every node between the
    two was skipped by the filter. *)
Let Inv (node : nat) : Prop :=
  (exists p, parentOf st node = Some p /\ In (_current walker) (chain st p))
  /\ (forall a, In a (chain st node) -> a <> node ->
        (exists q, parentOf st a = Some q /\ In (_current walker) (chain st q)) ->
        filter walker a = Skip).

Lemma Inv_sibling (next : bool) (node s : nat) :
  Inv node ->
  (if next then _nextSibling st node else _previousSibling st node) = Some s ->
  Inv s.
Proof.
  intros [(p & Hp & Hc) Hskip] Hs.
  pose proof (sibling_parent next node s Hs) as Hps; rewrite Hp in Hps.
  split; [exists p; auto|].
  intros a Ha Hne Hb.
  pose proof (chain_proper s p a Hps Ha Hne) as Hap.
  destruct (chain_up node p a Hp Hap) as [Han Hnn].
  apply Hskip; assumption.
Qed.

Lemma Inv_child (first : bool) (node c : nat) :
  Inv node -> filter walker node = Skip ->
  (if first then _firstChild st node else _lastChild st node) = Some c ->
  Inv c.
Proof.
  intros [(p & Hp & Hc) Hskip] Hf Hch.
  pose proof (child_parent first node c Hch) as Hpc.
  split.
  - exists node; split; [exact Hpc|].
    apply (chain_up node p _ Hp Hc).
  - intros a Ha Hne Hb.
    pose proof (chain_proper c node a Hpc Ha Hne) as Han.
    destruct (Nat.eq_dec a node) as [-> | Hnn]; [exact Hf|].
    apply Hskip; assumption.
Qed.

Lemma Inv_parent (node p : nat) :
  Inv node -> parentOf st node = Some p -> p <> _current walker -> Inv p.
Proof.
  intros [(p' & Hp' & Hc) Hskip] Hp Hne.
  rewrite Hp in Hp'; injection Hp' as <-.
  split; [apply below_parent; assumption|].
  intros a Ha Hap Hb.
  destruct (chain_up node p a Hp Ha) as [Han Hnn].
  apply Hskip; assumption.
Qed.

Lemma Inv_first (first : bool) (c : nat) :
  (if first then _firstChild st (_current walker)
   else _lastChild st (_current walker)) = Some c ->
  Inv c.
Proof.
  intros Hch.
  pose proof (child_parent first _ c Hch) as Hpc.
  split.
  - exists (_current walker); split; [exact Hpc | apply chain_In_self].
  - intros a Ha Hne (q & Hq & Hin).
    pose proof (chain_proper c _ a Hpc Ha Hne) as Hac.
    destruct (below_not_above (_current walker) a q Hac Hq Hin).
Qed.

Lemma climb_Inv (first : bool) (fuel : nat) :
  forall node s, Inv node ->
    climb fuel st walker first node = Return (Some s) -> Inv s.
Proof.
  induction fuel as [|fuel IH]; intros node s HI; cbn [climb];
    (destruct (if first then _nextSibling st node else _previousSibling st node)
       as [sib|] eqn:Es;
     [intros [= <-]; exact (Inv_sibling first node sib HI Es)|]);
    (destruct (parentOf st node) as [p|] eqn:Hp; [|discriminate]);
    (destruct ((p =? _root walker) || (p =? _current walker)) eqn:E;
     [discriminate|]).
  - discriminate.
  - apply IH.
    apply orb_false_iff in E as [_ E]; apply Nat.eqb_neq in E.
    exact (Inv_parent node p HI Hp E).
Qed.

Lemma childLoop_Inv (first : bool) (fuel : nat) :
  forall node walker' res,
    (forall n, node = Some n -> Inv n) ->
    childLoop fuel st walker first node = (walker', Return res) ->
    match res with
    | Some n => filter walker n = Accept /\ walker' = setCurrent n walker /\ Inv n
    | None => walker' = walker
    end.
Proof.
  induction fuel as [|fuel IH]; intros node walker' res HI;
    (destruct node as [n|]; cbn [childLoop]; [|intros [= <- <-]; reflexivity]).
  - discriminate.
  - specialize (HI n eq_refl).
    destruct (FilterResult_eqb (filter walker n) Accept) eqn:Ea.
    + intros [= <- <-]; apply FilterResult_eqb_eq in Ea; auto.
    + destruct (if FilterResult_eqb (filter walker n) Skip
                then if first then _firstChild st n else _lastChild st n
                else None) as [c|] eqn:Ec.
      * apply IH; intros c' [= <-].
        destruct (FilterResult_eqb (filter walker n) Skip) eqn:Es; [|discriminate].
        apply FilterResult_eqb_eq in Es.
        exact (Inv_child first n c HI Es Ec).
      * destruct (climb fuel st walker first n) as [[s|]| | |] eqn:Ecl;
          try discriminate.
        -- apply IH; intros s' [= <-].
           exact (climb_Inv first fuel n s HI Ecl).
        -- intros [= <- <-]; reflexivity.
Qed.


(** X12. In a well-formed tree, every node between the node the walker stood
    on and the node that [traverseChildren] returns was skipped by the filter:
    the walk enters the children of skipped nodes only, so nothing below a
    rejected node is returned. *)
Theorem traverseChildren_skipped_path
  (first : bool) (fuel : nat) (walker' : TreeWalker) (node : nat) :
  traverseChildren fuel st walker first = (walker', Return (Some node)) ->
  forall a, isAncestorOf st node a false = true ->
            isAncestorOf st a (_current walker) false = true ->
            filter walker a = Skip.
Proof.
  unfold traverseChildren; intros H a Ha Hb.
  apply childLoop_Inv in H; [|intros n Hn; exact (Inv_first first n Hn)].
  destruct H as (_ & _ & _ & Hskip).
  apply properAncestor_iff in Ha as (p & Hp & Hin).
  apply properAncestor_iff in Hb.
  destruct (chain_up node p a Hp Hin) as [Han Hne].
  apply Hskip; assumption.
Qed.

End WalkerInvariants.

Section WalkerChildrenWitnesses.
Import Tree TreeWalkerAlg TreeWalkerChildren.


Lemma traverseChildren_skipped_path_witness : filter skipWalker 1 = Skip.
Proof.
  apply (traverseChildren_skipped_path sampleTree wf_sampleTree skipWalker true 3
           (setCurrent 2 skipWalker) 2 eq_refl 1); reflexivity.
Defined.

End WalkerChildrenWitnesses.

Section WalkerSiblingInvariants.
Import Tree TreeWalkerAlg.

Variable st : Store.
Hypothesis Hwf : wf st.
Variable walker : TreeWalker.







End WalkerSiblingInvariants.

Section WalkerSiblingWitnesses.
Import Tree TreeWalkerAlg.


End WalkerSiblingWitnesses.

(** ** Attributes: views of the state *)

Section AttrViews.
Import ElementAlg ElementAttrs.

Lemma getAttr_insert (s : AttrState) (a x : nat) (v : Attr) (ls : list (list nat))
  (lg : list Entry) :
  getAttr (mkAttrState (<[a := v]> (attrs s)) ls lg) x
  = if (x =? a) && (a <? length (attrs s)) then v else getAttr s x.
Proof.
  unfold getAttr; cbn [attrs].
  destruct (x =? a) eqn:E; cbn [andb].
  - apply Nat.eqb_eq in E; subst x.
    destruct (a <? length (attrs s)) eqn:Ea.
    + apply Nat.ltb_lt in Ea; rewrite list_lookup_insert_eq by exact Ea; reflexivity.
    + apply Nat.ltb_ge in Ea.
      rewrite list_insert_ge by exact Ea; reflexivity.
  - apply Nat.eqb_neq in E.
    rewrite list_lookup_insert_ne by congruence; reflexivity.
Qed.

Lemma attributeList_insert (s : AttrState) (e e' : nat) (l : list nat)
  (ats : list Attr) (lg : list Entry) :
  _attributeList (mkAttrState ats (<[e := l]> (attributeLists s)) lg) e'
  = if (e' =? e) && (e <? length (attributeLists s)) then l else _attributeList s e'.
Proof.
  unfold _attributeList; cbn [attributeLists].
  destruct (e' =? e) eqn:E; cbn [andb].
  - apply Nat.eqb_eq in E; subst e'.
    destruct (e <? length (attributeLists s)) eqn:Ea.
    + apply Nat.ltb_lt in Ea; rewrite list_lookup_insert_eq by exact Ea; reflexivity.
    + apply Nat.ltb_ge in Ea.
      rewrite list_insert_ge by exact Ea; reflexivity.
  - apply Nat.eqb_neq in E.
    rewrite list_lookup_insert_ne by congruence; reflexivity.
Qed.

(** A list that has an entry belongs to an element inside the state. *)
Lemma attributeList_inside (s : AttrState) (e a : nat) :
  In a (_attributeList s e) -> e < length (attributeLists s).
Proof.
  unfold _attributeList; intros H.
  destruct (Nat.lt_ge_cases e (length (attributeLists s))) as [Hlt | Hge]; [exact Hlt|].
  rewrite (lookup_ge_None_2 _ _ Hge) in H; destruct H.
Qed.

(** The states that [append], [remove], [replace] and [change] end in. *)
Lemma attr_append_run (a e : nat) (s : AttrState) :
  append a e s
  = (mkAttrState
       (<[a := withElement (Some e) (getAttr s a)]> (attrs s))
       (<[e := _attributeList s e ++ [a]]> (attributeLists s))
       (log s
        ++ [mkEntry (QueueAttributeMutationRecord e (_localName (getAttr s a))
                       (_namespace (getAttr s a)) None) (attrs s)]
        ++ [mkEntry (RunAttributeChangeSteps e (_localName (getAttr s a)) None
                       (Some (_value (getAttr s a))) (_namespace (getAttr s a)))
              (attrs s)]),
     Return tt).
Proof.
  unfold append, athen, abind, callOut, updList, updAttr; cbn.
  rewrite <- app_assoc; reflexivity.
Qed.

Lemma attr_remove_run (a e : nat) (s : AttrState) :
  remove a e s
  = (mkAttrState
       (<[a := withElement None (getAttr s a)]> (attrs s))
       (<[e := List.filter (fun x => negb (x =? a)) (_attributeList s e)]>
          (attributeLists s))
       (log s
        ++ [mkEntry (QueueAttributeMutationRecord e (_localName (getAttr s a))
                       (_namespace (getAttr s a)) (Some (_value (getAttr s a))))
              (attrs s)]
        ++ [mkEntry (RunAttributeChangeSteps e (_localName (getAttr s a))
                       (Some (_value (getAttr s a))) None (_namespace (getAttr s a)))
              (attrs s)]),
     Return tt).
Proof.
  unfold remove, athen, abind, callOut, updList, updAttr; cbn.
  rewrite <- app_assoc; reflexivity.
Qed.

Lemma attr_replace_run (o n e : nat) (s : AttrState) :
  replace o n e s
  = (mkAttrState
       (<[n := withElement (Some e)
                 (getAttr (mkAttrState
                             (<[o := withElement None (getAttr s o)]> (attrs s))
                             (attributeLists s) (log s)) n)]>
          (<[o := withElement None (getAttr s o)]> (attrs s)))
       (<[e := List.map (fun x => if x =? o then n else x) (_attributeList s e)]>
          (attributeLists s))
       (log s
        ++ [mkEntry (QueueAttributeMutationRecord e (_localName (getAttr s o))
                       (_namespace (getAttr s o)) (Some (_value (getAttr s o))))
              (attrs s)]
        ++ [mkEntry (RunAttributeChangeSteps e (_localName (getAttr s o))
                       (Some (_value (getAttr s o))) (Some (_value (getAttr s n)))
                       (_namespace (getAttr s o)))
              (attrs s)]),
     Return tt).
Proof.
  unfold replace, athen, abind, callOut, updList, updAttr; cbn.
  rewrite <- app_assoc; reflexivity.
Qed.

Lemma attr_change_run (a e : nat) (v : string) (s : AttrState) :
  change a e v s
  = (mkAttrState
       (<[a := withValue v (getAttr s a)]> (attrs s))
       (attributeLists s)
       (log s
        ++ [mkEntry (QueueAttributeMutationRecord e (_localName (getAttr s a))
                       (_namespace (getAttr s a)) (Some (_value (getAttr s a))))
              (attrs s)]
        ++ [mkEntry (RunAttributeChangeSteps e (_localName (getAttr s a))
                       (Some (_value (getAttr s a))) (Some v)
                       (_namespace (getAttr s a)))
              (attrs s)]),
     Return tt).
Proof.
  unfold change, athen, abind, callOut, updAttr; cbn.
  rewrite <- app_assoc; reflexivity.
Qed.

End AttrViews.

(** ** Attributes: setting, looking up, removing *)

Section AttrFacts.
Import ElementAlg ElementAttrs.

Lemma optionString_eqb_eq (a b : option string) : optionString_eqb a b = true <-> a = b.
Proof.
  destruct a as [x|], b as [y|]; simpl; try (split; congruence).
  rewrite String.eqb_eq; split; congruence.
Qed.

Lemma optionString_eqb_refl (a : option string) : optionString_eqb a a = true.
Proof. apply optionString_eqb_eq; reflexivity. Qed.

Lemma orNull_orEmpty (ns : option string) :
  ns <> Some EmptyString -> orNull (orEmpty ns) = ns.
Proof.
  destruct ns as [x|]; simpl; [|reflexivity].
  intros H; unfold orNull.
  destruct (String.eqb x EmptyString) eqn:E; [|reflexivity].
  apply String.eqb_eq in E; congruence.
Qed.

(** No lookup asks for the empty string as namespace. *)
Lemma orNull_not_empty (namespace : string) : orNull namespace <> Some EmptyString.
Proof.
  unfold orNull; destruct (String.eqb namespace EmptyString) eqn:E; [discriminate|].
  apply String.eqb_neq in E; congruence.
Qed.

Lemma lookup_named (s : AttrState) (namespace localName : string) (e : nat) :
  getAnAttributeByNamespaceAndLocalName s namespace localName e
  = List.find (named s (orNull namespace) localName) (_attributeList s e).
Proof. reflexivity. Qed.

(** The names of two attributes the lookup test holds of. *)
Lemma named_same (s : AttrState) (ns : option string) (ln : string) (x y : nat) :
  named s ns ln x = true -> named s ns ln y = true -> nameOf s x = nameOf s y.
Proof.
  unfold named, nameOf; rewrite !andb_true_iff, !optionString_eqb_eq, !String.eqb_eq.
  intros [-> ->] [-> ->]; reflexivity.
Qed.

Lemma named_nameOf (s : AttrState) (x y : nat) :
  nameOf s x = nameOf s y ->
  named s (_namespace (getAttr s y)) (_localName (getAttr s y)) x = true.
Proof.
  unfold named, nameOf; intros [= -> ->].
  rewrite optionString_eqb_refl, String.eqb_refl; reflexivity.
Qed.

Lemma nameOf_insert (s : AttrState) (a x : nat) (v : Attr) (ls : list (list nat))
  (lg : list Entry) :
  (_namespace v, _localName v) = nameOf s a ->
  nameOf (mkAttrState (<[a := v]> (attrs s)) ls lg) x = nameOf s x.
Proof.
  intros Hv; unfold nameOf at 1; rewrite getAttr_insert.
  destruct ((x =? a) && (a <? length (attrs s))) eqn:E; [|reflexivity].
  apply andb_true_iff in E as [E _]; apply Nat.eqb_eq in E; subst x; exact Hv.
Qed.

Lemma named_ext (s s' : AttrState) (ns : option string) (ln : string) :
  (forall x, nameOf s' x = nameOf s x) ->
  forall x, named s' ns ln x = named s ns ln x.
Proof.
  intros H x; specialize (H x); unfold nameOf in H; unfold named.
  injection H as -> ->; reflexivity.
Qed.

(** The attribute objects keep their names in [append], [replace], [remove]
    and [change]. *)
Lemma nameOf_append (a e : nat) (s : AttrState) (x : nat) :
  nameOf (fst (append a e s)) x = nameOf s x.
Proof. rewrite attr_append_run; apply nameOf_insert; reflexivity. Qed.

Lemma nameOf_remove (a e : nat) (s : AttrState) (x : nat) :
  nameOf (fst (remove a e s)) x = nameOf s x.
Proof. rewrite attr_remove_run; apply nameOf_insert; reflexivity. Qed.

Lemma nameOf_change (a e : nat) (v : string) (s : AttrState) (x : nat) :
  nameOf (fst (change a e v s)) x = nameOf s x.
Proof. rewrite attr_change_run; apply nameOf_insert; reflexivity. Qed.

Lemma nameOf_replace (o n e : nat) (s : AttrState) (x : nat) :
  nameOf (fst (replace o n e s)) x = nameOf s x.
Proof.
  rewrite attr_replace_run; cbn [fst].
  set (s1 := mkAttrState (<[o := withElement None (getAttr s o)]> (attrs s))
               (attributeLists s) (log s)).
  assert (H1 : forall y, nameOf s1 y = nameOf s y)
    by (intros y; apply nameOf_insert; reflexivity).
  rewrite <- H1.
  apply (nameOf_insert s1 n x); reflexivity.
Qed.

Lemma find_ext (P Q : nat -> bool) (l : list nat) :
  (forall x, P x = Q x) -> List.find P l = List.find Q l.
Proof.
  intros H; induction l as [|x l IH]; simpl; [reflexivity|].
  rewrite H, IH; reflexivity.
Qed.

Lemma find_replace (P : nat -> bool) (o a : nat) (l : list nat) :
  List.find P l = Some o -> P a = true ->
  List.find P (List.map (fun x => if x =? o then a else x) l) = Some a.
Proof.
  intros Hf Ha.
  pose proof (List.find_some _ _ Hf) as [_ Ho].
  induction l as [|x l IH]; simpl in *; [discriminate|].
  destruct (P x) eqn:Ex.
  - injection Hf as ->; rewrite Nat.eqb_refl, Ha; reflexivity.
  - destruct (x =? o) eqn:E; [apply Nat.eqb_eq in E; congruence|].
    rewrite Ex; apply IH; exact Hf.
Qed.

Lemma find_append_new (P : nat -> bool) (a : nat) (l : list nat) :
  List.find P l = None -> P a = true -> List.find P (l ++ [a]) = Some a.
Proof.
  intros Hf Ha; induction l as [|x l IH]; simpl in *; [rewrite Ha; reflexivity|].
  destruct (P x); [discriminate | apply IH; exact Hf].
Qed.

(** The steps of [setAnAttribute] that a normal return has gone through. *)
Lemma setAnAttribute_Return (attr element : nat) (s s' : AttrState)
  (old : option nat) :
  setAnAttribute attr element s = (s', Return old) ->
  (_element (getAttr s attr) = None \/ _element (getAttr s attr) = Some element)
  /\ old = getAnAttributeByNamespaceAndLocalName s
             (orEmpty (_namespace (getAttr s attr))) (_localName (getAttr s attr))
             element
  /\ ((old = Some attr /\ s' = s)
      \/ (exists o, old = Some o /\ o <> attr /\ s' = fst (replace o attr element s))
      \/ (old = None /\ s' = fst (append attr element s))).
Proof.
  unfold setAnAttribute.
  destruct (_element (getAttr s attr)) as [e0|] eqn:Ee; cbn [option_nat_eqb negb andb].
  - destruct (e0 =? element) eqn:E0; cbn [negb]; [|discriminate].
    apply Nat.eqb_eq in E0; subst e0.
    intros H; split; [auto|]; revert H.
    destruct (getAnAttributeByNamespaceAndLocalName s _ _ element) as [o|];
      cbn [option_nat_eqb].
    + destruct (o =? attr) eqn:Eo.
      * apply Nat.eqb_eq in Eo; subst o; intros [= <- <-]; auto.
      * apply Nat.eqb_neq in Eo; unfold athen, abind, aret.
        rewrite attr_replace_run; intros [= <- <-].
        split; [reflexivity|]; right; left; exists o.
        split; [reflexivity | split; [exact Eo|]].
        rewrite attr_replace_run; reflexivity.
    + unfold athen, abind, aret; rewrite attr_append_run; intros [= <- <-].
      split; [reflexivity|]; right; right.
      split; reflexivity.
  - intros H; split; [auto|]; revert H.
    destruct (getAnAttributeByNamespaceAndLocalName s _ _ element) as [o|];
      cbn [option_nat_eqb].
    + destruct (o =? attr) eqn:Eo.
      * apply Nat.eqb_eq in Eo; subst o; intros [= <- <-]; auto.
      * apply Nat.eqb_neq in Eo; unfold athen, abind, aret.
        rewrite attr_replace_run; intros [= <- <-].
        split; [reflexivity|]; right; left; exists o.
        split; [reflexivity | split; [exact Eo|]].
        rewrite attr_replace_run; reflexivity.
    + unfold athen, abind, aret; rewrite attr_append_run; intros [= <- <-].
      split; [reflexivity|]; right; right.
      split; reflexivity.
Qed.

(** X14. After [setAnAttribute] has returned, the lookup by the namespace and
    local name of the attribute gives the attribute (its namespace not being
    the empty string). *)
Theorem setAnAttribute_then_lookup (attr element : nat) (s s' : AttrState)
  (old : option nat) :
  element < length (attributeLists s) ->
  _namespace (getAttr s attr) <> Some EmptyString ->
  setAnAttribute attr element s = (s', Return old) ->
  getAnAttributeByNamespaceAndLocalName s'
    (orEmpty (_namespace (getAttr s attr))) (_localName (getAttr s attr)) element
  = Some attr.
Proof.
  intros He Hns H.
  apply setAnAttribute_Return in H as (_ & Hold & Hcase).
  rewrite lookup_named in *; rewrite (orNull_orEmpty _ Hns) in *.
  assert (Hattr : named s (_namespace (getAttr s attr)) (_localName (getAttr s attr))
                    attr = true)
    by (apply named_nameOf; reflexivity).
  apply Nat.ltb_lt in He.
  destruct Hcase as [[E ->] | [(o & E & Hne & ->) | [E ->]]]; rewrite E in Hold.
  - symmetry; exact Hold.
  - rewrite (find_ext _ _ _ (named_ext s _ _ _ (nameOf_replace o attr element s))).
    rewrite attr_replace_run; cbn [fst].
    rewrite attributeList_insert, Nat.eqb_refl, He; cbn [andb].
    apply find_replace; [symmetry; exact Hold | exact Hattr].
  - rewrite (find_ext _ _ _ (named_ext s _ _ _ (nameOf_append attr element s))).
    rewrite attr_append_run; cbn [fst].
    rewrite attributeList_insert, Nat.eqb_refl, He; cbn [andb].
    apply find_append_new; [symmetry; exact Hold | exact Hattr].
Qed.

Lemma setAnAttribute_then_lookup_witness :
  getAnAttributeByNamespaceAndLocalName
    (fst (setAnAttribute 2 0 twoAttrState)) EmptyString "id" 0 = Some 2.
Proof.
  apply (setAnAttribute_then_lookup 2 0 twoAttrState
           (fst (setAnAttribute 2 0 twoAttrState)) (Some 0)).
  - simpl; lia.
  - discriminate.
  - reflexivity.
Defined.

(** The back-references and the lists after [replace] and [append]. *)
Lemma element_replace (o n e : nat) (s : AttrState) (x : nat) :
  _element (getAttr (fst (replace o n e s)) x)
  = if (x =? n) && (n <? length (attrs s)) then Some e
    else if (x =? o) && (o <? length (attrs s)) then None
         else _element (getAttr s x).
Proof.
  rewrite attr_replace_run; cbn [fst].
  set (s1 := mkAttrState (<[o := withElement None (getAttr s o)]> (attrs s))
               (attributeLists s) (log s)).
  assert (H1 : forall y, getAttr s1 y
                         = if (y =? o) && (o <? length (attrs s))
                           then withElement None (getAttr s o) else getAttr s y)
    by (intros y; apply getAttr_insert).
  pose proof (getAttr_insert s1 n x (withElement (Some e) (getAttr s1 n))
                (<[e := List.map (fun x => if x =? o then n else x)
                          (_attributeList s e)]> (attributeLists s))
                (log s ++ [mkEntry (QueueAttributeMutationRecord e
                                      (_localName (getAttr s o))
                                      (_namespace (getAttr s o))
                                      (Some (_value (getAttr s o)))) (attrs s)]
                       ++ [mkEntry (RunAttributeChangeSteps e
                                      (_localName (getAttr s o))
                                      (Some (_value (getAttr s o)))
                                      (Some (_value (getAttr s n)))
                                      (_namespace (getAttr s o))) (attrs s)]))
    as H2.
  cbn [attrs s1] in H2; rewrite length_insert in H2.
  rewrite H2.
  destruct ((x =? n) && (n <? length (attrs s))); [reflexivity|].
  rewrite H1.
  destruct ((x =? o) && (o <? length (attrs s))); reflexivity.
Qed.

Lemma list_replace (o n e : nat) (s : AttrState) (e' : nat) :
  _attributeList (fst (replace o n e s)) e'
  = if (e' =? e) && (e <? length (attributeLists s))
    then List.map (fun x => if x =? o then n else x) (_attributeList s e)
    else _attributeList s e'.
Proof. rewrite attr_replace_run; apply attributeList_insert. Qed.

Lemma length_attrs_replace (o n e : nat) (s : AttrState) :
  length (attrs (fst (replace o n e s))) = length (attrs s).
Proof. rewrite attr_replace_run; cbn [fst attrs]; rewrite !length_insert; reflexivity. Qed.

Lemma element_append (a e : nat) (s : AttrState) (x : nat) :
  _element (getAttr (fst (append a e s)) x)
  = if (x =? a) && (a <? length (attrs s)) then Some e else _element (getAttr s x).
Proof.
  rewrite attr_append_run; cbn [fst]; rewrite getAttr_insert.
  destruct ((x =? a) && (a <? length (attrs s))); reflexivity.
Qed.

Lemma list_append (a e : nat) (s : AttrState) (e' : nat) :
  _attributeList (fst (append a e s)) e'
  = if (e' =? e) && (e <? length (attributeLists s))
    then _attributeList s e ++ [a] else _attributeList s e'.
Proof. rewrite attr_append_run; apply attributeList_insert. Qed.

Lemma length_attrs_append (a e : nat) (s : AttrState) :
  length (attrs (fst (append a e s))) = length (attrs s).
Proof. rewrite attr_append_run; cbn [fst attrs]; rewrite length_insert; reflexivity. Qed.

Lemma in_replaced (o n a : nat) (l : list nat) :
  In a (List.map (fun x => if x =? o then n else x) l)
  <-> (a = n /\ In o l) \/ (a <> o /\ In a l).
Proof.
  rewrite in_map_iff; split.
  - intros (x & Hx & Hin).
    destruct (x =? o) eqn:E.
    + apply Nat.eqb_eq in E; subst; auto.
    + apply Nat.eqb_neq in E; subst; auto.
  - intros [[-> Hin] | [Hne Hin]].
    + exists o; rewrite Nat.eqb_refl; auto.
    + exists a; apply Nat.eqb_neq in Hne; rewrite Hne; auto.
Qed.

(** X15. [setAnAttribute] keeps the attribute lists and the back-references of
    the attributes in agreement: if, before the call, an attribute is in the
    list of an element exactly when its [_element] is that element, then so it
    is after the call. *)
Theorem setAnAttribute_keeps_links (attr element : nat) (s s' : AttrState)
  (old : option nat) :
  linked s -> element < length (attributeLists s) ->
  setAnAttribute attr element s = (s', Return old) -> linked s'.
Proof.
  intros Hl He H.
  apply setAnAttribute_Return in H as (Hfree & Hold & Hcase).
  apply Nat.ltb_lt in He.
  assert (Hother : forall e', attr < length (attrs s) -> e' <> element ->
                              ~ In attr (_attributeList s e')).
  { intros e' Ha Hne Hin; apply (Hl attr e' Ha) in Hin.
    destruct Hfree as [E | E]; rewrite E in Hin; congruence. }
  destruct Hcase as [[_ ->] | [(o & E & Hne & ->) | [E ->]]]; [exact Hl | |].
  - (* an attribute [o] of the same name is replaced *)
    rewrite E in Hold; symmetry in Hold.
    rewrite lookup_named in Hold.
    apply List.find_some in Hold as [Hino _].
    intros a e'; rewrite length_attrs_replace, element_replace, list_replace; intros Ha.
    rewrite He, andb_true_r.
    destruct (a =? attr) eqn:Ea; cbn [andb].
    + apply Nat.eqb_eq in Ea; subst a.
      apply Nat.ltb_lt in Ha as Ha'; rewrite Ha'.
      destruct (e' =? element) eqn:Ee.
      * apply Nat.eqb_eq in Ee; subst e'.
        rewrite in_replaced; split; auto.
      * apply Nat.eqb_neq in Ee; split.
        -- intros Hin; destruct (Hother e' Ha Ee Hin).
        -- intros [= ->]; congruence.
    + apply Nat.eqb_neq in Ea.
      destruct (a =? o) eqn:Eo; cbn [andb].
      * apply Nat.eqb_eq in Eo; subst a.
        apply Nat.ltb_lt in Ha as Ha'; rewrite Ha'.
        split; [|discriminate].
        destruct (e' =? element) eqn:Ee.
        -- rewrite in_replaced; intros [[? _] | [? _]]; congruence.
        -- apply Nat.eqb_neq in Ee; intros Hin.
           apply (Hl o e' Ha) in Hin; apply (Hl o element Ha) in Hino; congruence.
      * apply Nat.eqb_neq in Eo.
        rewrite <- (Hl a e' Ha).
        destruct (e' =? element) eqn:Ee; [|reflexivity].
        apply Nat.eqb_eq in Ee; subst e'.
        rewrite in_replaced; split; [intros [[? _] | [_ ?]]; [congruence | auto] | auto].
  - (* the attribute is appended *)
    intros a e'; rewrite length_attrs_append, element_append, list_append; intros Ha.
    rewrite He, andb_true_r.
    destruct (a =? attr) eqn:Ea; cbn [andb].
    + apply Nat.eqb_eq in Ea; subst a.
      apply Nat.ltb_lt in Ha as Ha'; rewrite Ha'.
      destruct (e' =? element) eqn:Ee.
      * apply Nat.eqb_eq in Ee; subst e'.
        rewrite in_app_iff; simpl; split; auto.
      * apply Nat.eqb_neq in Ee; split.
        -- intros Hin; destruct (Hother e' Ha Ee Hin).
        -- intros [= ->]; congruence.
    + apply Nat.eqb_neq in Ea.
      rewrite <- (Hl a e' Ha).
      destruct (e' =? element) eqn:Ee; [|reflexivity].
      apply Nat.eqb_eq in Ee; subst e'.
      rewrite in_app_iff; simpl; split; [intros [? | [? | []]]; [auto | congruence] | auto].
Qed.

Lemma linked_twoAttrState : linked twoAttrState.
Proof.
  intros a e Ha; simpl in Ha.
  destruct a as [|[|[|a]]]; [| | |lia]; destruct e as [|e]; cbv;
    (split; [intros H | intros H; try discriminate H;
                        try (injection H as H; discriminate H); auto]);
    repeat (destruct H as [H | H]; try discriminate H; try reflexivity);
    try destruct H.
Qed.

Lemma setAnAttribute_keeps_links_witness :
  linked (fst (setAnAttribute 2 0 twoAttrState)).
Proof.
  apply (setAnAttribute_keeps_links 2 0 twoAttrState _ (Some 0)).
  - exact linked_twoAttrState.
  - simpl; lia.
  - reflexivity.
Defined.

Lemma NoDup_snoc {A : Type} (l : list A) (x : A) :
  List.NoDup l -> ~ In x l -> List.NoDup (l ++ [x]).
Proof.
  induction l as [|y l IH]; simpl; intros Hn Hx.
  - constructor; [tauto | constructor].
  - inversion Hn as [|? ? Hy Hl]; subst.
    constructor.
    + rewrite in_app_iff; simpl; intros [H | [H | []]]; [tauto | subst; tauto].
    + apply IH; tauto.
Qed.

Lemma namespace_nameOf (s s' : AttrState) (x : nat) :
  nameOf s' x = nameOf s x -> _namespace (getAttr s' x) = _namespace (getAttr s x).
Proof. unfold nameOf; intros [= -> _]; reflexivity. Qed.

(** X16. [setAnAttribute] keeps the attribute list of the element unique by
    namespace and local name and without an attribute whose namespace is the
    empty string (the namespace of the attribute set not being the empty
    string). *)
Theorem setAnAttribute_keeps_names_unique (attr element : nat) (s s' : AttrState)
  (old : option nat) :
  uniqueNames s element ->
  _namespace (getAttr s attr) <> Some EmptyString ->
  setAnAttribute attr element s = (s', Return old) ->
  uniqueNames s' element.
Proof.
  intros [Hnd Hns] Hnsa H.
  apply setAnAttribute_Return in H as (_ & Hold & Hcase).
  rewrite lookup_named, (orNull_orEmpty _ Hnsa) in Hold; symmetry in Hold.
  assert (Hattr : named s (_namespace (getAttr s attr)) (_localName (getAttr s attr))
                    attr = true)
    by (apply named_nameOf; reflexivity).
  destruct Hcase as [[_ ->] | [(o & E & Hne & ->) | [E ->]]]; [split; assumption | |];
    rewrite E in Hold.
  - (* an attribute [o] of the same name is replaced *)
    pose proof (List.find_some _ _ Hold) as [Hino Ho].
    pose proof (attributeList_inside s element o Hino) as He.
    apply Nat.ltb_lt in He.
    unfold uniqueNames.
    rewrite list_replace, Nat.eqb_refl, He; cbn [andb].
    split.
    + rewrite List.map_map.
      rewrite (List.map_ext_in _ (nameOf s)); [exact Hnd|].
      intros x _; rewrite nameOf_replace.
      destruct (x =? o) eqn:Ex; [|reflexivity].
      apply Nat.eqb_eq in Ex; subst x.
      exact (named_same s _ _ attr o Hattr Ho).
    + intros a Ha; rewrite (namespace_nameOf s _ a (nameOf_replace o attr element s a)).
      apply in_replaced in Ha as [[-> _] | [_ Ha]]; auto.
  - (* the attribute is appended *)
    unfold uniqueNames; rewrite list_append, Nat.eqb_refl; cbn [andb].
    assert (Hm : forall l, List.map (nameOf (fst (append attr element s))) l
                           = List.map (nameOf s) l)
      by (intros l; apply List.map_ext; intros x; apply nameOf_append).
    rewrite Hm.
    destruct (element <? length (attributeLists s)).
    + split.
      * rewrite List.map_app; cbn [List.map].
        apply NoDup_snoc; [exact Hnd|].
        intros Hin; apply in_map_iff in Hin as (x & Hx & Hin).
        pose proof (List.find_none _ _ Hold x Hin) as Hf.
        rewrite (named_nameOf s x attr Hx) in Hf; discriminate.
      * intros a Ha; rewrite (namespace_nameOf s _ a (nameOf_append attr element s a)).
        apply in_app_iff in Ha as [Ha | [<- | []]]; auto.
    + split; [exact Hnd|].
      intros a Ha; rewrite (namespace_nameOf s _ a (nameOf_append attr element s a)).
      auto.
Qed.

Lemma uniqueNames_twoAttrState : uniqueNames twoAttrState 0.
Proof.
  split.
  - cbv; repeat constructor; simpl; intuition discriminate.
  - intros a [<- | [<- | []]]; discriminate.
Qed.

Lemma setAnAttribute_keeps_names_unique_witness :
  uniqueNames (fst (setAnAttribute 2 0 twoAttrState)) 0.
Proof.
  apply (setAnAttribute_keeps_names_unique 2 0 twoAttrState _ (Some 0)).
  - exact uniqueNames_twoAttrState.
  - discriminate.
  - reflexivity.
Defined.

Lemma getAttr_updAttr (a : nat) (f : Attr -> Attr) (t : AttrState) (x : nat) :
  getAttr (fst (updAttr a f t)) x
  = if (x =? a) && (a <? length (attrs t)) then f (getAttr t a) else getAttr t x.
Proof. unfold updAttr; cbn [fst]; apply getAttr_insert. Qed.

Lemma getAttr_append (a e : nat) (t : AttrState) (x : nat) :
  getAttr (fst (append a e t)) x
  = if (x =? a) && (a <? length (attrs t))
    then withElement (Some e) (getAttr t a) else getAttr t x.
Proof. rewrite attr_append_run; cbn [fst]; apply getAttr_insert. Qed.

Lemma find_ext_in (P Q : nat -> bool) (l : list nat) :
  (forall x, In x l -> P x = Q x) -> List.find P l = List.find Q l.
Proof.
  intros H; induction l as [|x l IH]; simpl; [reflexivity|].
  rewrite (H x) by (left; reflexivity).
  rewrite IH; [reflexivity|].
  intros y Hy; apply H; right; exact Hy.
Qed.

Lemma find_append_other (P : nat -> bool) (a : nat) (l : list nat) :
  P a = false -> List.find P (l ++ [a]) = List.find P l.
Proof.
  intros Ha; induction l as [|x l IH]; simpl; [rewrite Ha; reflexivity|].
  destruct (P x); [reflexivity | exact IH].
Qed.

(** The state after [setAnAttributeValue] has made and appended a new
    attribute: the new attribute object, the objects there were, and the
    lists. *)
Lemma setAnAttributeValue_new (element : nat) (localName value : string)
  (prefix namespace : option string) (s : AttrState) :
  getAnAttributeByNamespaceAndLocalName s (orEmpty namespace) localName element = None ->
  getAttr (fst (setAnAttributeValue element localName value prefix namespace s))
    (length (attrs s))
  = mkAttr localName namespace prefix value (Some element)
  /\ (forall x, x < length (attrs s) ->
        getAttr (fst (setAnAttributeValue element localName value prefix namespace s)) x
        = getAttr s x)
  /\ (forall e',
        _attributeList
          (fst (setAnAttributeValue element localName value prefix namespace s)) e'
        = if (e' =? element) && (element <? length (attributeLists s))
          then _attributeList s element ++ [length (attrs s)]
          else _attributeList s e').
Proof.
  intros Hnone.
  set (n := length (attrs s)).
  set (s1 := mkAttrState (attrs s ++ [mkAttr localName None None EmptyString None])
               (attributeLists s) (log s)).
  set (s2 := fst (updAttr n (withNamespace namespace) s1)).
  set (s3 := fst (updAttr n (withNamespacePrefix prefix) s2)).
  set (s4 := fst (updAttr n (withValue value) s3)).
  assert (Hs : fst (setAnAttributeValue element localName value prefix namespace s)
               = fst (append n element s4))
    by (unfold setAnAttributeValue; rewrite Hnone; reflexivity).
  rewrite Hs.
  assert (L1 : length (attrs s1) = S n)
    by (unfold s1; cbn [attrs]; rewrite length_app; simpl; lia).
  assert (G1 : getAttr s1 n = mkAttr localName None None EmptyString None).
  { unfold getAttr, s1; cbn [attrs].
    rewrite lookup_app_r by (unfold n; lia).
    unfold n; rewrite Nat.sub_diag; reflexivity. }
  assert (O1 : forall x, x < n -> getAttr s1 x = getAttr s x).
  { intros x Hx; unfold getAttr, s1; cbn [attrs].
    rewrite lookup_app_l by exact Hx; reflexivity. }
  assert (Lt : (n <? S n) = true) by (apply Nat.ltb_lt; lia).
  assert (L2 : length (attrs s2) = S n)
    by (unfold s2, updAttr; cbn [fst attrs]; rewrite length_insert; exact L1).
  assert (L3 : length (attrs s3) = S n)
    by (unfold s3, updAttr; cbn [fst attrs]; rewrite length_insert; exact L2).
  assert (L4 : length (attrs s4) = S n)
    by (unfold s4, updAttr; cbn [fst attrs]; rewrite length_insert; exact L3).
  assert (G4 : getAttr s4 n = mkAttr localName namespace prefix value None).
  { unfold s4; rewrite getAttr_updAttr, Nat.eqb_refl, L3, Lt; cbn [andb].
    unfold s3; rewrite getAttr_updAttr, Nat.eqb_refl, L2, Lt; cbn [andb].
    unfold s2; rewrite getAttr_updAttr, Nat.eqb_refl, L1, Lt; cbn [andb].
    rewrite G1; reflexivity. }
  assert (O4 : forall x, x < n -> getAttr s4 x = getAttr s x).
  { intros x Hx.
    assert (Ex : (x =? n) = false) by (apply Nat.eqb_neq; lia).
    unfold s4; rewrite getAttr_updAttr, Ex; cbn [andb].
    unfold s3; rewrite getAttr_updAttr, Ex; cbn [andb].
    unfold s2; rewrite getAttr_updAttr, Ex; cbn [andb].
    apply O1; exact Hx. }
  assert (A4 : attributeLists s4 = attributeLists s) by reflexivity.
  repeat split.
  - rewrite getAttr_append, Nat.eqb_refl, L4, Lt; cbn [andb].
    rewrite G4; reflexivity.
  - intros x Hx.
    assert (Ex : (x =? n) = false) by (apply Nat.eqb_neq; lia).
    rewrite getAttr_append, Ex; cbn [andb].
    apply O4; exact Hx.
  - intros e'; rewrite list_append, A4.
    unfold _attributeList; rewrite A4; reflexivity.
Qed.

(** X17. After [setAnAttributeValue], the value read by
    [getAnAttributeValue] under the same local name and namespace is the value
    that was set (the namespace not being the empty string, and the list of
    the element holding attribute objects that exist). *)
Theorem setAnAttributeValue_then_get (element : nat) (localName value : string)
  (prefix namespace : option string) (s : AttrState) :
  element < length (attributeLists s) ->
  (forall a, In a (_attributeList s element) -> a < length (attrs s)) ->
  namespace <> Some EmptyString ->
  getAnAttributeValue
    (fst (setAnAttributeValue element localName value prefix namespace s))
    element localName (orEmpty namespace)
  = value.
Proof.
  intros He Hin Hns.
  unfold getAnAttributeValue.
  destruct (getAnAttributeByNamespaceAndLocalName s (orEmpty namespace) localName
              element) as [a|] eqn:Hl.
  - (* the attribute is there: its value is changed *)
    assert (Hs' : fst (setAnAttributeValue element localName value prefix namespace s)
                  = fst (change a element value s))
      by (unfold setAnAttributeValue; rewrite Hl; reflexivity).
    rewrite Hs', lookup_named.
    rewrite (find_ext _ _ _ (named_ext s _ _ _ (nameOf_change a element value s))).
    assert (El : _attributeList (fst (change a element value s)) element
                 = _attributeList s element)
      by (rewrite attr_change_run; reflexivity).
    rewrite El, <- lookup_named, Hl.
    rewrite attr_change_run; cbn [fst].
    rewrite getAttr_insert, Nat.eqb_refl.
    rewrite lookup_named in Hl; apply List.find_some in Hl as [Ha _].
    apply Hin, Nat.ltb_lt in Ha; rewrite Ha; reflexivity.
  - (* a new attribute is made and appended *)
    destruct (setAnAttributeValue_new element localName value prefix namespace s Hl)
      as (Gn & Go & Gl).
    rewrite lookup_named, Gl, Nat.eqb_refl.
    apply Nat.ltb_lt in He; rewrite He; cbn [andb].
    rewrite lookup_named in Hl.
    rewrite (find_append_new _ (length (attrs s))).
    + rewrite Gn; reflexivity.
    + rewrite <- Hl; apply find_ext_in.
      intros x Hx; unfold named; rewrite (Go x (Hin x Hx)); reflexivity.
    + unfold named; rewrite Gn; cbn [_namespace _localName].
      rewrite (orNull_orEmpty _ Hns), optionString_eqb_refl, String.eqb_refl.
      reflexivity.
Qed.

Lemma setAnAttributeValue_then_get_witness :
  getAnAttributeValue
    (fst (setAnAttributeValue 0 "title" "t" None None twoAttrState)) 0 "title"
    EmptyString
  = "t"%string.
Proof.
  apply (setAnAttributeValue_then_get 0 "title" "t" None None twoAttrState).
  - simpl; lia.
  - simpl; intros a [<- | [<- | []]]; lia.
  - discriminate.
Defined.

(** X18. With the empty string given as namespace, and no attribute of the
    local name without namespace there, [setAnAttributeValue] appends a new
    attribute whose namespace is the empty string; no lookup by namespace and
    local name finds this attribute (the lookups turn the empty string into
    null), so the value set is not read back. *)
Theorem setAnAttributeValue_empty_namespace (element : nat)
  (localName value : string) (prefix : option string) (s : AttrState) :
  element < length (attributeLists s) ->
  (forall a, In a (_attributeList s element) -> a < length (attrs s)) ->
  getAnAttributeByNamespaceAndLocalName s EmptyString localName element = None ->
  _attributeList
    (fst (setAnAttributeValue element localName value prefix (Some EmptyString) s))
    element
  = _attributeList s element ++ [length (attrs s)]
  /\ _namespace
       (getAttr
          (fst (setAnAttributeValue element localName value prefix (Some EmptyString) s))
          (length (attrs s)))
     = Some EmptyString
  /\ (forall ns ln,
        getAnAttributeByNamespaceAndLocalName
          (fst (setAnAttributeValue element localName value prefix (Some EmptyString) s))
          ns ln element
        = getAnAttributeByNamespaceAndLocalName s ns ln element)
  /\ getAnAttributeValue
       (fst (setAnAttributeValue element localName value prefix (Some EmptyString) s))
       element localName EmptyString
     = EmptyString.
Proof.
  intros He Hin Hl.
  destruct (setAnAttributeValue_new element localName value prefix (Some EmptyString)
              s Hl) as (Gn & Go & Gl).
  apply Nat.ltb_lt in He.
  assert (Hlook : forall ns ln,
             getAnAttributeByNamespaceAndLocalName
               (fst (setAnAttributeValue element localName value prefix
                       (Some EmptyString) s)) ns ln element
             = getAnAttributeByNamespaceAndLocalName s ns ln element).
  { intros ns ln; rewrite !lookup_named, Gl, Nat.eqb_refl, He; cbn [andb].
    rewrite find_append_other.
    - apply find_ext_in; intros x Hx; unfold named; rewrite (Go x (Hin x Hx)).
      reflexivity.
    - unfold named; rewrite Gn; cbn [_namespace].
      destruct (optionString_eqb (Some EmptyString) (orNull ns)) eqn:E; [|reflexivity].
      apply optionString_eqb_eq in E; symmetry in E.
      destruct (orNull_not_empty ns E). }
  split; [rewrite Gl, Nat.eqb_refl, He; reflexivity|].
  split; [rewrite Gn; reflexivity|].
  split; [exact Hlook|].
  unfold getAnAttributeValue; rewrite Hlook, Hl; reflexivity.
Qed.

Lemma setAnAttributeValue_empty_namespace_witness :
  getAnAttributeValue
    (fst (setAnAttributeValue 0 "title" "t" None (Some EmptyString) twoAttrState))
    0 "title" EmptyString
  = EmptyString.
Proof.
  apply (setAnAttributeValue_empty_namespace 0 "title" "t" None twoAttrState).
  - simpl; lia.
  - simpl; intros a [<- | [<- | []]]; lia.
  - reflexivity.
Defined.

Lemma find_all_false (P : nat -> bool) (l : list nat) :
  (forall x, In x l -> P x = false) -> List.find P l = None.
Proof.
  intros H; induction l as [|x l IH]; simpl; [reflexivity|].
  rewrite (H x) by (left; reflexivity).
  apply IH; intros y Hy; apply H; right; exact Hy.
Qed.

Lemma NoDup_map_same {A : Type} (f : nat -> A) (l : list nat) (x y : nat) :
  List.NoDup (List.map f l) -> In x l -> In y l -> f x = f y -> x = y.
Proof.
  induction l as [|z l IH]; simpl; [tauto|].
  intros Hn Hx Hy E; inversion Hn as [|? ? Hz Hl]; subst.
  destruct Hx as [-> | Hx], Hy as [-> | Hy]; auto.
  - exfalso; apply Hz; rewrite E; apply in_map; exact Hy.
  - exfalso; apply Hz; rewrite <- E; apply in_map; exact Hx.
Qed.

Lemma NoDup_map_filter {A : Type} (f : nat -> A) (p : nat -> bool) (l : list nat) :
  List.NoDup (List.map f l) -> List.NoDup (List.map f (List.filter p l)).
Proof.
  induction l as [|z l IH]; simpl; [auto|].
  intros Hn; inversion Hn as [|? ? Hz Hl]; subst.
  destruct (p z); simpl; [|auto].
  constructor; [|auto].
  intros Hin; apply Hz.
  apply in_map_iff in Hin as (x & Hx & Hin).
  apply List.filter_In in Hin as [Hin _].
  rewrite <- Hx; apply in_map; exact Hin.
Qed.

Lemma list_remove (a e : nat) (s : AttrState) (e' : nat) :
  _attributeList (fst (remove a e s)) e'
  = if (e' =? e) && (e <? length (attributeLists s))
    then List.filter (fun x => negb (x =? a)) (_attributeList s e)
    else _attributeList s e'.
Proof. rewrite attr_remove_run; apply attributeList_insert. Qed.

(** X19. On an attribute list that is unique by namespace and local name
    and holds no attribute whose namespace is the empty string,
    [removeAnAttributeByNamespaceAndLocalName] returns the attribute the
    lookup gives (null when there is none, and then the state is as it was);
    after the call the lookup gives null, the attribute returned is not in the
    list and has no element, and the list is still unique by name. *)
Theorem removeAnAttributeByNamespaceAndLocalName_removes
  (namespace localName : string) (element : nat) (s : AttrState) :
  uniqueNames s element ->
  snd (removeAnAttributeByNamespaceAndLocalName namespace localName element s)
  = Return (getAnAttributeByNamespaceAndLocalName s namespace localName element)
  /\ getAnAttributeByNamespaceAndLocalName
       (fst (removeAnAttributeByNamespaceAndLocalName namespace localName element s))
       namespace localName element
     = None
  /\ uniqueNames
       (fst (removeAnAttributeByNamespaceAndLocalName namespace localName element s))
       element
  /\ match getAnAttributeByNamespaceAndLocalName s namespace localName element with
     | None =>
         fst (removeAnAttributeByNamespaceAndLocalName namespace localName element s)
         = s
     | Some a =>
         has (fst (removeAnAttributeByNamespaceAndLocalName namespace localName
                     element s)) a element = false
         /\ (a < length (attrs s) ->
             _element
               (getAttr
                  (fst (removeAnAttributeByNamespaceAndLocalName namespace localName
                          element s)) a)
             = None)
     end.
Proof.
  intros [Hnd Hns].
  unfold removeAnAttributeByNamespaceAndLocalName.
  destruct (getAnAttributeByNamespaceAndLocalName s namespace localName element)
    as [a|] eqn:Hl.
  - assert (Hr : athen (remove a element) (aret (Some a)) s
                 = (fst (remove a element s), Return (Some a)))
      by (unfold athen, abind, aret; rewrite attr_remove_run; reflexivity).
    rewrite Hr; cbn [fst snd].
    rewrite lookup_named in Hl.
    pose proof (List.find_some _ _ Hl) as [Hin Ha].
    pose proof (attributeList_inside s element a Hin) as He.
    apply Nat.ltb_lt in He.
    assert (El : _attributeList (fst (remove a element s)) element
                 = List.filter (fun x => negb (x =? a)) (_attributeList s element))
      by (rewrite list_remove, Nat.eqb_refl, He; reflexivity).
    split; [reflexivity|].
    split; [|split; [|split]].
    + rewrite lookup_named, El.
      rewrite (find_ext _ _ _ (named_ext s _ _ _ (nameOf_remove a element s))).
      apply find_all_false; intros x Hx.
      apply List.filter_In in Hx as [Hx Hne].
      apply negb_true_iff, Nat.eqb_neq in Hne.
      destruct (named s (orNull namespace) localName x) eqn:Ex; [|reflexivity].
      destruct Hne.
      apply (NoDup_map_same (nameOf s) (_attributeList s element)); auto.
      exact (named_same s _ _ x a Ex Ha).
    + unfold uniqueNames; rewrite El; split.
      * rewrite (List.map_ext _ (nameOf s))
          by (intros x; apply nameOf_remove).
        apply NoDup_map_filter; exact Hnd.
      * intros x Hx; apply List.filter_In in Hx as [Hx _].
        rewrite (namespace_nameOf s _ x (nameOf_remove a element s x)); auto.
    + unfold has; rewrite El.
      apply not_true_is_false; intros Hex.
      apply existsb_exists in Hex as (x & Hx & E).
      apply Nat.eqb_eq in E; subst x.
      apply List.filter_In in Hx as [_ Hne].
      rewrite Nat.eqb_refl in Hne; discriminate.
    + intros Hlt; rewrite attr_remove_run; cbn [fst].
      rewrite getAttr_insert, Nat.eqb_refl.
      apply Nat.ltb_lt in Hlt; rewrite Hlt; reflexivity.
  - cbn [fst snd].
    split; [reflexivity|].
    split; [exact Hl|].
    split; [split; assumption | reflexivity].
Qed.

Lemma removeAnAttributeByNamespaceAndLocalName_removes_witness :
  getAnAttributeByNamespaceAndLocalName
    (fst (removeAnAttributeByNamespaceAndLocalName EmptyString "id" 0 twoAttrState))
    EmptyString "id" 0
  = None.
Proof.
  exact (proj1 (proj2 (removeAnAttributeByNamespaceAndLocalName_removes EmptyString
                         "id" 0 twoAttrState uniqueNames_twoAttrState))).
Defined.

End AttrFacts.

(** ** Ranges: the ends stay sound *)

Section SoundRangeFacts.
Import Tree BoundaryPointAlg RangeAlg.

(** X20. [setTheStart], [setTheEnd] and [select] keep a range sound: after a
    normal return the two ends are in one tree and each offset is within the
    length of its node. *)
Theorem range_ends_stay_sound (st : Store) (r r' : Range) (n k : nat) :
  wf st -> soundRange st r ->
  setTheStart st r n k = (r', Return tt)
  \/ setTheEnd st r n k = (r', Return tt)
  \/ select st n r = (r', Return tt) ->
  soundRange st r'.
Proof.
  intros Hwf (Hroot & Hso & Heo) [H | [H | H]];
    unfold _startNode, _endNode, _startOffset, _endOffset in Hroot, Hso, Heo.
  - unfold setTheStart, Guard.isDocumentTypeNodeOfNumber in H.
    destruct (nodeLength st n <? k) eqn:Ek; [discriminate|].
    apply Nat.ltb_ge in Ek.
    destruct (positionCall st (n, k) (_end r)) as [pos| | |]; try discriminate.
    destruct (BoundaryPosition_eqb pos After
              || negb (root st r =? rootNode st n)) eqn:Ec;
      injection H as <-; unfold soundRange, set_start, set_end,
        _startNode, _endNode, _startOffset, _endOffset; cbn [_start _end fst snd].
    + auto.
    + apply orb_false_iff in Ec as [_ Ec].
      apply negb_false_iff, Nat.eqb_eq in Ec.
      unfold root, _startNode in Ec.
      repeat split; [congruence | exact Ek | exact Heo].
  - unfold setTheEnd, Guard.isDocumentTypeNodeOfNumber in H.
    destruct (nodeLength st n <? k) eqn:Ek; [discriminate|].
    apply Nat.ltb_ge in Ek.
    destruct (positionCall st (n, k) (_start r)) as [pos| | |]; try discriminate.
    destruct (BoundaryPosition_eqb pos Before
              || negb (root st r =? rootNode st n)) eqn:Ec;
      injection H as <-; unfold soundRange, set_start, set_end,
        _startNode, _endNode, _startOffset, _endOffset; cbn [_start _end fst snd].
    + auto.
    + apply orb_false_iff in Ec as [_ Ec].
      apply negb_false_iff, Nat.eqb_eq in Ec.
      unfold root, _startNode in Ec.
      repeat split; [exact Ec | exact Hso | exact Ek].
  - unfold select in H.
    destruct (parentOf st n) as [p|] eqn:Hp; [|discriminate].
    injection H as <-.
    pose proof (index_lt_length st n p Hwf Hp) as Hlt.
    unfold soundRange, _startNode, _endNode, _startOffset, _endOffset;
      cbn [_start _end fst snd].
    repeat split; lia.
Qed.

Lemma range_ends_stay_sound_witness :
  soundRange sampleTree (mkRange (2, 1) (0, 2)).
Proof.
  apply (range_ends_stay_sound sampleTree (mkRange (0, 0) (0, 2)) _ 2 1
           wf_sampleTree).
  - unfold soundRange; split; [reflexivity | split; vm_compute; lia].
  - left; reflexivity.
Defined.

End SoundRangeFacts.

(** ** Attributes: lookup and removal by qualified name *)

Section AttrByNameFacts.
Import ElementAlg ElementAttrs Adjacent.

Lemma lowerAscii_idempotent (c : ascii) : lowerAscii (lowerAscii c) = lowerAscii c.
Proof. destruct c as [[] [] [] [] [] [] [] []]; reflexivity. Qed.

Lemma toLowerCase_idempotent (q : string) : toLowerCase (toLowerCase q) = toLowerCase q.
Proof.
  induction q as [|c q IH]; simpl; [reflexivity|].
  rewrite lowerAscii_idempotent, IH; reflexivity.
Qed.

(** X21. With a lowering of names that leaves lowered names as they are: for
    an element in the HTML namespace whose document is an HTML document,
    [getAnAttributeByName] looks for the lowered name, so that it does not
    tell apart two names with the same lowered form, and finds only attributes
    whose qualified name is its own lowered form; for every other element the
    name is compared as it is given. *)
Theorem getAnAttributeByName_folds_case (lower : string -> string)
  (_qualifiedName : nat -> string) (s : AttrState) (element : nat) :
  (forall q, lower (lower q) = lower q) ->
  (forall q,
     getAnAttributeByName lower _qualifiedName s (Some HTML) "html" q element
     = getAnAttributeByName lower _qualifiedName s (Some HTML) "html" (lower q) element)
  /\ (forall q q',
        lower q = lower q' ->
        getAnAttributeByName lower _qualifiedName s (Some HTML) "html" q element
        = getAnAttributeByName lower _qualifiedName s (Some HTML) "html" q' element)
  /\ (forall q a,
        getAnAttributeByName lower _qualifiedName s (Some HTML) "html" q element
        = Some a ->
        _qualifiedName a = lower q /\ lower (_qualifiedName a) = _qualifiedName a)
  /\ (forall ns ty q,
        ns <> Some HTML \/ ty <> "html"%string ->
        getAnAttributeByName lower _qualifiedName s ns ty q element
        = List.find (fun attr => String.eqb (_qualifiedName attr) q)
            (_attributeList s element)).
Proof.
  intros Hidem.
  unfold getAnAttributeByName; repeat split.
  - intros q; rewrite optionString_eqb_refl, String.eqb_refl; cbn [andb].
    rewrite Hidem; reflexivity.
  - intros q q' E; rewrite optionString_eqb_refl, String.eqb_refl; cbn [andb].
    rewrite E; reflexivity.
  - revert H; rewrite optionString_eqb_refl, String.eqb_refl; cbn [andb].
    intros H; apply List.find_some in H as [_ H].
    apply String.eqb_eq in H; exact H.
  - revert H; rewrite optionString_eqb_refl, String.eqb_refl; cbn [andb].
    intros H; apply List.find_some in H as [_ H].
    apply String.eqb_eq in H; rewrite H; apply Hidem.
  - intros ns ty q H.
    assert (E : optionString_eqb ns (Some HTML) && String.eqb ty "html" = false).
    { apply andb_false_iff; destruct H as [H | H]; [left | right].
      - apply not_true_is_false; intros E; apply optionString_eqb_eq in E; auto.
      - apply String.eqb_neq; exact H. }
    rewrite E; reflexivity.
Qed.

(** X21 with the lowering of the ASCII letters, on an HTML element with the
    attributes [id] and [class]: the name "ID" finds [id]. *)
Lemma getAnAttributeByName_folds_case_witness :
  getAnAttributeByName toLowerCase (fun a => _localName (getAttr twoAttrState a))
    twoAttrState (Some HTML) "html" "ID" 0
  = Some 0.
Proof.
  rewrite (proj1 (getAnAttributeByName_folds_case toLowerCase
                    (fun a => _localName (getAttr twoAttrState a))
                    twoAttrState 0 toLowerCase_idempotent) "ID"%string).
  reflexivity.
Defined.

(** X22. [removeAnAttributeByName] returns the attribute that
    [getAnAttributeByName] gives.  When there is none the state is as it was;
    otherwise the attribute has left the list of the element, the other
    entries keeping their order, it has no element any more, and no other
    attribute object is changed. *)
Theorem removeAnAttributeByName_removes (toLowerCase : string -> string)
  (_qualifiedName : nat -> string)
  (ns : option string) (ty q : string) (element : nat) (s : AttrState) :
  snd (removeAnAttributeByName toLowerCase _qualifiedName ns ty q element s)
  = Return (getAnAttributeByName toLowerCase _qualifiedName s ns ty q element)
  /\ match getAnAttributeByName toLowerCase _qualifiedName s ns ty q element with
     | None => fst (removeAnAttributeByName toLowerCase _qualifiedName ns ty q element s) = s
     | Some a =>
         _attributeList (fst (removeAnAttributeByName toLowerCase _qualifiedName ns ty q element s))
           element
         = List.filter (fun x => negb (x =? a)) (_attributeList s element)
         /\ has (fst (removeAnAttributeByName toLowerCase _qualifiedName ns ty q element s))
              a element = false
         /\ (a < length (attrs s) ->
             _element
               (getAttr (fst (removeAnAttributeByName toLowerCase _qualifiedName ns ty q element s))
                  a) = None)
         /\ (forall x, x <> a ->
               getAttr (fst (removeAnAttributeByName toLowerCase _qualifiedName ns ty q element s)) x
               = getAttr s x)
     end.
Proof.
  unfold removeAnAttributeByName.
  destruct (getAnAttributeByName toLowerCase _qualifiedName s ns ty q element) as [a|] eqn:Hl;
    [|split; reflexivity].
  assert (Hr : athen (remove a element) (aret (Some a)) s
               = (fst (remove a element s), Return (Some a)))
    by (unfold athen, abind, aret; rewrite attr_remove_run; reflexivity).
  rewrite Hr; cbn [fst snd].
  unfold getAnAttributeByName in Hl.
  apply List.find_some in Hl as [Hin _].
  pose proof (attributeList_inside s element a Hin) as He.
  apply Nat.ltb_lt in He.
  assert (El : _attributeList (fst (remove a element s)) element
               = List.filter (fun x => negb (x =? a)) (_attributeList s element))
    by (rewrite list_remove, Nat.eqb_refl, He; reflexivity).
  split; [reflexivity|].
  split; [exact El|].
  split; [|split].
  - unfold has; rewrite El.
    apply not_true_is_false; intros Hex.
    apply existsb_exists in Hex as (x & Hx & E).
    apply Nat.eqb_eq in E; subst x.
    apply List.filter_In in Hx as [_ Hne].
    rewrite Nat.eqb_refl in Hne; discriminate.
  - intros Hlt; rewrite attr_remove_run; cbn [fst].
    rewrite getAttr_insert, Nat.eqb_refl.
    apply Nat.ltb_lt in Hlt; rewrite Hlt; reflexivity.
  - intros x Hx; rewrite attr_remove_run; cbn [fst].
    rewrite getAttr_insert.
    apply Nat.eqb_neq in Hx; rewrite Hx; reflexivity.
Qed.

End AttrByNameFacts.

(** ** What a range contains: below a contained node *)

Section ContainedSubtreeFacts.
Import Tree BoundaryPointAlg RangeAlg.

Lemma diverge_extend (ca cb x : list nat) :
  fst (diverge ca cb) <> [] ->
  diverge (ca ++ x) cb = (fst (diverge ca cb) ++ x, snd (diverge ca cb)).
Proof.
  revert cb; induction ca as [|a ca IH]; intros cb; simpl; [tauto|].
  destruct cb as [|b cb]; [reflexivity|].
  destruct (a =? b); [apply IH | reflexivity].
Qed.

(** A point in a child of [n] lies, to a point of another node that is not
    below [n], as the points of [n] lie. *)
Lemma position_below (st : Store) (n c o oc bn bo : nat) :
  wf st -> parentOf st c = Some n -> n <> bn ->
  fst (diverge (chain st n) (chain st bn)) <> [] ->
  position st (c, oc) (bn, bo) = position st (n, o) (bn, bo).
Proof.
  intros Hwf Hc Hne Hd.
  assert (Hcb : c <> bn).
  { intros ->; apply Hd.
    rewrite (chain_step st Hwf bn n Hc).
    rewrite <- (app_nil_r (chain st n)) at 1.
    rewrite diverge_app; reflexivity. }
  unfold position.
  apply Nat.eqb_neq in Hne, Hcb; rewrite Hne, Hcb.
  rewrite (chain_step st Hwf c n Hc), (diverge_extend _ _ [c] Hd).
  destruct (diverge (chain st n) (chain st bn)) as [[|a ra] rb]; cbn [fst snd] in *;
    [tauto|].
  reflexivity.
Qed.

Lemma contained_child (st : Store) (r : Range) (n c : nat) :
  wf st -> parentOf st c = Some n ->
  isContained st n r = true -> isContained st c r = true.
Proof.
  intros Hwf Hc; unfold isContained.
  rewrite !andb_true_iff, !BoundaryPosition_eqb_eq.
  destruct r as [[sn so] [en eo]]; unfold root, _startNode; cbn [_start _end fst].
  intros [[Hroot Hs] He].
  rewrite (rootNode_child st c n Hwf Hc).
  split; [split; [exact Hroot|]|].
  - (* the start *)
    rewrite <- Hs; apply position_below; try assumption.
    + intros ->; rewrite position_same_node in Hs; destruct so; discriminate.
    + intros Hd; unfold position in Hs.
      destruct (n =? sn); [destruct (0 ?= so) eqn:E; try discriminate;
                           apply Nat.compare_gt_iff in E; lia|].
      destruct (diverge (chain st n) (chain st sn)) as [[|a ra] [|b rb]];
        cbn [fst] in Hd; try discriminate; congruence.
  - (* the end *)
    destruct (Nat.eq_dec n en) as [-> | Hne].
    + rewrite position_same_node in He.
      destruct (nodeLength st en ?= eo) eqn:E; try discriminate.
      apply Nat.compare_lt_iff in E.
      assert (Hce : c <> en).
      { intros ->; destruct (wf_rank st Hwf) as [rank Hr].
        specialize (Hr en en Hc); lia. }
      unfold position; apply Nat.eqb_neq in Hce; rewrite Hce.
      rewrite (chain_step st Hwf c en Hc).
      rewrite <- (app_nil_r (chain st en)) at 2.
      rewrite diverge_app; cbn [diverge].
      pose proof (index_lt_length st c en Hwf Hc) as Hlt.
      replace (eo <=? index st c) with false by (symmetry; apply Nat.leb_gt; lia).
      reflexivity.
    + rewrite <- He; apply position_below; try assumption.
      intros Hd; unfold position in He.
      apply Nat.eqb_neq in Hne; rewrite Hne in He.
      destruct (diverge_spec (chain st n) (chain st en)) as (pre & E1 & E2 & _).
      destruct (diverge (chain st n) (chain st en)) as [[|a ra] [|b rb]];
        cbn [fst snd] in *; try discriminate; try congruence.
      rewrite app_nil_r in E1; subst pre.
      destruct (chain_last st n) as [pn Hpn].
      assert (Hb : parentOf st b = Some n).
      { apply (chain_adjacent st Hwf en n b pn rb).
        rewrite E2, Hpn, <- app_assoc; reflexivity. }
      pose proof (index_lt_length st b n Hwf Hb) as Hlt.
      apply Nat.leb_gt in Hlt; rewrite Hlt in He; discriminate.
Qed.

(** X23. In a well-formed tree, a range that contains a node contains every
    descendant of the node. *)
Theorem contained_descendants (st : Store) (r : Range) (n d : nat) :
  wf st -> isContained st n r = true -> isAncestorOf st d n true = true ->
  isContained st d r = true.
Proof.
  intros Hwf Hn Hd; apply isAncestorOf_chain in Hd; revert Hd.
  apply (parent_induction st Hwf
           (fun d => In n (chain st d) -> isContained st d r = true)).
  - intros y Hp; rewrite (chain_root st y Hp); intros [<- | []]; exact Hn.
  - intros y p Hp IH; rewrite (chain_step st Hwf y p Hp), in_app_iff.
    intros [H | [<- | []]]; [|exact Hn].
    exact (contained_child st r p y Hwf Hp (IH H)).
Qed.

Lemma contained_descendants_witness :
  isContained sampleTree 2 (mkRange (0, 0) (0, 2)) = true.
Proof.
  apply (contained_descendants sampleTree (mkRange (0, 0) (0, 2)) 1 2 wf_sampleTree);
    reflexivity.
Defined.

End ContainedSubtreeFacts.

(** ** Tree walker: the walks end *)

Section DigitFacts.

Lemma digitsValue_app (W : nat) (p l : list nat) :
  digitsValue W (p ++ l) = digitsValue W p * W ^ length l + digitsValue W l.
Proof.
  induction p as [|d p IH]; simpl; [reflexivity|].
  rewrite IH, length_app, Nat.pow_add_r; ring.
Qed.

Lemma digitsValue_bound (W : nat) (l : list nat) :
  Forall (fun d => d < W) l -> digitsValue W l < W ^ length l.
Proof.
  induction l as [|d l IH]; simpl; intros H; [lia|].
  inversion H as [|? ? Hd Hl]; subst.
  specialize (IH Hl).
  assert (d * W ^ length l + W ^ length l <= W * W ^ length l); [|lia].
  replace (d * W ^ length l + W ^ length l) with (S d * W ^ length l) by ring.
  apply Nat.mul_le_mono_r; lia.
Qed.

(** Two numbers of as many digits that part at a digit. *)
Lemma digitsValue_lex (W : nat) (p l1 l2 : list nat) (a b : nat) :
  length l1 = length l2 -> a < b -> Forall (fun d => d < W) l1 ->
  digitsValue W (p ++ a :: l1) < digitsValue W (p ++ b :: l2).
Proof.
  intros Hlen Hab Hl1.
  rewrite !digitsValue_app; simpl; rewrite <- Hlen.
  pose proof (digitsValue_bound W l1 Hl1) as Hb.
  assert (a * W ^ length l1 + W ^ length l1 <= b * W ^ length l1); [|lia].
  replace (a * W ^ length l1 + W ^ length l1) with (S a * W ^ length l1) by ring.
  apply Nat.mul_le_mono_r; lia.
Qed.

End DigitFacts.

Section WalkOrder.
Import Tree TreeWalkerAlg.

Variable st : Store.
Hypothesis Hwf : wf st.
Variable forward : bool.

Lemma children_length_le (p : nat) : length (childrenOf st p) <= length st.
Proof.
  assert (Hincl : incl (childrenOf st p) (seq 0 (length st))).
  { intros c Hc; apply in_seq; split; [lia|]; simpl.
    apply (wf_child_parent st Hwf) in Hc.
    eapply parentOf_inside; eauto. }
  pose proof (List.NoDup_incl_length (wf_nodup st Hwf p) Hincl) as H.
  rewrite List.length_seq in H; exact H.
Qed.

(** A node with a parent has fewer siblings ahead than the store has nodes. *)
Lemma siblingsAhead_child (c p : nat) :
  parentOf st c = Some p -> siblingsAhead st forward c < length st.
Proof.
  intros Hp; unfold siblingsAhead; rewrite Hp.
  destruct (index_child_ex st c p Hwf Hp) as (i & Hi & ->).
  pose proof (findIndex_lt _ _ _ Hi) as Hlt.
  pose proof (children_length_le p) as Hle.
  destruct forward; lia.
Qed.

Lemma walkKey_step (n p : nat) :
  parentOf st n = Some p ->
  walkKey st forward n = walkKey st forward p ++ [siblingsAhead st forward n].
Proof.
  intros Hp; unfold walkKey.
  rewrite (chain_step st Hwf n p Hp), List.map_app; reflexivity.
Qed.

Lemma length_walkKey (n : nat) : length (walkKey st forward n) <= S (length st).
Proof. unfold walkKey; rewrite List.length_map; apply length_chain_le, Hwf. Qed.

(** The key of a node begins with the key of each inclusive ancestor. *)
Lemma walkKey_prefix (a m : nat) :
  In a (chain st m) ->
  exists rest, walkKey st forward m = walkKey st forward a ++ rest.
Proof.
  intros Hin; destruct (chain_prefix st Hwf a m Hin) as [rest Hrest].
  exists (List.map (siblingsAhead st forward) rest).
  unfold walkKey; rewrite Hrest, List.map_app; reflexivity.
Qed.

Lemma Forall_repeat_lt (d W k : nat) : d < W -> Forall (fun x => x < W) (repeat d k).
Proof. intros H; induction k; simpl; constructor; auto. Qed.

(** Coming to a child lessens what is ahead. *)
Lemma walkAhead_child (c n : nat) :
  parentOf st c = Some n ->
  walkAhead st forward (length st) c < walkAhead st forward (length st) n.
Proof.
  intros Hc; unfold walkAhead.
  pose proof (length_walkKey c) as Hl.
  rewrite (walkKey_step c n Hc) in *.
  rewrite length_app in *; simpl in Hl |- *.
  set (k := walkKey st forward n) in *.
  replace (S (length st) - length k)
    with (S (S (length st) - (length k + 1))) by lia.
  rewrite <- app_assoc; cbn [repeat app].
  apply digitsValue_lex.
  - reflexivity.
  - exact (siblingsAhead_child c n Hc).
  - apply Forall_repeat_lt; lia.
Qed.

(** Coming to a node whose key parts from the key of [y] at a smaller digit
    lessens what is ahead, whatever [y] is filled up with. *)
Lemma walkAhead_lex (x y : nat) (k rest : list nat) (a b pad : nat) :
  walkKey st forward x = k ++ [a] -> walkKey st forward y = k ++ b :: rest ->
  a < b ->
  walkAhead st forward (length st) x < walkAhead st forward pad y.
Proof.
  intros Hx Hy Hab; unfold walkAhead.
  pose proof (length_walkKey x) as Lx; pose proof (length_walkKey y) as Ly.
  rewrite Hx, Hy in *; rewrite !length_app in *; simpl in Lx, Ly |- *.
  rewrite <- !app_assoc; cbn [app].
  apply digitsValue_lex.
  - rewrite length_app, !repeat_length; lia.
  - exact Hab.
  - apply Forall_repeat_lt; lia.
Qed.

(** The sibling the walk goes to has the same parent and fewer siblings
    ahead. *)
Lemma sibling_ahead (n s : nat) :
  (if forward then _nextSibling st n else _previousSibling st n) = Some s ->
  exists p, parentOf st n = Some p /\ parentOf st s = Some p
            /\ siblingsAhead st forward s < siblingsAhead st forward n.
Proof.
  intros Hs.
  pose proof (sibling_parent st Hwf forward n s Hs) as Hps.
  unfold _nextSibling, _previousSibling, Links.nextSibling, Links.previousSibling in Hs.
  destruct (parentOf st n) as [p|] eqn:Hp; [|destruct forward; discriminate].
  exists p; split; [reflexivity | split; [exact Hps|]].
  unfold siblingsAhead; rewrite Hp, Hps.
  destruct (findIndex n (childrenOf st p)) as [i|] eqn:Hi;
    [|destruct forward; discriminate].
  rewrite (index_child st n p i Hp Hi).
  destruct forward.
  - pose proof (findIndex_nth_NoDup _ _ _ (wf_nodup st Hwf p) Hs) as Hsi.
    rewrite (index_child st s p (S i) Hps Hsi).
    apply findIndex_lt in Hsi; lia.
  - destruct i as [|i]; [discriminate|].
    pose proof (findIndex_nth_NoDup _ _ _ (wf_nodup st Hwf p) Hs) as Hsi.
    rewrite (index_child st s p i Hps Hsi); lia.
Qed.

(** Coming to the sibling of [n] lessens what is ahead at any node at or
    below [n]. *)
Lemma walkAhead_sibling (n s m pad : nat) :
  (if forward then _nextSibling st n else _previousSibling st n) = Some s ->
  In n (chain st m) ->
  walkAhead st forward (length st) s < walkAhead st forward pad m.
Proof.
  intros Hs Hin.
  destruct (sibling_ahead n s Hs) as (p & Hp & Hps & Hlt).
  destruct (walkKey_prefix n m Hin) as [rest Hrest].
  apply (walkAhead_lex s m (walkKey st forward p) rest
           (siblingsAhead st forward s) (siblingsAhead st forward n) pad).
  - apply walkKey_step; exact Hps.
  - rewrite Hrest, (walkKey_step n p Hp), <- app_assoc; reflexivity.
  - exact Hlt.
Qed.

End WalkOrder.

Section ChildrenWalkEnds.
Import Tree TreeWalkerAlg TreeWalkerChildren.

Variable st : Store.
Hypothesis Hwf : wf st.
Variable walker : TreeWalker.
Variable first : bool.

Lemma climb_more_fuel (fuel : nat) :
  forall node r fuel', climb fuel st walker first node = Return r -> fuel <= fuel' ->
                       climb fuel' st walker first node = Return r.
Proof.
  induction fuel as [|fuel IH]; intros node r fuel' H Hle;
    (destruct fuel' as [|fuel']; [try exact H; lia|]);
    cbn [climb] in H |- *;
    (destruct (if first then _nextSibling st node else _previousSibling st node);
     [exact H|]);
    (destruct (parentOf st node) as [p|]; [|exact H]);
    (destruct ((p =? _root walker) || (p =? _current walker)); [exact H|]).
  - discriminate.
  - apply IH; [exact H | lia].
Qed.

(** The climb ends: it goes up the chain of the node. *)
Lemma climb_ends :
  forall node fuel, length (chain st node) <= S fuel ->
                    exists r, climb fuel st walker first node = Return r.
Proof.
  apply (parent_induction st Hwf (fun node => forall fuel,
           length (chain st node) <= S fuel ->
           exists r, climb fuel st walker first node = Return r)).
  - intros y Hp fuel _.
    destruct fuel; cbn [climb]; rewrite Hp;
      destruct (if first then _nextSibling st y else _previousSibling st y); eauto.
  - intros y p Hp IH fuel Hlen.
    rewrite (chain_step st Hwf y p Hp), length_app in Hlen; simpl in Hlen.
    destruct (chain_last st p) as [pre Hpre].
    assert (Hlp : 1 <= length (chain st p))
      by (rewrite Hpre, length_app; simpl; lia).
    destruct fuel as [|fuel]; [lia|].
    cbn [climb]; rewrite Hp.
    destruct (if first then _nextSibling st y else _previousSibling st y); [eauto|].
    destruct ((p =? _root walker) || (p =? _current walker)); [eauto|].
    apply IH; lia.
Qed.

(** The sibling the climb ends with lessens what is ahead at any node at or
    below the node the climb began at. *)
Lemma climb_ahead (fuel : nat) :
  forall node s m pad,
    climb fuel st walker first node = Return (Some s) -> In node (chain st m) ->
    walkAhead st first (length st) s < walkAhead st first pad m.
Proof.
  induction fuel as [|fuel IH]; intros node s m pad H Hin; cbn [climb] in H;
    (destruct (if first then _nextSibling st node else _previousSibling st node)
       as [sib|] eqn:Es;
     [injection H as <-; exact (walkAhead_sibling st Hwf first node sib m pad Es Hin)|]);
    (destruct (parentOf st node) as [p|] eqn:Hp; [|discriminate]);
    (destruct ((p =? _root walker) || (p =? _current walker)); [discriminate|]).
  - discriminate.
  - apply (IH p s m pad H).
    exact (in_chain_parent st node p m Hwf Hin Hp).
Qed.

Lemma childLoop_ends (k : nat) :
  forall node, walkAhead st first (length st) node < k ->
    exists fuel walker' res,
      forall fuel', fuel <= fuel' ->
        childLoop fuel' st walker first (Some node) = (walker', Return res).
Proof.
  induction k as [|k IH]; intros node Hk; [lia|].
  destruct (FilterResult_eqb (filter walker node) Accept) eqn:Ea.
  - exists 1, (setCurrent node walker), (Some node).
    intros [|fuel'] Hle; [lia|]; cbn [childLoop]; rewrite Ea; reflexivity.
  - destruct (if FilterResult_eqb (filter walker node) Skip
              then if first then _firstChild st node else _lastChild st node
              else None) as [c|] eqn:Ec.
    + (* the walk goes to a child *)
      assert (Hc : parentOf st c = Some node).
      { destruct (FilterResult_eqb (filter walker node) Skip); [|discriminate].
        exact (child_parent st Hwf first node c Ec). }
      pose proof (walkAhead_child st Hwf first c node Hc) as Hlt.
      destruct (IH c ltac:(lia)) as (f & w' & res & Hf).
      exists (S f), w', res.
      intros [|fuel'] Hle; [lia|]; cbn [childLoop]; rewrite Ea, Ec.
      apply Hf; lia.
    + (* the walk climbs *)
      destruct (climb_ends node (length st) (length_chain_le st node Hwf)) as [r Hr].
      destruct r as [s|].
      * pose proof (climb_ahead _ node s node (length st) Hr (chain_In_self st node))
          as Hlt.
        destruct (IH s ltac:(lia)) as (f & w' & res & Hf).
        exists (S (Nat.max f (length st))), w', res.
        intros [|fuel'] Hle; [lia|]; cbn [childLoop]; rewrite Ea, Ec.
        rewrite (climb_more_fuel _ _ _ fuel' Hr) by lia.
        apply Hf; lia.
      * exists (S (length st)), walker, None.
        intros [|fuel'] Hle; [lia|]; cbn [childLoop]; rewrite Ea, Ec.
        rewrite (climb_more_fuel _ _ _ fuel' Hr) by lia.
        reflexivity.
Qed.

(** X24. On a well-formed tree [traverseChildren] ends: with enough fuel for
    the loops of the model it returns, and more fuel gives the same walker
    and node. *)
Theorem traverseChildren_returns :
  exists fuel walker' res,
    forall fuel', fuel <= fuel' ->
      traverseChildren fuel' st walker first = (walker', Return res).
Proof.
  unfold traverseChildren.
  destruct (if first then _firstChild st (_current walker)
            else _lastChild st (_current walker)) as [c|].
  - exact (childLoop_ends _ c (Nat.lt_succ_diag_r _)).
  - exists 0, walker, None; intros fuel' _; destruct fuel'; reflexivity.
Qed.

End ChildrenWalkEnds.

Section ChildrenWalkEndsWitness.
Import TreeWalkerAlg TreeWalkerChildren.

Lemma traverseChildren_returns_witness :
  exists fuel walker' res,
    forall fuel', fuel <= fuel' ->
      traverseChildren fuel' sampleTree skipWalker true = (walker', Return res).
Proof. exact (traverseChildren_returns sampleTree wf_sampleTree skipWalker true). Defined.

End ChildrenWalkEndsWitness.

Section SiblingWalkEnds.
Import Tree TreeWalkerAlg.

Variable st : Store.
Hypothesis Hwf : wf st.
Variable walker : TreeWalker.
Variable next : bool.

Lemma digitsValue_zeros (W k : nat) : digitsValue W (repeat 0 k) = 0.
Proof. induction k as [|k IH]; simpl; [reflexivity | exact IH]. Qed.

(** When the walk has done with a node, no more is ahead than at any of its
    children. *)
Lemma walkAhead_done_parent (c p pad : nat) :
  parentOf st c = Some p ->
  walkAhead st next 0 p <= walkAhead st next pad c.
Proof.
  intros Hc; unfold walkAhead.
  pose proof (length_walkKey st Hwf next c) as Hl.
  rewrite (walkKey_step st Hwf next c p Hc) in *.
  rewrite length_app in *; simpl in Hl |- *.
  set (k := walkKey st next p) in *.
  rewrite <- app_assoc, !digitsValue_app, digitsValue_zeros.
  rewrite repeat_length, length_app, repeat_length; cbn [length].
  replace (S (length st) - length k)
    with (1 + (S (length st) - (length k + 1))) by lia.
  generalize (digitsValue (S (length st)) k)
    (S (length st) ^ (1 + (S (length st) - (length k + 1))))
    (digitsValue (S (length st))
       ([siblingsAhead st next c] ++ repeat pad (S (length st) - (length k + 1)))).
  intros; lia.
Qed.

(** The scan of the siblings and what is below them ends; when it ends
    without an accepted node, no more is ahead at the node it stands on than
    was at the first sibling. *)
Lemma scanSiblings_ends (k : nat) :
  forall s node, walkAhead st next (length st) s < k ->
    exists fuel res,
      (forall fuel', fuel <= fuel' ->
         scanSiblings fuel' st walker next node (Some s) = Return res)
      /\ (forall n', res = Exhausted n' ->
            walkAhead st next (length st) n' <= walkAhead st next (length st) s).
Proof.
  induction k as [|k IH]; intros s node Hk; [lia|].
  destruct (FilterResult_eqb (filter walker s) Accept) eqn:Ea.
  - exists 1, (Accepted s); split; [|discriminate].
    intros [|fuel'] Hle; [lia|]; cbn [scanSiblings]; rewrite Ea; reflexivity.
  - set (sibling' :=
           if FilterResult_eqb (filter walker s) Reject
              || match (if next then _firstChild st s else _lastChild st s) with
                 | None => true
                 | Some _ => false
                 end
           then (if next then _nextSibling st s else _previousSibling st s)
           else (if next then _firstChild st s else _lastChild st s)).
    assert (Hstep : forall fuel', scanSiblings (S fuel') st walker next node (Some s)
                                  = scanSiblings fuel' st walker next s sibling')
      by (intros fuel'; cbn [scanSiblings]; rewrite Ea; reflexivity).
    destruct sibling' as [s'|] eqn:Es'.
    + assert (Hlt : walkAhead st next (length st) s' < walkAhead st next (length st) s).
      { unfold sibling' in Es'.
        destruct (FilterResult_eqb (filter walker s) Reject
                  || match (if next then _firstChild st s else _lastChild st s) with
                     | None => true
                     | Some _ => false
                     end).
        - exact (walkAhead_sibling st Hwf next s s' s _ Es' (chain_In_self st s)).
        - apply (walkAhead_child st Hwf next).
          exact (child_parent st Hwf next s s' Es'). }
      destruct (IH s' s ltac:(lia)) as (f & res & Hf & He).
      exists (S f), res; split.
      * intros [|fuel'] Hle; [lia|]; rewrite Hstep; apply Hf; lia.
      * intros n' Hn'; specialize (He n' Hn'); lia.
    + exists 1, (Exhausted s); split.
      * intros [|fuel'] Hle; [lia|]; rewrite Hstep; destruct fuel'; reflexivity.
      * intros n' [= <-]; lia.
Qed.

Lemma siblingLoop_ends (k : nat) :
  forall node,
    walkAhead st next 0 node * S (S (length st)) + length (chain st node) < k ->
    exists fuel walker' res,
      forall fuel', fuel <= fuel' ->
        siblingLoop fuel' st walker next node = (walker', Return res).
Proof.
  induction k as [|k IH]; intros node Hk; [lia|].
  (* what the loop does when the scan has ended on [n'] without a node *)
  assert (Hup : forall n',
             (n' = node
              \/ walkAhead st next (length st) n' < walkAhead st next 0 node) ->
             exists fuel walker' res,
               forall fuel', fuel <= fuel' ->
                 match parentOf st n' with
                 | None => (walker, Return None)
                 | Some p =>
                     if p =? _root walker then (walker, Return None)
                     else if FilterResult_eqb (filter walker p) Accept
                          then (walker, Return None)
                          else siblingLoop fuel' st walker next p
                 end = (walker', Return res)).
  { intros n' Hn'.
    destruct (parentOf st n') as [p|] eqn:Hp; [|exists 0, walker, None; reflexivity].
    destruct (p =? _root walker); [exists 0, walker, None; reflexivity|].
    destruct (FilterResult_eqb (filter walker p) Accept);
      [exists 0, walker, None; reflexivity|].
    apply IH.
    pose proof (walkAhead_done_parent n' p (length st) Hp) as H1.
    pose proof (walkAhead_done_parent n' p 0 Hp) as H0.
    pose proof (length_chain_le st p Hwf) as Hlp.
    pose proof (length_chain_le st node Hwf) as Hln.
    destruct Hn' as [-> | Hlt].
    - rewrite (chain_step st Hwf node p Hp), length_app in Hk; simpl in Hk.
      nia.
    - nia. }
  destruct (if next then _nextSibling st node else _previousSibling st node)
    as [s|] eqn:Es.
  - destruct (scanSiblings_ends _ s node (Nat.lt_succ_diag_r _))
      as (fs & res & Hfs & He).
    destruct res as [n|n'].
    + exists (S fs), (setCurrent n walker), (Some n).
      intros [|fuel'] Hle; [lia|]; cbn [siblingLoop].
      rewrite Es, Hfs by lia; reflexivity.
    + pose proof (walkAhead_sibling st Hwf next node s node 0 Es (chain_In_self st node))
        as Hlt.
      specialize (He n' eq_refl).
      destruct (Hup n' ltac:(right; lia)) as (f & w' & r & Hf).
      exists (S (Nat.max fs f)), w', r.
      intros [|fuel'] Hle; [lia|]; cbn [siblingLoop].
      rewrite Es, Hfs by lia.
      apply Hf; lia.
  - destruct (Hup node ltac:(left; reflexivity)) as (f & w' & r & Hf).
    exists (S f), w', r.
    intros [|fuel'] Hle; [lia|]; cbn [siblingLoop].
    rewrite Es.
    assert (Hscan : scanSiblings fuel' st walker next node None
                    = Return (Exhausted node)) by (destruct fuel'; reflexivity).
    rewrite Hscan; apply Hf; lia.
Qed.

(** X25. On a well-formed tree [traverseSiblings] ends: with enough fuel for
    the loops of the model it returns, and more fuel gives the same walker
    and node. *)
Theorem traverseSiblings_returns :
  exists fuel walker' res,
    forall fuel', fuel <= fuel' ->
      traverseSiblings fuel' st walker next = (walker', Return res).
Proof.
  unfold traverseSiblings.
  destruct (_current walker =? _root walker).
  - exists 0, walker, None; reflexivity.
  - exact (siblingLoop_ends _ (_current walker) (Nat.lt_succ_diag_r _)).
Qed.

End SiblingWalkEnds.

Section SiblingWalkEndsWitness.
Import TreeWalkerAlg.

Lemma traverseSiblings_returns_witness :
  exists fuel walker' res,
    forall fuel', fuel <= fuel' ->
      traverseSiblings fuel' sampleTree sampleWalker true = (walker', Return res).
Proof. exact (traverseSiblings_returns sampleTree wf_sampleTree sampleWalker true). Defined.

End SiblingWalkEndsWitness.

(** ** Contents: the first partially contained child *)

Section FirstPartiallyContainedFacts.
Import Tree BoundaryPointAlg RangeAlg.

Variable st : Store.
Hypothesis Hwf : wf st.

Lemma chain_antisym (a b : nat) : In a (chain st b) -> In b (chain st a) -> a = b.
Proof.
  intros Hab Hba.
  destruct (chain_prefix st Hwf a b Hab) as [r1 E1].
  destruct (chain_prefix st Hwf b a Hba) as [r2 E2].
  assert (r1 = []) as ->.
  { apply (f_equal (@length nat)) in E1, E2; rewrite length_app in E1, E2.
    destruct r1; [reflexivity | simpl in E1; lia]. }
  rewrite app_nil_r in E1.
  destruct (chain_last st a) as [pa Ea], (chain_last st b) as [pb Eb].
  rewrite Ea, Eb in E1; apply app_inj_tail in E1 as [_ E]; congruence.
Qed.

(** The node the loop gives is the lowest inclusive ancestor of the node it
    began at that is an inclusive ancestor of the end node. *)
Lemma findCommonAncestor_lowest (endNode : nat) (fuel : nat) :
  forall y c, findCommonAncestor fuel st endNode y = Return c ->
    In c (chain st y) /\ In c (chain st endNode)
    /\ (forall x, In x (chain st y) -> In c (chain st x) -> x <> c ->
                  ~ In x (chain st endNode)).
Proof.
  induction fuel as [|fuel IH]; intros y c; cbn [findCommonAncestor];
    (destruct (isAncestorOf st endNode y true) eqn:E;
     [intros [= <-]; apply isAncestorOf_chain in E;
      split; [apply chain_In_self | split; [exact E|]];
      intros x Hx Hc Hne; destruct Hne; exact (chain_antisym x y Hx Hc)|]);
    (destruct (parentOf st y) as [p|] eqn:Hp; [|discriminate]).
  - discriminate.
  - intros H; destruct (IH p c H) as (H1 & H2 & H3).
    apply isAncestorOf_chain_false in E.
    split; [rewrite (chain_step st Hwf y p Hp); apply in_app_iff; auto|].
    split; [exact H2|].
    intros x Hx Hc Hne.
    rewrite (chain_step st Hwf y p Hp) in Hx.
    apply in_app_iff in Hx as [Hx | [<- | []]]; [apply H3; assumption | exact E].
Qed.

Lemma find_least (P : nat -> bool) (c : nat) (l : list nat) :
  In c l -> P c = true ->
  (forall x i j, findIndex x l = Some i -> findIndex c l = Some j ->
                 P x = true -> j <= i) ->
  List.find P l = Some c.
Proof.
  induction l as [|y l IH]; simpl; [tauto|].
  intros Hin Hc Hle.
  destruct (P y) eqn:Ey.
  - specialize (Hle y 0); rewrite Nat.eqb_refl in Hle.
    destruct (c =? y) eqn:E; [apply Nat.eqb_eq in E; congruence|].
    destruct Hin as [-> | Hin]; [reflexivity|].
    destruct (findIndex_In c l Hin) as [j Hj]; rewrite Hj in Hle.
    specialize (Hle (S j) eq_refl eq_refl Ey); lia.
  - destruct Hin as [-> | Hin]; [congruence|].
    apply IH; [exact Hin | exact Hc|].
    intros x i j Hx Hj Hpx.
    assert (Exy : (x =? y) = false).
    { apply Nat.eqb_neq; intros ->; congruence. }
    assert (Ecy : (c =? y) = false).
    { apply Nat.eqb_neq; intros ->; congruence. }
    specialize (Hle x (S i) (S j)); rewrite Exy, Ecy, Hx, Hj in Hle.
    specialize (Hle eq_refl eq_refl Hpx); lia.
Qed.

(** X26. In a well-formed tree, for a range whose ends are in order and whose
    start node is not an inclusive ancestor of its end node, the loop of step 8 of [extract] and
    [cloneTheContents] finds, among the children of the common ancestor, the
    child that is an inclusive ancestor of the start node. *)
Theorem firstPartiallyContained_holds_start (r : Range) (commonAncestor : nat) :
  ordered st r ->
  isAncestorOf st (_endNode r) (_startNode r) true = false ->
  findCommonAncestor (length st) st (_endNode r) (_startNode r)
  = Return commonAncestor ->
  exists child,
    firstPartiallyContained st r (childrenOf st commonAncestor) = Some child
    /\ parentOf st child = Some commonAncestor
    /\ isAncestorOf st (_startNode r) child true = true.
Proof.
  destruct r as [[sn so] [en eo]]; unfold _startNode, _endNode;
    cbn [_start _end fst].
  intros Hord Hnot Hca.
  apply isAncestorOf_chain_false in Hnot.
  destruct (findCommonAncestor_lowest en _ sn commonAncestor Hca) as (Hs & He & Hlow).
  set (ca := commonAncestor) in *.
  assert (Hne : ca <> sn) by (intros E; rewrite E in He; contradiction).
  destruct (chain_prefix st Hwf ca sn Hs) as [rest Hrest].
  destruct rest as [|cs rest].
  { rewrite app_nil_r in Hrest.
    destruct (chain_last st ca) as [pa Ea], (chain_last st sn) as [ps Es].
    rewrite Ea, Es in Hrest; apply app_inj_tail in Hrest as [_ E]; congruence. }
  destruct (chain_last st ca) as [pca Hpca].
  assert (Hcs : parentOf st cs = Some ca).
  { apply (chain_adjacent st Hwf sn ca cs pca rest).
    rewrite Hrest, Hpca, <- app_assoc; reflexivity. }
  assert (Hcs_sn : In cs (chain st sn))
    by (rewrite Hrest; apply in_app_iff; right; left; reflexivity).
  assert (Hcs_en : ~ In cs (chain st en)).
  { apply Hlow; [exact Hcs_sn | |].
    - rewrite (chain_step st Hwf cs ca Hcs); apply in_app_iff; left.
      apply chain_In_self.
    - intros E; destruct (wf_rank st Hwf) as [rank Hr].
      specialize (Hr cs ca Hcs); rewrite E in Hr; lia. }
  assert (Hpc : isPartiallyContained st cs (mkRange (sn, so) (en, eo)) = true).
  { unfold isPartiallyContained, _startNode, _endNode; cbn [_start _end fst].
    apply isAncestorOf_chain in Hcs_sn; apply isAncestorOf_chain_false in Hcs_en.
    rewrite Hcs_sn, Hcs_en; reflexivity. }
  exists cs; split; [|split; [exact Hcs | apply isAncestorOf_chain; exact Hcs_sn]].
  apply find_least; [apply (wf_parent_child st Hwf); exact Hcs | exact Hpc|].
  intros x i j Hx Hj Hpx.
  destruct (Nat.eq_dec x cs) as [-> | Hxc]; [rewrite Hx in Hj; injection Hj; lia|].
  assert (Hxp : parentOf st x = Some ca)
    by (apply (wf_child_parent st Hwf); eapply findIndex_Some_In; eauto).
  (* [x] is no ancestor of the start node, so it is one of the end node *)
  assert (Hx_sn : ~ In x (chain st sn)).
  { intros Hin; destruct (chain_prefix st Hwf x sn Hin) as [r2 E2].
    rewrite (chain_step st Hwf x ca Hxp), <- app_assoc, Hrest in E2.
    apply app_inv_head in E2; simpl in E2; congruence. }
  assert (Hx_en : In x (chain st en)).
  { unfold isPartiallyContained, _startNode, _endNode in Hpx;
      cbn [_start _end fst] in Hpx.
    apply isAncestorOf_chain_false in Hx_sn; rewrite Hx_sn in Hpx.
    apply isAncestorOf_chain; destruct (isAncestorOf st en x true);
      [reflexivity | discriminate]. }
  destruct (chain_prefix st Hwf x en Hx_en) as [r3 E3].
  rewrite (chain_step st Hwf x ca Hxp), <- app_assoc in E3; simpl in E3.
  (* the two ends part below the common ancestor, at [cs] and [x] *)
  assert (Hsn_en : sn <> en) by (intros E; apply Hnot; rewrite <- E; apply chain_In_self).
  destruct Hord as [Hord | Hord]; unfold position in Hord; cbn [_start _end] in Hord;
    apply Nat.eqb_neq in Hsn_en; rewrite Hsn_en, Hrest, E3, diverge_app in Hord;
    cbn [diverge] in Hord;
    apply Nat.eqb_neq in Hxc; rewrite (Nat.eqb_sym cs x), Hxc in Hord;
    rewrite (index_child st cs ca j Hcs Hj), (index_child st x ca i Hxp Hx) in Hord;
    destruct (j ?= i) eqn:E; try discriminate.
  - apply Nat.compare_eq in E; lia.
  - apply Nat.compare_lt_iff in E; lia.
Qed.

End FirstPartiallyContainedFacts.

Section FirstPartiallyContainedWitness.
Import Tree RangeAlg.

Lemma firstPartiallyContained_holds_start_witness :
  exists child,
    firstPartiallyContained sampleTree (mkRange (2, 1) (3, 1)) (childrenOf sampleTree 0)
    = Some child
    /\ parentOf sampleTree child = Some 0
    /\ isAncestorOf sampleTree 2 child true = true.
Proof.
  apply (firstPartiallyContained_holds_start sampleTree wf_sampleTree
           (mkRange (2, 1) (3, 1)) 0).
  - right; reflexivity.
  - reflexivity.
  - reflexivity.
Defined.

End FirstPartiallyContainedWitness.

Section LastPartiallyContainedFacts.
Import Tree BoundaryPointAlg RangeAlg.

Variable st : Store.
Hypothesis Hwf : wf st.

(** The child of a proper ancestor [a] of [m] that is on the chain of [m]. *)
Lemma child_toward (a m : nat) :
  In a (chain st m) -> a <> m ->
  exists c rest, chain st m = chain st a ++ c :: rest /\ parentOf st c = Some a.
Proof.
  intros Hin Hne.
  destruct (chain_prefix st Hwf a m Hin) as [rest Hrest].
  destruct rest as [|c rest].
  - rewrite app_nil_r in Hrest.
    destruct (chain_last st a) as [pa Ea], (chain_last st m) as [pm Em].
    rewrite Ea, Em in Hrest; apply app_inj_tail in Hrest as [_ E]; congruence.
  - exists c, rest; split; [exact Hrest|].
    destruct (chain_last st a) as [pa Ea].
    apply (chain_adjacent st Hwf m a c pa rest).
    rewrite Hrest, Ea, <- app_assoc; reflexivity.
Qed.

(** A chain goes through one child of a node only. *)
Lemma child_on_chain (x a m c : nat) (rest : list nat) :
  parentOf st x = Some a -> In x (chain st m) ->
  chain st m = chain st a ++ c :: rest -> x = c.
Proof.
  intros Hx Hin Hm.
  destruct (chain_prefix st Hwf x m Hin) as [r2 E2].
  rewrite (chain_step st Hwf x a Hx), <- app_assoc, Hm in E2.
  apply app_inv_head in E2; simpl in E2; congruence.
Qed.

(** The counting loop on a list whose partially contained entries are known. *)
Lemma lastPartiallyContainedFrom_found (r : Range) (l : list nat) (c j : nat) :
  findIndex c l = Some j -> 0 < j -> isPartiallyContained st c r = true ->
  (forall x k, nth_error l k = Some x -> j < k -> isPartiallyContained st x r = false) ->
  forall i, j <= i -> i < length l ->
            lastPartiallyContainedFrom st r l i = Return (Some c).
Proof.
  intros Hj Hpos Hc Hlater.
  induction i as [|i IH]; intros Hji Hi; [lia|].
  cbn [lastPartiallyContainedFrom].
  destruct (nth_error l (S i)) as [x|] eqn:Ex;
    [|apply nth_error_None in Ex; lia].
  destruct (Nat.eq_dec j (S i)) as [-> | Hne].
  - rewrite (findIndex_nth _ _ _ Hj) in Ex; injection Ex as <-.
    rewrite Hc; reflexivity.
  - rewrite (Hlater x (S i) Ex) by lia.
    apply IH; lia.
Qed.

Lemma lastPartiallyContainedFrom_none (r : Range) (l : list nat) :
  (forall x k, nth_error l k = Some x -> 0 < k -> isPartiallyContained st x r = false) ->
  forall i, i < length l \/ i = 0 ->
            lastPartiallyContainedFrom st r l i = Return None.
Proof.
  intros Hlater; induction i as [|i IH]; intros Hi; [reflexivity|].
  cbn [lastPartiallyContainedFrom].
  destruct (nth_error l (S i)) as [x|] eqn:Ex;
    [|apply nth_error_None in Ex; lia].
  rewrite (Hlater x (S i) Ex) by lia.
  apply IH; lia.
Qed.

(** X27. In a well-formed tree, for a range whose ends are in order and whose
    end node is not an inclusive ancestor of its start node, the loop of step
    10 of [extract] and [cloneTheContents] yields the child of the common
    ancestor that is an inclusive ancestor of the end node when that child is
    not the first child, and yields null when it is the first child (the loop
    stops before the index 0). *)
Theorem lastPartiallyContained_holds_end (r : Range) (commonAncestor : nat) :
  ordered st r ->
  isAncestorOf st (_startNode r) (_endNode r) true = false ->
  findCommonAncestor (length st) st (_endNode r) (_startNode r)
  = Return commonAncestor ->
  exists child,
    parentOf st child = Some commonAncestor
    /\ isAncestorOf st (_endNode r) child true = true
    /\ isPartiallyContained st child r = true
    /\ (0 < index st child ->
        lastPartiallyContained st r (childrenOf st commonAncestor)
        = Return (Some child))
    /\ (index st child = 0 ->
        lastPartiallyContained st r (childrenOf st commonAncestor) = Return None).
Proof.
  destruct r as [[sn so] [en eo]]; unfold _startNode, _endNode;
    cbn [_start _end fst].
  intros Hord Hnot Hca.
  apply isAncestorOf_chain_false in Hnot.
  destruct (findCommonAncestor_lowest st Hwf en _ sn commonAncestor Hca)
    as (Hs & He & Hlow).
  set (ca := commonAncestor) in *.
  assert (Hne : ca <> en) by (intros E; rewrite E in Hs; contradiction).
  destruct (child_toward ca en He Hne) as (ce & rest & Hen & Hce).
  assert (Hce_en : In ce (chain st en))
    by (rewrite Hen; apply in_app_iff; right; left; reflexivity).
  assert (Hce_sn : ~ In ce (chain st sn)).
  { intros Hin; apply (Hlow ce Hin); [| |exact Hce_en].
    - rewrite (chain_step st Hwf ce ca Hce); apply in_app_iff; left.
      apply chain_In_self.
    - intros E; destruct (wf_rank st Hwf) as [rank Hr].
      specialize (Hr ce ca Hce); rewrite E in Hr; lia. }
  assert (Hsn_en : sn <> en) by (intros E; apply Hnot; rewrite E; apply chain_In_self).
  assert (Hpc : isPartiallyContained st ce (mkRange (sn, so) (en, eo)) = true).
  { unfold isPartiallyContained, _startNode, _endNode; cbn [_start _end fst].
    apply isAncestorOf_chain in Hce_en; apply isAncestorOf_chain_false in Hce_sn.
    rewrite Hce_en, Hce_sn; reflexivity. }
  destruct (index_child_ex st ce ca Hwf Hce) as (j & Hj & Hidx).
  (* a partially contained child other than [ce] comes before [ce] *)
  assert (Hothers : forall x k,
             nth_error (childrenOf st ca) k = Some x -> j < k ->
             isPartiallyContained st x (mkRange (sn, so) (en, eo)) = false).
  { intros x k Hk Hjk.
    assert (Hxi : findIndex x (childrenOf st ca) = Some k)
      by (apply findIndex_nth_NoDup; [apply (wf_nodup st Hwf) | exact Hk]).
    assert (Hxp : parentOf st x = Some ca)
      by (apply (wf_child_parent st Hwf); eapply nth_error_In; eauto).
    assert (Hxce : x <> ce) by (intros ->; rewrite Hxi in Hj; injection Hj; lia).
    assert (Hx_en : ~ In x (chain st en))
      by (intros Hin; apply Hxce; exact (child_on_chain x ca en ce rest Hxp Hin Hen)).
    unfold isPartiallyContained, _startNode, _endNode; cbn [_start _end fst].
    apply isAncestorOf_chain_false in Hx_en; rewrite Hx_en.
    destruct (isAncestorOf st sn x true) eqn:Ex; [|reflexivity].
    apply isAncestorOf_chain in Ex; exfalso.
    assert (Hcs : ca <> sn).
    { intros E; rewrite <- E in Ex.
      exact (child_not_in_chain st Hwf x ca Hxp Ex). }
    destruct (child_toward ca sn Hs Hcs) as (cs & rs & Hsn & Hcsp).
    pose proof (child_on_chain x ca sn cs rs Hxp Ex Hsn) as <-.
    destruct Hord as [Hord | Hord]; unfold position in Hord;
      cbn [_start _end] in Hord;
      apply Nat.eqb_neq in Hsn_en; rewrite Hsn_en, Hsn, Hen, diverge_app in Hord;
      cbn [diverge] in Hord;
      apply Nat.eqb_neq in Hxce; rewrite Hxce in Hord;
      rewrite (index_child st x ca k Hxp Hxi), (index_child st ce ca j Hce Hj) in Hord;
      destruct (k ?= j) eqn:E; try discriminate.
    - apply Nat.compare_eq in E; lia.
    - apply Nat.compare_lt_iff in E; lia. }
  exists ce; split; [exact Hce|].
  split; [apply isAncestorOf_chain; exact Hce_en|].
  split; [exact Hpc|].
  pose proof (findIndex_lt _ _ _ Hj) as Hlen.
  unfold lastPartiallyContained; rewrite Hidx; split.
  - intros Hpos.
    apply (lastPartiallyContainedFrom_found _ _ ce j Hj Hpos Hpc Hothers); lia.
  - intros ->.
    apply lastPartiallyContainedFrom_none; [exact Hothers | lia].
Qed.

End LastPartiallyContainedFacts.

Section LastPartiallyContainedWitness.
Import Tree RangeAlg.

Lemma lastPartiallyContained_holds_end_witness :
  exists child,
    parentOf sampleTree child = Some 0
    /\ isAncestorOf sampleTree 3 child true = true
    /\ isPartiallyContained sampleTree child (mkRange (2, 1) (3, 1)) = true
    /\ (0 < index sampleTree child ->
        lastPartiallyContained sampleTree (mkRange (2, 1) (3, 1))
          (childrenOf sampleTree 0) = Return (Some child))
    /\ (index sampleTree child = 0 ->
        lastPartiallyContained sampleTree (mkRange (2, 1) (3, 1))
          (childrenOf sampleTree 0) = Return None).
Proof.
  apply (lastPartiallyContained_holds_end sampleTree wf_sampleTree
           (mkRange (2, 1) (3, 1)) 0).
  - right; reflexivity.
  - reflexivity.
  - reflexivity.
Defined.

End LastPartiallyContainedWitness.

(** ** Attributes: setting an attribute the element has *)

Section SetOwnAttribute.
Import ElementAlg ElementAttrs.

(** In a list without two items of one name, the first item of a name is the
    only one. *)
Lemma find_only (f : nat -> option string * string) (P : nat -> bool)
  (a : nat) (l : list nat) :
  List.NoDup (List.map f l) -> In a l -> P a = true ->
  (forall x, P x = true -> f x = f a) ->
  List.find P l = Some a.
Proof.
  intros Hnd Hin Ha Hsame.
  induction l as [|x l IH]; [destruct Hin|].
  cbn [List.map] in Hnd; apply List.NoDup_cons_iff in Hnd as [Hx Hnd].
  cbn [List.find].
  destruct (P x) eqn:Ex.
  - destruct Hin as [-> | Hin]; [reflexivity|].
    exfalso; apply Hx; rewrite (Hsame x Ex).
    apply in_map; exact Hin.
  - destruct Hin as [-> | Hin]; [congruence|].
    apply IH; assumption.
Qed.

(** C10, as stated, fails.  [setAnAttributeValue] with the empty string as
    namespace stores that namespace in the new attribute; the attribute then
    has the element as its element and is in the element's list, but the
    lookup by its namespace and local name takes the empty string for null
    and does not find it: [setAnAttribute] with this attribute and the element
    returns null, logs the two calls of [append], and puts the attribute into
    the list a second time. *)
Lemma setAnAttribute_empty_namespace_appends_again :
  attrs emptyNamespaceState = [mkAttr "id" (Some EmptyString) None "x" (Some 0)]
  /\ _attributeList emptyNamespaceState 0 = [0]
  /\ _element (getAttr emptyNamespaceState 0) = Some 0
  /\ has emptyNamespaceState 0 0 = true
  /\ getAnAttributeByNamespaceAndLocalName emptyNamespaceState
       (orEmpty (_namespace (getAttr emptyNamespaceState 0)))
       (_localName (getAttr emptyNamespaceState 0)) 0
     = None
  /\ snd (setAnAttribute 0 0 emptyNamespaceState) = Return None
  /\ _attributeList (fst (setAnAttribute 0 0 emptyNamespaceState)) 0 = [0; 0]
  /\ length (log (fst (setAnAttribute 0 0 emptyNamespaceState)))
     = length (log emptyNamespaceState) + 2.
Proof. vm_compute; repeat split; reflexivity. Qed.

(** C10, amended.  For an attribute whose element is [element], which is in
    the attribute list of [element], whose namespace is not the empty string,
    and in a list without two attributes of one namespace and local name: the
    lookup by the attribute's namespace and local name gives the attribute
    itself, and [setAnAttribute] returns the attribute and changes nothing: no
    call is logged, and the attribute lists and the attribute objects (with
    their element references) are as before. *)
Theorem setAnAttribute_own_attribute (s : AttrState) (attr element : nat) :
  _element (getAttr s attr) = Some element ->
  has s attr element = true ->
  List.NoDup (List.map (nameOf s) (_attributeList s element)) ->
  _namespace (getAttr s attr) <> Some EmptyString ->
  getAnAttributeByNamespaceAndLocalName s
    (orEmpty (_namespace (getAttr s attr))) (_localName (getAttr s attr)) element
  = Some attr
  /\ setAnAttribute attr element s = (s, Return (Some attr)).
Proof.
  intros He Hhas Hnd Hns.
  assert (Hin : In attr (_attributeList s element)).
  { unfold has in Hhas; apply existsb_exists in Hhas as (x & Hx & E).
    apply Nat.eqb_eq in E; subst x; exact Hx. }
  assert (Hl : getAnAttributeByNamespaceAndLocalName s
                 (orEmpty (_namespace (getAttr s attr))) (_localName (getAttr s attr))
                 element
               = Some attr).
  { rewrite lookup_named, (orNull_orEmpty _ Hns).
    apply (find_only (nameOf s)); [exact Hnd | exact Hin | |].
    - apply named_nameOf; reflexivity.
    - intros x Hx; apply (named_same s _ _ x attr Hx).
      apply named_nameOf; reflexivity. }
  split; [exact Hl|].
  unfold setAnAttribute; rewrite He, Hl.
  replace (option_nat_eqb (Some element) (Some element)) with true
    by (symmetry; apply option_nat_eqb_eq; reflexivity).
  replace (option_nat_eqb (Some attr) (Some attr)) with true
    by (symmetry; apply option_nat_eqb_eq; reflexivity).
  rewrite andb_false_r; reflexivity.
Qed.

(** The amended C10 on the element with the attributes [id] and [class]:
    [class] is set again. *)
Lemma setAnAttribute_own_attribute_witness :
  setAnAttribute 1 0 twoAttrState = (twoAttrState, Return (Some 1)).
Proof.
  apply (setAnAttribute_own_attribute twoAttrState 1 0).
  - reflexivity.
  - reflexivity.
  - vm_compute; repeat constructor; simpl; intuition discriminate.
  - discriminate.
Defined.

End SetOwnAttribute.

(** ** Ranges: the range after an extraction *)

Section ExtractedRange.
Import Tree Mutation BoundaryPointAlg RangeAlg.









End ExtractedRange.
